(** * Polyester: tokenizer and recursive-descent parser

    A shallow embedding of [src/parser/ast.ts], [src/parser/tokenizer.ts]
    and [src/parser/parser.ts], followed by the properties of the lexer and
    parser pipeline.  The methods of [src/backends/html/compiler.ts] that
    prepare what a component receives are embedded after the parser, and
    their properties follow those of the pipeline.

    Conventions of the embedding:
    - a JavaScript string is the list of its UTF-16 code units ([jsstring]);
    - the mutable fields of the [Tokenizer] and [Parser] classes become
      records threaded through the methods;
    - [throw] becomes the [Throw] outcome of [result]; reading a property of
      [undefined] is the [TypeError] exception;
    - the methods of [Parser] run on a call stack without a bound; [Stack]
      has the parser on a stack with room for a given number of nested
      blocks, where a call that finds the stack full is the [RangeError]
      exception;
    - every [while] loop is a [Fixpoint] on a step budget ([fuel]).  The
      budgets handed to the loops are shown to be sufficient
      ([Lexing.tokenize_total], [Parsing.parse_total]). *)

From Stdlib Require Import String Ascii NArith Arith Lia Bool DecimalString List.
From Stdlib Require DecimalNat.
Import ListNotations.

(* ================================================================== *)
(** ** JavaScript strings *)
(* ================================================================== *)

Module JS.

Definition char := N.
Definition jsstring := list char.

Definition ch (a : ascii) : char := N_of_ascii a.
Definition str (s : string) : jsstring := map ch (list_ascii_of_string s).

(** The default that [peek] substitutes for [undefined]: ["\0"]. *)
Definition NUL : char := 0%N.

Definition c_tab : char := 9%N.
Definition c_nl : char := 10%N.
Definition c_cr : char := 13%N.
Definition c_space : char := ch " ".
Definition c_dquote : char := 34%N.
Definition c_squote : char := ch "'".
Definition c_dash : char := ch "-".
Definition c_slash : char := ch "/".
Definition c_backslash : char := ch "\".
Definition c_underscore : char := ch "_".
Definition c_backtick : char := ch "`".
Definition c_lbrace : char := ch "{".
Definition c_pipe : char := ch "|".
Definition c_rbrace : char := ch "}".

Definition eqc (a b : char) : bool := N.eqb a b.

Fixpoint streq (a b : jsstring) : bool :=
  match a, b with
  | [], [] => true
  | x :: a', y :: b' => eqc x y && streq a' b'
  | _, _ => false
  end.

Definition inRange (lo hi c : char) : bool := (N.leb lo c) && (N.leb c hi).

(** The regular-expression class [\s], which is also the set of characters
    that [String.prototype.trim] removes (WhiteSpace and LineTerminator). *)
Definition isWhiteSpace (c : char) : bool :=
  (inRange 9 13 c || eqc c 32 || eqc c 160 || eqc c 5760 ||
   inRange 8192 8202 c || eqc c 8232 || eqc c 8233 || eqc c 8239 ||
   eqc c 8287 || eqc c 12288 || eqc c 65279)%N.

Fixpoint trimStart (s : jsstring) : jsstring :=
  match s with
  | c :: s' => if isWhiteSpace c then trimStart s' else s
  | [] => []
  end.

Definition trimEnd (s : jsstring) : jsstring := rev (trimStart (rev s)).

(** [s.trim()] *)
Definition trim (s : jsstring) : jsstring := trimEnd (trimStart s).

(** [text.split("\n")]: never the empty array. *)
Fixpoint split_nl (text : jsstring) : list jsstring :=
  match text with
  | [] => [[]]
  | c :: t =>
      if eqc c c_nl then [] :: split_nl t
      else match split_nl t with
           | l :: ls => (c :: l) :: ls
           | [] => [[c]]
           end
  end.

(** [lines.join("\n")] *)
Fixpoint join_nl (lines : list jsstring) : jsstring :=
  match lines with
  | [] => []
  | [l] => l
  | l :: ls => l ++ c_nl :: join_nl ls
  end.

(** Conversion of a number inside a template literal. *)
Definition decimal (n : nat) : jsstring :=
  str (NilEmpty.string_of_uint (Nat.to_uint n)).

End JS.
Import JS.

(* ================================================================== *)
(** ** ast.ts *)
(* ================================================================== *)

Module Ast.

Record Position := mkPosition { line : nat; column : nat; offset : nat }.

Record Location := mkLocation { start : Position; end_ : Position }.

Inductive Argument :=
| PositionalArg (value : jsstring) (loc : Location)
| FlagArg (name : jsstring) (short : bool) (value : option jsstring)
          (loc : Location).

Record Pipe := mkPipe
  { pipe_name : jsstring; pipe_args : list Argument; pipe_loc : Location }.

(** [Command | Content], the two kinds of children of a document or block. *)
Inductive Node :=
| Command (name : jsstring) (args : list Argument) (block : option Block)
          (pipes : option (list Pipe)) (loc : Location)
| Content (value : jsstring) (loc : Location)
with Block :=
| mkBlock (children : list Node) (loc : Location).

Record Document := mkDocument { children : list Node }.

End Ast.

(* ================================================================== *)
(** ** Outcomes of a call *)
(* ================================================================== *)

Inductive exn :=
| Error (message : jsstring)
    (* [new Error(...)], thrown by the tokenizer: a lexical error *)
| ParseError (message : jsstring) (loc : option Ast.Location)
    (* [new ParseError(...)], thrown by the parser *)
| TypeError
    (* a property of [undefined] was read *)
| RangeError.
    (* a call found the call stack of the engine full *)

Inductive result (A : Type) :=
| Ok (a : A)
| Throw (e : exn)
| OutOfFuel.

Arguments Ok {A} a.
Arguments Throw {A} e.
Arguments OutOfFuel {A}.

Definition bind {A B} (m : result A) (k : A -> result B) : result B :=
  match m with
  | Ok a => k a
  | Throw e => Throw e
  | OutOfFuel => OutOfFuel
  end.

Notation "x <- m ;; k" := (bind m (fun x => k))
  (at level 61, m at next level, right associativity).
Notation "' pat <- m ;; k" := (bind m (fun pat => k))
  (at level 61, pat pattern, m at next level, right associativity).

(* ================================================================== *)
(** ** tokenizer.ts *)
(* ================================================================== *)

Module Tokenizer.
Import Ast.

Inductive TokenType :=
| COMMAND | LBRACE | RBRACE | PIPE | LONG_FLAG | SHORT_FLAG
| STRING | VALUE | CONTENT | NEWLINE | EOF.

(** A [TokenType] is its own name: the type is a union of string literals. *)
Definition typeName (t : TokenType) : jsstring :=
  match t with
  | COMMAND => str "COMMAND" | LBRACE => str "LBRACE" | RBRACE => str "RBRACE"
  | PIPE => str "PIPE" | LONG_FLAG => str "LONG_FLAG"
  | SHORT_FLAG => str "SHORT_FLAG" | STRING => str "STRING"
  | VALUE => str "VALUE" | CONTENT => str "CONTENT"
  | NEWLINE => str "NEWLINE" | EOF => str "EOF"
  end.

Definition eqType (a b : TokenType) : bool :=
  match a, b with
  | COMMAND, COMMAND | LBRACE, LBRACE | RBRACE, RBRACE | PIPE, PIPE
  | LONG_FLAG, LONG_FLAG | SHORT_FLAG, SHORT_FLAG | STRING, STRING
  | VALUE, VALUE | CONTENT, CONTENT | NEWLINE, NEWLINE | EOF, EOF => true
  | _, _ => false
  end.

Record Token := mkToken { type : TokenType; value : jsstring; loc : Location }.

(** [RAW_BLOCK_COMMANDS]: commands whose block content is raw text. *)
Definition RAW_BLOCK_COMMANDS : list jsstring :=
  [str "code"; str "style"; str "list"].

(** [RAW_BLOCK_COMMANDS.has(name)] *)
Definition isRawBlockCommand (name : jsstring) : bool :=
  existsb (streq name) RAW_BLOCK_COMMANDS.

(** The fields of the [Tokenizer] class. *)
Record Scanner := mkScanner
  { source : jsstring;
    pos : nat;
    line : nat;
    column : nat;
    tokens : list Token;
    canStartCommand : bool;
    inCommandMode : bool;
    currentCommand : jsstring }.

(** The state set up by the constructor and the field initialisers. *)
Definition init (src : jsstring) : Scanner :=
  mkScanner src 0 1 1 [] true false [].

Definition set_line (n : nat) (s : Scanner) : Scanner :=
  mkScanner (source s) (pos s) n (column s) (tokens s)
            (canStartCommand s) (inCommandMode s) (currentCommand s).
Definition set_column (n : nat) (s : Scanner) : Scanner :=
  mkScanner (source s) (pos s) (line s) n (tokens s)
            (canStartCommand s) (inCommandMode s) (currentCommand s).
Definition set_tokens (ts : list Token) (s : Scanner) : Scanner :=
  mkScanner (source s) (pos s) (line s) (column s) ts
            (canStartCommand s) (inCommandMode s) (currentCommand s).
Definition set_canStartCommand (b : bool) (s : Scanner) : Scanner :=
  mkScanner (source s) (pos s) (line s) (column s) (tokens s)
            b (inCommandMode s) (currentCommand s).
Definition set_inCommandMode (b : bool) (s : Scanner) : Scanner :=
  mkScanner (source s) (pos s) (line s) (column s) (tokens s)
            (canStartCommand s) b (currentCommand s).
Definition set_currentCommand (name : jsstring) (s : Scanner) : Scanner :=
  mkScanner (source s) (pos s) (line s) (column s) (tokens s)
            (canStartCommand s) (inCommandMode s) name.

(** *** Helper methods *)

Definition isAtEnd (s : Scanner) : bool := length (source s) <=? pos s.

Definition peek (s : Scanner) : char := nth (pos s) (source s) NUL.

Definition peekNext (s : Scanner) : char := nth (pos s + 1) (source s) NUL.

(** [advance()]: the character under the cursor, and the cursor moved on.
    Every call in the class is made while the cursor is inside the source
    (after [!isAtEnd()] or after a test that [peek()] is a given character),
    so the [undefined] that JavaScript would return past the end is never
    observed; [NUL] stands for it here. *)
Definition advance (s : Scanner) : char * Scanner :=
  (nth (pos s) (source s) NUL,
   mkScanner (source s) (pos s + 1) (line s) (column s + 1) (tokens s)
             (canStartCommand s) (inCommandMode s) (currentCommand s)).

(** [this.line++; this.column = 1;] *)
Definition nextLine (s : Scanner) : Scanner :=
  set_column 1 (set_line (line s + 1) s).

Definition isLetter (c : char) : bool :=
  inRange (ch "a") (ch "z") c || inRange (ch "A") (ch "Z") c.

Definition isIdentifierChar (c : char) : bool :=
  inRange (ch "a") (ch "z") c || inRange (ch "A") (ch "Z") c ||
  inRange (ch "0") (ch "9") c || eqc c c_underscore || eqc c c_dash.

(** Values stop at whitespace, braces, pipes, newlines. *)
Definition isValueChar (c : char) : bool :=
  negb (isWhiteSpace c || eqc c c_lbrace || eqc c c_rbrace ||
        eqc c c_pipe || eqc c c_nl).

Definition currentPosition (s : Scanner) : Position :=
  mkPosition (line s) (column s) (pos s).

Definition currentLocation (s : Scanner) : Location :=
  mkLocation (currentPosition s) (currentPosition s).

Definition addToken (ty : TokenType) (v : jsstring) (start : Position)
    (s : Scanner) : Scanner :=
  set_tokens (tokens s ++ [mkToken ty v (mkLocation start (currentPosition s))])
             s.

(** [error(message, pos)]: the [Error] object that the caller throws. *)
Definition error (message : jsstring) (p : Position) : exn :=
  Error (message ++ str " at line " ++ decimal (Ast.line p) ++
         str ", column " ++ decimal (Ast.column p)).

(** Number of characters from the cursor to the end of the source: the
    budget of the character loops, each of which reads at least one
    character per iteration. *)
Definition remaining (s : Scanner) : nat := length (source s) - pos s.

(** The loop
    [while (!this.isAtEnd() && p(this.peek())) { acc += this.advance(); }]
    which the class repeats for names, values, inline code and the rest of
    a code-fence line. *)
Fixpoint advanceWhile (p : char -> bool) (fuel : nat) (s : Scanner)
    (acc : jsstring) : jsstring * Scanner :=
  match fuel with
  | 0 => (acc, s)
  | S fuel' =>
      if negb (isAtEnd s) && p (peek s) then
        let (c, s1) := advance s in
        advanceWhile p fuel' s1 (acc ++ [c])
      else (acc, s)
  end.

(** *** trimBlankLines *)

(** [while (lines.length > 0 && lines[0].trim() === "") lines.shift();] *)
Fixpoint shiftBlank (lines : list jsstring) : list jsstring :=
  match lines with
  | l :: ls =>
      match trim l with
      | [] => shiftBlank ls
      | _ :: _ => lines
      end
  | [] => []
  end.

(** The same loop on the last element, with [lines.pop()]. *)
Definition popBlank (lines : list jsstring) : list jsstring :=
  rev (shiftBlank (rev lines)).

Definition trimBlankLines (text : jsstring) : jsstring :=
  join_nl (popBlank (shiftBlank (split_nl text))).

(** *** scanCommand *)

Definition scanCommand (start : Position) (s : Scanner) : result Scanner :=
  let (_, s1) := advance s in
  let (name, s2) := advanceWhile isIdentifierChar (remaining s1) s1 [] in
  match name with
  | [] => Throw (error (str "Expected command name after /") start)
  | _ :: _ =>
      let s3 := addToken COMMAND name start s2 in
      Ok (set_currentCommand name
            (set_inCommandMode true (set_canStartCommand false s3)))
  end.

(** *** scanString *)

(** The [switch (escaped)] of [scanString]. *)
Definition unescape (escaped : char) : char :=
  if eqc escaped (ch "n") then c_nl
  else if eqc escaped (ch "t") then c_tab
  else if eqc escaped c_backslash then c_backslash
  else if eqc escaped c_dquote then c_dquote
  else if eqc escaped c_squote then c_squote
  else escaped.

Fixpoint scanString_loop (fuel : nat) (quote : char) (s : Scanner)
    (v : jsstring) : jsstring * Scanner :=
  match fuel with
  | 0 => (v, s)
  | S fuel' =>
      if negb (isAtEnd s) && negb (eqc (peek s) quote) then
        if eqc (peek s) c_backslash then
          let (_, s1) := advance s in
          if negb (isAtEnd s1) then
            let (escaped, s2) := advance s1 in
            scanString_loop fuel' quote s2 (v ++ [unescape escaped])
          else scanString_loop fuel' quote s1 v
        else if eqc (peek s) c_nl then
          let (c, s1) := advance s in
          scanString_loop fuel' quote (nextLine s1) (v ++ [c])
        else
          let (c, s1) := advance s in
          scanString_loop fuel' quote s1 (v ++ [c])
      else (v, s)
  end.

Definition scanString (start : Position) (s : Scanner) : result Scanner :=
  let (quote, s1) := advance s in
  let (v, s2) := scanString_loop (remaining s1) quote s1 [] in
  if isAtEnd s2 then Throw (error (str "Unterminated string") start)
  else
    let (_, s3) := advance s2 in
    Ok (addToken STRING v start s3).

(** *** scanCommandPart *)

Definition scanCommandPart (start : Position) (s : Scanner) : result Scanner :=
  let char := peek s in
  if eqc char c_pipe then
    let (_, s1) := advance s in
    Ok (addToken PIPE [c_pipe] start s1)
  else if eqc char c_dash && eqc (peekNext s) c_dash then
    let (_, s1) := advance s in
    let (_, s2) := advance s1 in
    let (name, s3) := advanceWhile isIdentifierChar (remaining s2) s2 [] in
    match name with
    | [] => Throw (error (str "Expected flag name after --") start)
    | _ :: _ => Ok (addToken LONG_FLAG name start s3)
    end
  else if eqc char c_dash && isLetter (peekNext s) then
    let (_, s1) := advance s in
    let (flag, s2) := advance s1 in
    Ok (addToken SHORT_FLAG [flag] start s2)
  else if eqc char c_dquote || eqc char c_squote then
    scanString start s
  else if eqc char c_lbrace then
    Ok (set_canStartCommand true (set_inCommandMode false s))
  else if isValueChar char then
    let (v, s1) := advanceWhile isValueChar (remaining s) s [] in
    Ok (addToken VALUE v start s1)
  else
    Throw (error (str "Unexpected character '" ++ [char] ++ str "' in command")
                 start).

(** *** scanRawBlock *)

Fixpoint scanRawBlock_loop (fuel : nat) (s : Scanner) (depth : nat)
    (content : jsstring) : jsstring * Scanner :=
  match fuel with
  | 0 => (content, s)
  | S fuel' =>
      if negb (isAtEnd s) && (0 <? depth) then
        let char := peek s in
        if eqc char c_lbrace then
          let (c, s1) := advance s in
          scanRawBlock_loop fuel' s1 (depth + 1) (content ++ [c])
        else if eqc char c_rbrace then
          if 0 <? depth - 1 then
            let (c, s1) := advance s in
            scanRawBlock_loop fuel' s1 (depth - 1) (content ++ [c])
          else scanRawBlock_loop fuel' s (depth - 1) content
        else if eqc char c_nl then
          let (c, s1) := advance s in
          scanRawBlock_loop fuel' (nextLine s1) depth (content ++ [c])
        else
          let (c, s1) := advance s in
          scanRawBlock_loop fuel' s1 depth (content ++ [c])
      else (content, s)
  end.

Definition scanRawBlock (start : Position) (s : Scanner) : Scanner :=
  let (_, s1) := advance s in
  let s2 := addToken LBRACE [c_lbrace] start s1 in
  let contentStart := currentPosition s2 in
  let (content, s3) := scanRawBlock_loop (S (remaining s2)) s2 1 [] in
  let trimmedContent := trimBlankLines content in
  let s4 := match trimmedContent with
            | [] => s3
            | _ :: _ => addToken CONTENT trimmedContent contentStart s3
            end in
  let s5 := if negb (isAtEnd s4) && eqc (peek s4) c_rbrace then
              let closeStart := currentPosition s4 in
              let (_, s') := advance s4 in
              addToken RBRACE [c_rbrace] closeStart s'
            else s4 in
  set_currentCommand []
    (set_inCommandMode false (set_canStartCommand true s5)).

(** *** scanContent *)

Definition matchCodeFence (s : Scanner) : bool :=
  match nth_error (source s) (pos s),
        nth_error (source s) (pos s + 1),
        nth_error (source s) (pos s + 2) with
  | Some a, Some b, Some c =>
      eqc a c_backtick && eqc b c_backtick && eqc c c_backtick
  | _, _, _ => false
  end.

Definition consumeCodeFence (s : Scanner) : jsstring * Scanner :=
  let (c1, s1) := advance s in
  let (c2, s2) := advance s1 in
  let (c3, s3) := advance s2 in
  advanceWhile (fun c => negb (eqc c c_nl)) (remaining s3) s3 [c1; c2; c3].

Fixpoint scanContent_loop (fuel : nat) (s : Scanner) (content : jsstring)
    (inCodeFence : bool) : jsstring * Scanner :=
  match fuel with
  | 0 => (content, s)
  | S fuel' =>
      if isAtEnd s then (content, s) else
      let char := peek s in
      if eqc char c_backtick && canStartCommand s && matchCodeFence s then
        let (fence, s1) := consumeCodeFence s in
        scanContent_loop fuel' (set_canStartCommand false s1)
                         (content ++ fence) (negb inCodeFence)
      else if inCodeFence then
        if eqc char c_nl then
          let (c, s1) := advance s in
          scanContent_loop fuel' (set_canStartCommand true (nextLine s1))
                           (content ++ [c]) inCodeFence
        else
          let (c, s1) := advance s in
          scanContent_loop fuel' (set_canStartCommand false s1)
                           (content ++ [c]) inCodeFence
      else if eqc char c_backtick then
        let (c, s1) := advance s in
        let (code, s2) :=
          advanceWhile (fun c => negb (eqc c c_backtick) && negb (eqc c c_nl))
                       (remaining s1) s1 (content ++ [c]) in
        let (code', s3) :=
          if eqc (peek s2) c_backtick then
            let (c', s') := advance s2 in (code ++ [c'], s')
          else (code, s2) in
        scanContent_loop fuel' (set_canStartCommand false s3) code' inCodeFence
      else if eqc char c_lbrace || eqc char c_rbrace then (content, s)
      else if eqc char c_slash && canStartCommand s then (content, s)
      else if eqc char c_nl then
        let (c, s1) := advance s in
        scanContent_loop fuel' (set_canStartCommand true (nextLine s1))
                         (content ++ [c]) inCodeFence
      else if (eqc char c_space || eqc char c_tab) && canStartCommand s then
        let (c, s1) := advance s in
        scanContent_loop fuel' s1 (content ++ [c]) inCodeFence
      else
        let (c, s1) := advance s in
        scanContent_loop fuel' (set_canStartCommand false s1)
                         (content ++ [c]) inCodeFence
  end.

Definition scanContent (start : Position) (s : Scanner) : Scanner :=
  let (content, s1) := scanContent_loop (remaining s) s [] false in
  match trim content with
  | [] => s1
  | _ :: _ => addToken CONTENT content start s1
  end.

(** *** scanToken and tokenize *)

Definition scanToken (s : Scanner) : result Scanner :=
  let start := currentPosition s in
  let char := peek s in
  if (eqc char c_space || eqc char c_tab || eqc char c_cr) &&
     (inCommandMode s || negb (canStartCommand s)) then
    Ok (snd (advance s))
  else if eqc char c_nl then
    Ok (set_inCommandMode false
          (set_canStartCommand true (nextLine (snd (advance s)))))
  else if eqc char c_lbrace then
    if isRawBlockCommand (currentCommand s) then Ok (scanRawBlock start s)
    else
      let s1 := addToken LBRACE [c_lbrace] start (snd (advance s)) in
      Ok (set_inCommandMode false (set_canStartCommand true s1))
  else if eqc char c_rbrace then
    let s1 := addToken RBRACE [c_rbrace] start (snd (advance s)) in
    Ok (set_inCommandMode false (set_canStartCommand true s1))
  else if eqc char c_slash && canStartCommand s then scanCommand start s
  else if inCommandMode s then scanCommandPart start s
  else Ok (scanContent start s).

(** [while (!this.isAtEnd()) { this.scanToken(); }] *)
Fixpoint tokenize_loop (fuel : nat) (s : Scanner) : result Scanner :=
  if isAtEnd s then Ok s
  else match fuel with
       | 0 => OutOfFuel
       | S fuel' => s1 <- scanToken s ;; tokenize_loop fuel' s1
       end.

(** The method [Tokenizer.tokenize], from a scanner state.  A call of
    [scanToken] either reads a character or leaves command mode, so twice
    the number of unread characters bounds the iterations. *)
Definition run (s : Scanner) : result (list Token) :=
  s1 <- tokenize_loop (2 * remaining s + 1) s ;;
  Ok (tokens s1 ++ [mkToken EOF [] (currentLocation s1)]).

(** The exported function [tokenize(source)]. *)
Definition tokenize (src : jsstring) : result (list Token) := run (init src).

End Tokenizer.

(* ================================================================== *)
(** ** parser.ts *)
(* ================================================================== *)

Module Parser.
Import Ast.
Import Tokenizer(TokenType(..), Token, mkToken, type, value, loc, eqType,
                 typeName).

(** The fields of the [Parser] class. *)
Record Parser := mkParser { tokens : list Token; pos : nat }.

(** [this.tokens[i]] for a JavaScript index, which may be [-1]. *)
Definition tokenAt (p : Parser) (i : nat) : option Token :=
  nth_error (tokens p) i.

(** Reading a property of a token that may be [undefined]. *)
Definition defined (t : option Token) : result Token :=
  match t with
  | Some t => Ok t
  | None => Throw TypeError
  end.

(** *** Helper methods *)

Definition peek (p : Parser) : option Token := tokenAt p (pos p).

Definition isAtEnd (p : Parser) : result bool :=
  t <- defined (peek p) ;; Ok (eqType (type t) EOF).

Definition check (ty : TokenType) (p : Parser) : result bool :=
  t <- defined (peek p) ;; Ok (eqType (type t) ty).

(** [check(t1) || check(t2) || ...]: the operands read the same token. *)
Fixpoint checkAny (tys : list TokenType) (p : Parser) : result bool :=
  match tys with
  | [] => Ok false
  | ty :: tys' => b <- check ty p ;; if b then Ok true else checkAny tys' p
  end.

Definition advance (p : Parser) : result (option Token * Parser) :=
  atEnd <- isAtEnd p ;;
  let p1 := if atEnd then p else mkParser (tokens p) (pos p + 1) in
  Ok (match pos p1 with
      | 0 => None
      | S i => tokenAt p1 i
      end, p1).

(** [error(message)]: the [ParseError] that the caller throws. *)
Definition error (message : jsstring) (p : Parser) : result exn :=
  token <- defined (peek p) ;;
  let l := loc token in
  Ok (ParseError (message ++ str " at line " ++ decimal (line (start l)) ++
                  str ", column " ++ decimal (column (start l)))
                 (Some l)).

Definition throwError {A} (message : jsstring) (p : Parser) : result A :=
  e <- error message p ;; Throw e.

Definition consume (ty : TokenType) (message : jsstring) (p : Parser)
    : result (option Token * Parser) :=
  b <- check ty p ;;
  if b then advance p
  else
    t <- defined (peek p) ;;
    throwError (message ++ str ", got " ++ typeName (type t)) p.

(** *** Arguments *)

Definition parseOptionalValue (p : Parser)
    : result (option jsstring * Parser) :=
  b <- checkAny [VALUE; STRING] p ;;
  if b then
    '(t, p1) <- advance p ;;
    t <- defined t ;;
    Ok (Some (value t), p1)
  else Ok (None, p).

Definition flagArg (short : bool) (p : Parser)
    : result (Argument * Parser) :=
  '(flag, p1) <- advance p ;;
  '(v, p2) <- parseOptionalValue p1 ;;
  flag <- defined flag ;;
  Ok (FlagArg (value flag) short v (loc flag), p2).

Definition positionalArg (p : Parser) : result (Argument * Parser) :=
  '(val, p1) <- advance p ;;
  val <- defined val ;;
  Ok (PositionalArg (value val) (loc val), p1).

Fixpoint parseArgs_loop (fuel : nat) (p : Parser) (args : list Argument)
    : result (list Argument * Parser) :=
  match fuel with
  | 0 => OutOfFuel
  | S fuel' =>
      atEnd <- isAtEnd p ;;
      if atEnd then Ok (args, p) else
      stop <- checkAny [LBRACE; PIPE; CONTENT; COMMAND; RBRACE] p ;;
      if stop then Ok (args, p) else
      long <- check LONG_FLAG p ;;
      if long then
        '(a, p1) <- flagArg false p ;;
        parseArgs_loop fuel' p1 (args ++ [a])
      else
      short <- check SHORT_FLAG p ;;
      if short then
        '(a, p1) <- flagArg true p ;;
        parseArgs_loop fuel' p1 (args ++ [a])
      else
      val <- checkAny [VALUE; STRING] p ;;
      if val then
        '(a, p1) <- positionalArg p ;;
        parseArgs_loop fuel' p1 (args ++ [a])
      else Ok (args, p)
  end.

Definition parseArgs (fuel : nat) (p : Parser)
    : result (list Argument * Parser) :=
  parseArgs_loop fuel p [].

(** *** Pipes *)

Fixpoint parsePipeArgs_loop (fuel : nat) (p : Parser) (args : list Argument)
    : result (list Argument * Parser) :=
  match fuel with
  | 0 => OutOfFuel
  | S fuel' =>
      atEnd <- isAtEnd p ;;
      if atEnd then Ok (args, p) else
      stop <- checkAny [PIPE; CONTENT; COMMAND; LBRACE; RBRACE] p ;;
      if stop then Ok (args, p) else
      val <- checkAny [VALUE; STRING] p ;;
      if val then
        '(a, p1) <- positionalArg p ;;
        parsePipeArgs_loop fuel' p1 (args ++ [a])
      else Ok (args, p)
  end.

Definition parsePipeArgs (fuel : nat) (p : Parser)
    : result (list Argument * Parser) :=
  parsePipeArgs_loop fuel p [].

Fixpoint parsePipes_loop (fuel : nat) (p : Parser) (pipes : list Pipe)
    : result (list Pipe * Parser) :=
  match fuel with
  | 0 => OutOfFuel
  | S fuel' =>
      more <- check PIPE p ;;
      if more then
        '(_, p1) <- advance p ;;
        '(nameToken, p2) <- consume VALUE (str "Expected pipe name after |") p1 ;;
        nameToken <- defined nameToken ;;
        '(args, p3) <- parsePipeArgs fuel' p2 ;;
        parsePipes_loop fuel' p3
          (pipes ++ [mkPipe (value nameToken) args (loc nameToken)])
      else Ok (pipes, p)
  end.

Definition parsePipes (fuel : nat) (p : Parser)
    : result (list Pipe * Parser) :=
  parsePipes_loop fuel p [].

(** *** Content, blocks and commands *)

Definition parseContent (p : Parser) : result (Node * Parser) :=
  '(token, p1) <- consume CONTENT (str "Expected content") p ;;
  token <- defined token ;;
  Ok (Content (value token) (loc token), p1).

(** [parseBlock] and [parseCommand] call back into [parseChildren]; the
    recursive method is received as [children], which [parseChildren_loop]
    ties to itself. *)
Definition parseBlock
    (children : Parser -> result (list Node * Parser)) (p : Parser)
    : result (Block * Parser) :=
  '(lbrace, p1) <- consume LBRACE (str "Expected {") p ;;
  '(cs, p2) <- children p1 ;;
  '(rbrace, p3) <- consume RBRACE (str "Expected }") p2 ;;
  lbrace <- defined lbrace ;;
  rbrace <- defined rbrace ;;
  Ok (mkBlock cs (mkLocation (start (loc lbrace)) (end_ (loc rbrace))), p3).

Definition parseCommand (fuel : nat)
    (children : Parser -> result (list Node * Parser)) (p : Parser)
    : result (Node * Parser) :=
  '(commandToken, p1) <- consume COMMAND (str "Expected command name") p ;;
  commandToken <- defined commandToken ;;
  '(args, p2) <- parseArgs fuel p1 ;;
  hasBlock <- check LBRACE p2 ;;
  '(block, p3) <-
     (if hasBlock then
        '(b, p') <- parseBlock children p2 ;; Ok (Some b, p')
      else Ok (None, p2)) ;;
  '(pipes, p4) <-
     (match block with
      | Some _ => Ok (None, p3)
      | None =>
          hasPipe <- check PIPE p3 ;;
          if hasPipe then
            '(ps, p') <- parsePipes fuel p3 ;; Ok (Some ps, p')
          else Ok (None, p3)
      end) ;;
  Ok (Command (value commandToken) args block pipes (loc commandToken), p4).

Fixpoint parseChildren_loop (fuel : nat) (p : Parser) (cs : list Node)
    : result (list Node * Parser) :=
  match fuel with
  | 0 => OutOfFuel
  | S fuel' =>
      atEnd <- isAtEnd p ;;
      if atEnd then Ok (cs, p) else
      closing <- check RBRACE p ;;
      if closing then Ok (cs, p) else
      isCommand <- check COMMAND p ;;
      if isCommand then
        '(c, p1) <- parseCommand fuel'
                      (fun q => parseChildren_loop fuel' q []) p ;;
        parseChildren_loop fuel' p1 (cs ++ [c])
      else
      isContent <- check CONTENT p ;;
      if isContent then
        '(c, p1) <- parseContent p ;;
        parseChildren_loop fuel' p1 (cs ++ [c])
      else
      opening <- check LBRACE p ;;
      if opening then throwError (str "Unexpected { without command") p
      else
        '(_, p1) <- advance p ;;
        parseChildren_loop fuel' p1 cs
  end.

Definition parseChildren (fuel : nat) (p : Parser)
    : result (list Node * Parser) :=
  parseChildren_loop fuel p [].

(** The method [Parser.parse], from a parser state.  Every iteration and
    every nested call reads a token first, so the number of unread tokens
    bounds the depth of the recursion. *)
Definition run (p : Parser) : result Document :=
  '(cs, _) <- parseChildren (length (tokens p) - pos p + 1) p ;;
  Ok (mkDocument cs).

(** The exported function [parse(source)]. *)
Definition parse (src : jsstring) : result Document :=
  ts <- Tokenizer.tokenize src ;;
  run (mkParser ts 0).

End Parser.

(* ================================================================== *)
(** ** Vocabulary of the statements *)
(* ================================================================== *)

Module Vocabulary.
Import Ast Tokenizer.

(** The characters of the source from the cursor on. *)
Definition unread (s : Scanner) : jsstring := skipn (pos s) (source s).

(** The cursor after [n] calls of [advance]. *)
Definition advanceBy (n : nat) (s : Scanner) : Scanner :=
  mkScanner (source s) (pos s + n) (line s) (column s + n) (tokens s)
            (canStartCommand s) (inCommandMode s) (currentCommand s).

(** [reads s s']: from [s] to [s'] the scanner has only moved forward in
    the same source, in the same mode. *)
Definition reads (s s' : Scanner) : Prop :=
  source s' = source s /\ pos s <= pos s' /\
  inCommandMode s' = inCommandMode s.

(** The bound on the calls of [scanToken] that are left: a call reads a
    character or leaves command mode. *)
Definition stepsLeft (s : Scanner) : nat :=
  2 * remaining s + (if inCommandMode s then 1 else 0).

(** The position reached from [p] by reading [text] with line tracking: a
    newline starts a line, any other character is one more column. *)
Definition stepPosition (p : Position) (c : char) : Position :=
  if eqc c c_nl then mkPosition (Ast.line p + 1) 1 (offset p + 1)
  else mkPosition (Ast.line p) (Ast.column p + 1) (offset p + 1).

Definition positionAfter (p : Position) (text : jsstring) : Position :=
  fold_left stepPosition text p.

(** The scanner with its cursor moved over [text] with line tracking. *)
Definition moveOver (text : jsstring) (s : Scanner) : Scanner :=
  let p := positionAfter (currentPosition s) text in
  mkScanner (source s) (offset p) (Ast.line p) (Ast.column p) (tokens s)
            (canStartCommand s) (inCommandMode s) (currentCommand s).

Fixpoint takeWhile (p : char -> bool) (l : jsstring) : jsstring :=
  match l with
  | c :: l' => if p c then c :: takeWhile p l' else []
  | [] => []
  end.

Fixpoint dropWhile (p : char -> bool) (l : jsstring) : jsstring :=
  match l with
  | c :: l' => if p c then dropWhile p l' else l
  | [] => []
  end.


(** The nesting depth of braces after [text], read from depth [d]; [None]
    when a right brace inside [text] closes the block entered at depth 1. *)
Fixpoint braceDepth (d : nat) (text : jsstring) : option nat :=
  match text with
  | [] => Some d
  | c :: t =>
      if eqc c c_lbrace then braceDepth (S d) t
      else if eqc c c_rbrace then
        match d with
        | S (S d') => braceDepth (S d') t
        | _ => None
        end
      else braceDepth d t
  end.

(** [body] is the whole text of a block: the right brace after it is the
    one that matches the opening brace. *)
Definition balanced (body : jsstring) : Prop := braceDepth 1 body = Some 1.

(** [body] ends inside the block: no right brace of [body] closes it. *)
Definition unclosed (body : jsstring) : Prop :=
  exists d, braceDepth 1 body = Some d.

(** A line that holds white space only. *)
Definition blank (l : jsstring) : bool := forallb isWhiteSpace l.

(** Where the first character of the source is. *)
Definition sourceStart : Position := mkPosition 1 1 0.

(** The tokens of a raw block whose left brace is at [start]: the brace, the
    trimmed body when something of it is left, and the right brace when the
    block is closed. *)
Definition rawBlockTokens (start : Position) (body : jsstring)
    (closed : bool) : list Token :=
  let opened := stepPosition start c_lbrace in
  let close := positionAfter opened body in
  [mkToken LBRACE [c_lbrace] (mkLocation start opened)] ++
  match trimBlankLines body with
  | [] => []
  | _ :: _ => [mkToken CONTENT (trimBlankLines body) (mkLocation opened close)]
  end ++
  (if closed
   then [mkToken RBRACE [c_rbrace]
                 (mkLocation close (stepPosition close c_rbrace))]
   else []).

Definition isNewline (c : char) : bool := eqc c c_nl.

(** The text has no brace. *)
Definition noBraces (text : jsstring) : bool :=
  forallb (fun c => negb (eqc c c_lbrace || eqc c c_rbrace)) text.

(** No slash of the text is where a command may start: none is the first
    character of its line after spaces and tabs.  [lineStart] tells whether
    the text begins at such a place. *)
Fixpoint noCommandSlash (lineStart : bool) (text : jsstring) : bool :=
  match text with
  | [] => true
  | c :: t =>
      if eqc c c_slash then negb lineStart && noCommandSlash false t
      else if eqc c c_nl then noCommandSlash true t
      else if eqc c c_space || eqc c c_tab then noCommandSlash lineStart t
      else noCommandSlash false t
  end.

(** The text of a raw block as the child of its block: one [Content] node,
    or none when the body is blank. *)
Definition rawBlockChildren (opened : Position) (body : jsstring)
    : list Node :=
  match trimBlankLines body with
  | [] => []
  | _ :: _ =>
      [Content (trimBlankLines body)
               (mkLocation opened (positionAfter opened body))]
  end.

(** Token [t] spans the character at offset [i] of the source. *)
Definition covers (t : Token) (i : nat) : Prop :=
  offset (start (loc t)) <= i < offset (end_ (loc t)).

(** The kind and the text of a token, without its location. *)
Definition shape (t : Token) : TokenType * jsstring := (type t, value t).

Definition shapes (r : result (list Token))
    : result (list (TokenType * jsstring)) :=
  ts <- r ;; Ok (map shape ts).

(** A location given by its six numbers. *)
Definition span (l1 c1 o1 l2 c2 o2 : nat) : Location :=
  mkLocation (mkPosition l1 c1 o1) (mkPosition l2 c2 o2).

(** The tokens from the parser's cursor on. *)
Definition ahead (p : Parser.Parser) : list Token :=
  skipn (Parser.pos p) (Parser.tokens p).

(** The parser with its cursor moved over [n] tokens. *)
Definition skipTokens (n : nat) (p : Parser.Parser) : Parser.Parser :=
  Parser.mkParser (Parser.tokens p) (Parser.pos p + n).

Definition isValueOrString (t : Token) : bool :=
  eqType (type t) VALUE || eqType (type t) STRING.

(** The positional argument made from a VALUE or STRING token. *)
Definition positionalOf (t : Token) : Argument :=
  PositionalArg (value t) (loc t).

(** One segment of a pipe chain in the token list: the PIPE token, the
    VALUE token of the name, and the VALUE and STRING tokens after it. *)
Record PipeSegment := mkSegment
  { seg_bar : Token; seg_name : Token; seg_args : list Token }.

Definition wellFormedSegment (g : PipeSegment) : Prop :=
  type (seg_bar g) = PIPE /\ type (seg_name g) = VALUE /\
  forallb isValueOrString (seg_args g) = true.

Definition segmentTokens (g : PipeSegment) : list Token :=
  seg_bar g :: seg_name g :: seg_args g.

Definition chainTokens (gs : list PipeSegment) : list Token :=
  concat (map segmentTokens gs).

(** The [Pipe] node that a segment stands for. *)
Definition pipeOf (g : PipeSegment) : Pipe :=
  mkPipe (value (seg_name g)) (map positionalOf (seg_args g))
         (loc (seg_name g)).

(** [occurs n cs]: node [n] is in the forest [cs], at any depth. *)
Inductive occurs (n : Node) : list Node -> Prop :=
| occurs_here (cs : list Node) : In n cs -> occurs n cs
| occurs_below (name : jsstring) (args : list Argument) (inner : list Node)
    (l : Location) (pipes : option (list Pipe)) (loc : Location)
    (cs : list Node) :
    In (Command name args (Some (mkBlock inner l)) pipes loc) cs ->
    occurs n inner -> occurs n cs.

(** No command of the tree has both a block and pipes. *)
Fixpoint exclusive (n : Node) : bool :=
  match n with
  | Content _ _ => true
  | Command _ _ None _ _ => true
  | Command _ _ (Some (mkBlock inner _)) pipes _ =>
      match pipes with
      | None => forallb exclusive inner
      | Some _ => false
      end
  end.

End Vocabulary.

(* ================================================================== *)
(** ** Sources and token lists of the examples *)
(* ================================================================== *)

Module Examples.
Import Ast Tokenizer Vocabulary.

(** A fenced code block of one line, [/x]: three backticks, a newline,
    [/x], a newline and three backticks. *)
Definition src_fenced : jsstring :=
  str "```" ++ [c_nl] ++ str "/x" ++ [c_nl] ++ str "```".

(** The source [/x -ab]. *)
Definition src_dash_ab : jsstring := str "/x -ab".


(** The source [/t --title], a quoted string that holds [say], a space
    and [hi] between two escaped double quotes, then [-b]. *)
Definition src_quoted_flag : jsstring :=
  str "/t --title " ++ [c_dquote] ++ str "say \" ++ [c_dquote] ++
  str "hi\" ++ [c_dquote; c_dquote] ++ str " -b".

(** The tokens of [--title], the quoted string [a b] and [x], with an
    end-of-file token. *)
Definition tokens_quoted_flag : list Token :=
  [mkToken LONG_FLAG (str "title") (span 1 1 0 1 8 7);
   mkToken STRING (str "a b") (span 1 9 8 1 14 13);
   mkToken VALUE (str "x") (span 1 15 14 1 16 15);
   mkToken EOF [] (span 1 16 15 1 16 15)].

(** The source [/columns { /text], a space and the quoted string [a]; the
    closing brace is missing. *)
Definition src_unbalanced : jsstring :=
  str "/columns { /text " ++ [c_dquote] ++ str "a" ++ [c_dquote].

(** The tokens of [| bold | color red], with an end-of-file token. *)
Definition tokens_chain : list Token :=
  [mkToken PIPE (str "|") (span 1 13 12 1 14 13);
   mkToken VALUE (str "bold") (span 1 15 14 1 19 18);
   mkToken PIPE (str "|") (span 1 20 19 1 21 20);
   mkToken VALUE (str "color") (span 1 22 21 1 27 26);
   mkToken VALUE (str "red") (span 1 28 27 1 31 30);
   mkToken EOF [] (span 1 31 30 1 31 30)].

(** The source [/columns { /text hello | bold }]. *)
Definition src_nested : jsstring := str "/columns { /text hello | bold }".

Definition node_nested : Node :=
  Command (str "columns") []
    (Some (mkBlock
             [Command (str "text")
                [PositionalArg (str "hello") (span 1 18 17 1 23 22)]
                None
                (Some [mkPipe (str "bold") [] (span 1 26 25 1 30 29)])
                (span 1 12 11 1 17 16)]
             (span 1 10 9 1 32 31)))
    None (span 1 1 0 1 9 8).

(** The source [/code {], then the lines [  /page A4] and [  x {y}], then
    the closing brace on a line of its own. *)
Definition src_code_block : jsstring :=
  str "/code {" ++ [c_nl] ++ str "  /page A4" ++ [c_nl] ++ str "  x {y}" ++
  [c_nl] ++ str "}".

End Examples.

(* ================================================================== *)
(** ** parser.ts on a bounded call stack

    [parseChildren], [parseCommand] and [parseBlock] call each other once
    for every block that is open, and the engine runs them on a call stack
    of bounded size.  [depth] is the number of nested blocks that the stack
    has room for when the parser is called; the call of [parseChildren] for
    one block more finds the stack full and throws the [RangeError] of the
    engine.  The loops of [parseArgs], [parsePipes] and [parsePipeArgs] and
    the loop of [parseChildren] over the children of one block do not
    nest calls. *)
(* ================================================================== *)

Module Stack.
Import Ast Parser.
Import Tokenizer(TokenType(..), Token, mkToken, type, value, loc, eqType,
                 typeName).

Fixpoint parseChildren_loop (fuel depth : nat) (p : Parser) (cs : list Node)
    {struct fuel} : result (list Node * Parser) :=
  match fuel with
  | 0 => OutOfFuel
  | S fuel' =>
      atEnd <- isAtEnd p ;;
      if atEnd then Ok (cs, p) else
      closing <- check RBRACE p ;;
      if closing then Ok (cs, p) else
      isCommand <- check COMMAND p ;;
      if isCommand then
        '(c, p1) <- parseCommand fuel'
                      (fun q =>
                         match depth with
                         | 0 => Throw RangeError
                         | S depth' => parseChildren_loop fuel' depth' q []
                         end) p ;;
        parseChildren_loop fuel' depth p1 (cs ++ [c])
      else
      isContent <- check CONTENT p ;;
      if isContent then
        '(c, p1) <- parseContent p ;;
        parseChildren_loop fuel' depth p1 (cs ++ [c])
      else
      opening <- check LBRACE p ;;
      if opening then throwError (str "Unexpected { without command") p
      else
        '(_, p1) <- advance p ;;
        parseChildren_loop fuel' depth p1 cs
  end.

Definition parseChildren (fuel depth : nat) (p : Parser)
    : result (list Node * Parser) :=
  parseChildren_loop fuel depth p [].

(** The method [Parser.parse], from a parser state. *)
Definition run (depth : nat) (p : Parser) : result Document :=
  '(cs, _) <- parseChildren (length (tokens p) - pos p + 1) depth p ;;
  Ok (mkDocument cs).

(** The exported function [parse(source)]; the tokenizer is a loop and
    does not nest calls. *)
Definition parse (depth : nat) (src : jsstring) : result Document :=
  ts <- Tokenizer.tokenize src ;;
  run depth (mkParser ts 0).

End Stack.

(* ================================================================== *)
(** ** backends/html/compiler.ts

    The methods of [HtmlCompiler] that prepare what a component receives:
    the record of its arguments and the text of its block.  The methods
    [parseArgs], [extractRawContent], [dedent] and [trimBlankLines] of
    [SvgCompiler] (backends/svg) have the same bodies. *)
(* ================================================================== *)

Module Compiler.
Import Ast.

(** The type guards of ast.ts. *)
Definition isCommand (n : Node) : bool :=
  match n with
  | Command _ _ _ _ _ => true
  | Content _ _ => false
  end.

Definition isContent (n : Node) : bool :=
  match n with
  | Content _ _ => true
  | Command _ _ _ _ _ => false
  end.

(** [parts.join(sep)] *)
Fixpoint join (sep : jsstring) (parts : list jsstring) : jsstring :=
  match parts with
  | [] => []
  | [p] => p
  | p :: ps => p ++ sep ++ join sep ps
  end.

(** *** dedent *)

(** The length of the group that [line.match] returns: the regular
    expression matches every line, and its group is the white space that
    the line starts with. *)
Definition indent (line : jsstring) : nat :=
  length (Vocabulary.takeWhile isWhiteSpace line).

(** The loop over the lines, from the value of [minIndent] before it;
    [None] is [Infinity].  A line that is white space only is skipped. *)
Fixpoint minIndent (lines : list jsstring) (acc : option nat) : option nat :=
  match lines with
  | [] => acc
  | line :: rest =>
      match trim line with
      | [] => minIndent rest acc
      | _ :: _ =>
          minIndent rest
            (Some (match acc with
                   | None => indent line
                   | Some m => Nat.min m (indent line)
                   end))
      end
  end.

Definition dedent (text : jsstring) : jsstring :=
  let lines := split_nl text in
  match minIndent lines None with
  | None => text
  | Some 0 => text
  | Some n => join_nl (map (skipn n) lines)
  end.

(** *** compileContent *)

Section Markdown.

(** The Markdown processor that [renderMarkdown] runs on a text. *)
Variable renderMarkdown : jsstring -> jsstring.

(** [compileContent], from the value of the content node: the empty string
    when nothing is left of the text, else the rendered text in a block of
    the class [poly-content]. *)
Definition compileContent (value : jsstring) : jsstring :=
  match trim (dedent value) with
  | [] => []
  | c :: t =>
      str "<div class=" ++ [c_dquote] ++ str "poly-content" ++ [c_dquote] ++
      str ">" ++ renderMarkdown (c :: t) ++ str "</div>"
  end.

End Markdown.

(** *** trimBlankLines and extractRawContent *)

(** The compiler has its own copy of the method of the tokenizer. *)
Definition trimBlankLines (text : jsstring) : jsstring :=
  join_nl (Tokenizer.popBlank (Tokenizer.shiftBlank (split_nl text))).

(** [c.value] of a node that [filter(isContent)] has let through. *)
Definition contentValue (n : Node) : jsstring :=
  match n with
  | Content v _ => v
  | Command _ _ _ _ _ => []
  end.

Definition extractRawContent (children : list Node) : jsstring :=
  let raw := join_nl (map contentValue (filter isContent children)) in
  dedent (trimBlankLines raw).

(** *** The record of arguments *)

(** A value of the record: [string | boolean]. *)
Inductive ArgValue :=
| VString (s : jsstring)
| VBool (b : bool).

(** [Record<string, string | boolean>], as the list of the properties of
    the record itself.  The code reads a record by property name only
    ([args[name]]), so the order of the properties is not observed. *)
Definition Args := list (jsstring * ArgValue).

(** The property [key] of the record itself; [None] when it has none.
    (For such a name JavaScript looks into [Object.prototype] and gives
    [undefined] when the name is not found there either.) *)
Fixpoint get (key : jsstring) (o : Args) : option ArgValue :=
  match o with
  | [] => None
  | (k, v) :: o' => if streq k key then Some v else get key o'
  end.

Fixpoint assign (key : jsstring) (v : ArgValue) (o : Args) : Args :=
  match o with
  | [] => [(key, v)]
  | (k, w) :: o' =>
      if streq k key then (k, v) :: o' else (k, w) :: assign key v o'
  end.

(** [result[key] = v] on a record made by an object literal: the property
    is created or replaced.  The name [__proto__] is an accessor of
    [Object.prototype], whose setter ignores a string or a boolean: the
    assignment leaves the record as it is. *)
Definition set (key : jsstring) (v : ArgValue) (o : Args) : Args :=
  if streq key (str "__proto__") then o else assign key v o.

(** The template literal of the key of a positional argument: an
    underscore and the index. *)
Definition positionalKey (index : nat) : jsstring :=
  c_underscore :: decimal index.

(** [arg.value ?? true] *)
Definition flagValue (value : option jsstring) : ArgValue :=
  match value with
  | Some v => VString v
  | None => VBool true
  end.

(** The loop of [parseArgs], from the record and the index before it. *)
Fixpoint parseArgs_loop (args : list Argument) (result : Args)
    (positionalIndex : nat) : Args :=
  match args with
  | [] => result
  | PositionalArg v _ :: rest =>
      parseArgs_loop rest (set (positionalKey positionalIndex) (VString v)
                               result)
                     (positionalIndex + 1)
  | FlagArg name _ v _ :: rest =>
      parseArgs_loop rest (set name (flagValue v) result) positionalIndex
  end.

Definition parseArgs (args : list Argument) : Args :=
  parseArgs_loop args [] 0.

(** *** The pipes of a command

    The statements of [compileCommand] between the lookup of the component
    and the making of the context: the record of the arguments, to which
    every pipe adds a property of its name. *)

(** The value of a positional argument, the empty string for a flag. *)
Definition pipeArgText (a : Argument) : jsstring :=
  match a with
  | PositionalArg v _ => v
  | FlagArg _ _ _ _ => []
  end.

Definition pipeValue (p : Pipe) : ArgValue :=
  match pipe_args p with
  | [] => VBool true
  | _ :: _ => VString (join (str " ") (map pipeArgText (pipe_args p)))
  end.

Definition applyPipes (pipes : option (list Pipe)) (args : Args) : Args :=
  match pipes with
  | None => args
  | Some ps =>
      fold_left (fun a p => set (pipe_name p) (pipeValue p) a) ps args
  end.

(** The [args] of the context that the component of a command receives. *)
Definition contextArgs (args : list Argument) (pipes : option (list Pipe))
    : Args :=
  applyPipes pipes (parseArgs args).

End Compiler.

(* ================================================================== *)
(** ** Vocabulary of the stream invariants *)
(* ================================================================== *)

Module Streams.
Import Ast Tokenizer Vocabulary.

(** The cursor is at a place of the source, or right after its last
    character, and the line and the column are counted from 1. *)
Definition inside (s : Scanner) : Prop :=
  pos s <= length (source s) /\ 1 <= line s /\ 1 <= column s.

(** A position that an editor can show: line and column from 1. *)
Definition oneBased (p : Position) : Prop :=
  1 <= Ast.line p /\ 1 <= Ast.column p.

(** [chain lo ts hi]: the tokens [ts] lie between the offsets [lo] and
    [hi] in the order of the list; none ends before it starts and none
    starts before the one before it has ended. *)
Fixpoint chain (lo : nat) (ts : list Token) (hi : nat) : Prop :=
  match ts with
  | [] => lo <= hi
  | t :: ts' =>
      lo <= offset (start (loc t)) /\
      offset (start (loc t)) <= offset (end_ (loc t)) /\
      chain (offset (end_ (loc t))) ts' hi
  end.

Definition nonEmpty (v : jsstring) : bool :=
  match v with
  | [] => false
  | _ :: _ => true
  end.

(** What the text of a token of each kind looks like. *)
Definition textOk (t : Token) : bool :=
  match type t with
  | COMMAND | LONG_FLAG =>
      nonEmpty (value t) && forallb isIdentifierChar (value t)
  | SHORT_FLAG =>
      match value t with
      | [c] => isLetter c
      | _ => false
      end
  | VALUE => nonEmpty (value t) && forallb isValueChar (value t)
  | CONTENT => negb (blank (value t))
  | STRING => true
  | LBRACE => streq (value t) [c_lbrace]
  | RBRACE => streq (value t) [c_rbrace]
  | PIPE => streq (value t) [c_pipe]
  | NEWLINE | EOF => false
  end.

(** A token as the scanner emits it: text of its kind, and a location that
    an editor can show. *)
Definition emitted (t : Token) : Prop :=
  textOk t = true /\ oneBased (start (loc t)) /\ oneBased (end_ (loc t)).

(** The line, the column and the offset of the character at offset [i] of
    a source: a newline ends its line, and every other character is one
    column. *)
Definition positionAt (src : jsstring) (i : nat) : Position :=
  positionAfter sourceStart (firstn i src).

(** No backslash of the source has a newline right after it. *)
Fixpoint noEscapedNewline (src : jsstring) : bool :=
  match src with
  | c :: rest =>
      negb (eqc c c_backslash && eqc (hd NUL rest) c_nl) &&
      noEscapedNewline rest
  | [] => true
  end.

(** The text that stands for [v] between two [quote] characters: a
    backslash is put before every [quote] and every backslash. *)
Definition quoteText (quote : char) (v : jsstring) : jsstring :=
  flat_map (fun c => if eqc c quote || eqc c c_backslash
                     then [c_backslash; c] else [c]) v.

(** A character of the code between two backticks: not a backtick and
    not a newline. *)
Definition isCodeChar (c : char) : bool :=
  negb (eqc c c_backtick) && negb (eqc c c_nl).

(** The character starts a flag when the one after it is [next]. *)
Definition startsFlag (c next : char) : bool :=
  eqc c c_dash && (eqc next c_dash || isLetter next).

(** The messages of the lexical errors, before the position is added.  The
    character of the last one is white space other than a space, a tab, a
    carriage return or a newline. *)
Definition lexicalMessage (what : jsstring) : Prop :=
  what = str "Expected command name after /" \/
  what = str "Expected flag name after --" \/
  what = str "Unterminated string" \/
  exists c : char,
    isWhiteSpace c = true /\
    eqc c c_space || eqc c c_tab || eqc c c_cr || eqc c c_nl = false /\
    what = str "Unexpected character '" ++ [c] ++ str "' in command".

(** The last token of the list is an end-of-file token. *)
Definition endsWithEOF (ts : list Token) : Prop :=
  exists body eof, ts = body ++ [eof] /\ type eof = EOF.

(** The [ParseError] that [Parser.error] builds for [what] when the token
    under the cursor is [t]. *)
Definition parseErrorAt (what : jsstring) (t : Token) : exn :=
  ParseError
    (what ++ str " at line " ++ decimal (Ast.line (start (loc t))) ++
     str ", column " ++ decimal (Ast.column (start (loc t))))
    (Some (loc t)).

(** The messages of the syntax errors, before the position is added, with
    the token that each is reported at. *)
Definition syntaxMessage (what : jsstring) (t : Token) : Prop :=
  (what = str "Unexpected { without command" /\ type t = LBRACE) \/
  (what = str "Expected }, got EOF" /\ type t = EOF) \/
  (what = str "Expected pipe name after |, got " ++ typeName (type t) /\
   type t <> VALUE).

(** The deepest level of braces that [ts] comes to when it is read from
    [level]: a left brace opens a block and a right brace closes one. *)
Fixpoint deepest (level : nat) (ts : list Token) : nat :=
  match ts with
  | [] => level
  | t :: rest =>
      match type t with
      | LBRACE => deepest (S level) rest
      | RBRACE => Nat.max level (deepest (pred level) rest)
      | _ => deepest level rest
      end
  end.

(** How deep the blocks of a token list nest. *)
Definition nesting (ts : list Token) : nat := deepest 0 ts.

(** The tokens of [n] commands [/a], each with a block that holds the
    next one and is left open, and the end of the file. *)
Fixpoint openBlocks (n : nat) (l : Location) : list Token :=
  match n with
  | 0 => [mkToken EOF [] l]
  | S n' => mkToken COMMAND (str "a") l :: mkToken LBRACE (str "{") l ::
            openBlocks n' l
  end.

End Streams.
(* ================================================================== *)
(** ** Vocabulary of the compiler statements *)
(* ================================================================== *)

Module Records.
Import Ast Compiler Vocabulary.

(** The values of the positional arguments, in the order of the list. *)
Fixpoint positionals (args : list Argument) : list jsstring :=
  match args with
  | [] => []
  | PositionalArg v _ :: rest => v :: positionals rest
  | FlagArg _ _ _ _ :: rest => positionals rest
  end.

(** A flag of the list has the name [name]. *)
Fixpoint hasFlagNamed (name : jsstring) (args : list Argument) : bool :=
  match args with
  | [] => false
  | PositionalArg _ _ :: rest => hasFlagNamed name rest
  | FlagArg n _ _ _ :: rest => streq n name || hasFlagNamed name rest
  end.

(** A pipe of the list has the name [name]. *)
Definition hasPipeNamed (name : jsstring) (pipes : list Pipe) : bool :=
  existsb (fun p => streq (pipe_name p) name) pipes.

(** The name is not the key of a positional argument. *)
Definition notPositional (name : jsstring) : Prop :=
  forall i : nat, name <> positionalKey i.

(** Every content node of the tree, at any depth, has a text that
    satisfies [ok]. *)
Fixpoint contentsOk (ok : jsstring -> bool) (n : Node) : bool :=
  match n with
  | Content v _ => ok v
  | Command _ _ None _ _ => true
  | Command _ _ (Some (mkBlock inner _)) _ _ => forallb (contentsOk ok) inner
  end.

(** The indentation that the non-blank lines of a text have in common: the
    least number of white-space characters that one of them starts with;
    0 when every line is blank. *)
Definition commonIndent (text : jsstring) : nat :=
  match minIndent (split_nl text) None with
  | None => 0
  | Some n => n
  end.

End Records.

(* ================================================================== *)
(** ** Invariants of the scanner and of the parser *)
(* ================================================================== *)

Module Invariants.
Import Ast Tokenizer Vocabulary Streams.


(** [steady s s']: from [s] to [s'] characters were read and no token was
    emitted; the cursor is still inside the source when it was. *)
Definition steady (s s' : Scanner) : Prop :=
  tokens s' = tokens s /\ source s' = source s /\ pos s <= pos s' /\
  (inside s -> inside s').

(** [emits s s' new]: from [s] to [s'] the tokens [new] were added to the
    list, in the order of the source and between the two cursors. *)
Definition emits (s s' : Scanner) (new : list Token) : Prop :=
  tokens s' = tokens s ++ new /\ source s' = source s /\
  chain (pos s) new (pos s') /\ Forall emitted new /\ inside s'.

(** A line has no newline. *)
Definition oneLine (l : jsstring) : bool :=
  forallb (fun c => negb (eqc c c_nl)) l.

(** [tracked s]: the line and the column of the scanner are those of its
    offset in the source. *)
Definition tracked (s : Scanner) : Prop :=
  currentPosition s = positionAt (source s) (pos s).

(** The two positions of a token are those of their offsets in [src]. *)
Definition placed (src : jsstring) (t : Token) : Prop :=
  start (loc t) = positionAt src (offset (start (loc t))) /\
  end_ (loc t) = positionAt src (offset (end_ (loc t))).

(** [walks s s' new]: from [s] to [s'] the tokens [new] were added, each
    with the line and the column of its two offsets, and the scanner still
    has the line and the column of its cursor. *)
Definition walks (s s' : Scanner) (new : list Token) : Prop :=
  tokens s' = tokens s ++ new /\ source s' = source s /\
  Forall (placed (source s)) new /\ tracked s'.

End Invariants.

Module ParserInvariants.
Import Ast Vocabulary Streams Parser.
Import Tokenizer(TokenType(..), Token, mkToken, type, value, loc, eqType,
                 typeName).

(** [guarded ts p]: the parser reads [ts], which ends with an end-of-file
    token, and its cursor is on a token. *)
Definition guarded (ts : list Token) (p : Parser) : Prop :=
  tokens p = ts /\
  exists body eof, ts = body ++ [eof] /\ type eof = EOF /\ pos p <= length body.

(** The cursor is on a token at which [parseChildren] returns. *)
Definition stopped (p : Parser) : Prop :=
  exists t, peek p = Some t /\ (type t = EOF \/ type t = RBRACE).

(** [outcome ts P m]: the call [m] has returned a value that satisfies
    [P], or thrown one of the syntax errors at a token of [ts], or is
    still running. *)
Definition outcome {A : Type} (ts : list Token) (P : A -> Prop)
    (m : result A) : Prop :=
  match m with
  | Ok a => P a
  | Throw e =>
      exists what t,
        In t ts /\ syntaxMessage what t /\ e = parseErrorAt what t
  | OutOfFuel => True
  end.

(** The parser with its cursor on the next token. *)
Definition next (p : Parser) : Parser := mkParser (tokens p) (pos p + 1).

(** [settles p p']: from [p] to [p'] the parser has read whole blocks
    only, so that the braces still to read nest no deeper than before,
    whatever the level they are read from. *)
Definition settles (p p' : Parser) : Prop :=
  tokens p' = tokens p /\
  forall level,
    deepest level (skipn (pos p') (tokens p)) <=
    deepest level (skipn (pos p) (tokens p)).

End ParserInvariants.

(* ================================================================== *)
(** ** Sources and token lists of further examples *)
(* ================================================================== *)

Module Samples.
Import Ast Tokenizer Vocabulary.

(** The source [/page A4]. *)
Definition src_page : jsstring := str "/page A4".

Definition tokens_page : list Token :=
  [mkToken COMMAND (str "page") (span 1 1 0 1 6 5);
   mkToken VALUE (str "A4") (span 1 7 6 1 9 8);
   mkToken EOF [] (span 1 9 8 1 9 8)].

(** The source [/a { x }]. *)
Definition src_block : jsstring := str "/a { x }".

Definition tokens_block : list Token :=
  [mkToken COMMAND (str "a") (span 1 1 0 1 3 2);
   mkToken LBRACE (str "{") (span 1 4 3 1 5 4);
   mkToken CONTENT (str " x ") (span 1 5 4 1 8 7);
   mkToken RBRACE (str "}") (span 1 8 7 1 9 8);
   mkToken EOF [] (span 1 9 8 1 9 8)].

Definition doc_block : Document :=
  mkDocument
    [Command (str "a") []
       (Some (mkBlock [Content (str " x ") (span 1 5 4 1 8 7)]
                      (span 1 4 3 1 9 8)))
       None (span 1 1 0 1 3 2)].

(** The source [/t -b --k v | p], a newline and [hi]. *)
Definition src_flags : jsstring := str "/t -b --k v | p" ++ [c_nl] ++ str "hi".

Definition tokens_flags : list Token :=
  [mkToken COMMAND (str "t") (span 1 1 0 1 3 2);
   mkToken SHORT_FLAG (str "b") (span 1 4 3 1 6 5);
   mkToken LONG_FLAG (str "k") (span 1 7 6 1 10 9);
   mkToken VALUE (str "v") (span 1 11 10 1 12 11);
   mkToken PIPE (str "|") (span 1 13 12 1 14 13);
   mkToken VALUE (str "p") (span 1 15 14 1 16 15);
   mkToken CONTENT (str "hi") (span 2 1 16 2 3 18);
   mkToken EOF [] (span 2 3 18 2 3 18)].

(** The source [a], a newline and [/b]. *)
Definition src_two_lines : jsstring := str "a" ++ [c_nl] ++ str "/b".

Definition tokens_two_lines : list Token :=
  [mkToken CONTENT (str "a" ++ [c_nl]) (span 1 1 0 2 1 2);
   mkToken COMMAND (str "b") (span 2 1 2 2 3 4);
   mkToken EOF [] (span 2 3 4 2 3 4)].

End Samples.

(* ================================================================== *)
(** ** Tactics *)
(* ================================================================== *)

(** Comparisons of known characters are evaluated. *)
Ltac chars :=
  repeat match goal with
  | |- context [eqc ?a ?b] =>
      let v := eval vm_compute in (eqc a b) in
      match v with
      | true => change (eqc a b) with true
      | false => change (eqc a b) with false
      end
  end; cbn [andb orb negb].

(** Splits a hypothesis [x <- m ;; k = Ok b] into its two runs. *)
Ltac unbind H :=
  match type of H with
  | bind ?m _ = Ok _ =>
      let E := fresh "E" in
      destruct m as [[? ?]| |] eqn:E || destruct m as [?| |] eqn:E;
      cbn [bind] in H; [|discriminate H|discriminate H]
  end.

(** Runs a successful monadic computation backwards, as far as it goes. *)
Ltac munch :=
  repeat match goal with
  | H : bind _ _ = Ok _ |- _ => unbind H
  | H : Ok _ = Ok _ |- _ => inversion H; subst; clear H
  | H : Throw _ = Ok _ |- _ => discriminate H
  | H : OutOfFuel = Ok _ |- _ => discriminate H
  | H : (if ?a then _ else _) = Ok _ |- _ => destruct a
  | H : match ?o with Some _ => _ | None => _ end = Ok _ |- _ => destruct o
  end.

(* ================================================================== *)
(** ** The tokenizer *)
(* ================================================================== *)

Module Lexing.
Import Ast Tokenizer Vocabulary Examples.

#[local] Arguments isAtEnd : simpl never.
#[local] Arguments peek : simpl never.
#[local] Arguments peekNext : simpl never.
#[local] Arguments advance : simpl never.
#[local] Arguments remaining : simpl never.
#[local] Arguments unread : simpl never.
#[local] Arguments advanceBy : simpl never.
#[local] Arguments moveOver : simpl never.

(** *** The cursor *)


Lemma unread_cons {s : Scanner} {c : char} {l : jsstring} :
  unread s = c :: l ->
  pos s < length (source s) /\ nth (pos s) (source s) NUL = c /\
  skipn (pos s + 1) (source s) = l.
Proof.
  unfold unread. generalize (pos s) as n. generalize (source s) as src.
  induction src as [|x src IH]; intros n H.
  - destruct n; discriminate.
  - destruct n as [|n]; simpl in *.
    + injection H as -> ->. repeat split; lia.
    + destruct (IH n H) as (H1 & H2 & H3). repeat split; auto; lia.
Qed.

Lemma unread_nil (s : Scanner) :
  unread s = [] -> isAtEnd s = true.
Proof.
  unfold unread, isAtEnd. intros H. apply Nat.leb_le.
  rewrite <- (firstn_skipn (pos s) (source s)) at 1.
  rewrite H, app_nil_r, length_firstn. lia.
Qed.

Lemma remaining_unread (s : Scanner) : remaining s = length (unread s).
Proof. unfold remaining, unread. now rewrite length_skipn. Qed.

Lemma isAtEnd_cons {s : Scanner} {c l} : unread s = c :: l -> isAtEnd s = false.
Proof.
  intros H. apply unread_cons in H. unfold isAtEnd.
  apply Nat.leb_gt. tauto.
Qed.

Lemma peek_cons {s : Scanner} {c l} : unread s = c :: l -> peek s = c.
Proof. intros H. apply unread_cons in H. unfold peek. tauto. Qed.

Lemma advance_cons {s : Scanner} {c l} :
  unread s = c :: l -> advance s = (c, advanceBy 1 s).
Proof.
  intros H. apply unread_cons in H. unfold advance, advanceBy.
  destruct H as (_ & -> & _). reflexivity.
Qed.

Lemma unread_advanceBy (n : nat) (s : Scanner) :
  unread (advanceBy n s) = skipn n (unread s).
Proof.
  unfold unread, advanceBy; cbn. now rewrite skipn_skipn, Nat.add_comm.
Qed.

Lemma peekNext_cons {s : Scanner} {c l} :
  unread s = c :: l -> peekNext s = hd NUL l.
Proof.
  intros H. apply unread_cons in H. destruct H as (_ & _ & H).
  unfold peekNext. revert H. generalize (pos s + 1) as n.
  generalize (source s) as src. induction src as [|x src IH]; intros n H.
  - rewrite skipn_nil in H. subst. now destruct n.
  - destruct n; simpl in *; [now subst | auto].
Qed.

Lemma isAtEnd_unread (s : Scanner) : isAtEnd s = true -> unread s = [].
Proof.
  unfold isAtEnd, unread. intros H%Nat.leb_le. now apply skipn_all2.
Qed.


Lemma advanceBy_0 (s : Scanner) : advanceBy 0 s = s.
Proof.
  destruct s. unfold advanceBy. cbn. now rewrite !Nat.add_0_r.
Qed.

Lemma advanceBy_add (n m : nat) (s : Scanner) :
  advanceBy n (advanceBy m s) = advanceBy (m + n) s.
Proof. unfold advanceBy. cbn. now rewrite !Nat.add_assoc. Qed.

Lemma advanceWhile_spec (p : char -> bool) (l : jsstring) :
  forall (fuel : nat) (s : Scanner) (acc : jsstring),
    unread s = l -> length l <= fuel ->
    advanceWhile p fuel s acc =
      (acc ++ takeWhile p l, advanceBy (length (takeWhile p l)) s).
Proof.
  induction l as [|c l IH]; intros fuel s acc H F.
  - cbn [takeWhile length]. rewrite app_nil_r, advanceBy_0.
    destruct fuel; cbn [advanceWhile]; [reflexivity|].
    now rewrite (unread_nil _ H).
  - destruct fuel as [|fuel]; [simpl in F; lia|]. cbn [advanceWhile takeWhile].
    rewrite (isAtEnd_cons H), (peek_cons H). cbn [negb andb].
    destruct (p c); [|now rewrite app_nil_r, advanceBy_0].
    rewrite (advance_cons H).
    rewrite (IH fuel (advanceBy 1 s) (acc ++ [c]));
      [|rewrite unread_advanceBy, H; reflexivity | simpl in F; lia].
    rewrite <- app_assoc, advanceBy_add. reflexivity.
Qed.

Lemma eqc_refl (c : char) : eqc c c = true.
Proof. apply N.eqb_refl. Qed.


Lemma eqc_eq {a b : char} : eqc a b = true -> a = b.
Proof. apply N.eqb_eq. Qed.

(** *** Short flags *)

Lemma isLetter_not_dash {c : char} : isLetter c = true -> eqc c c_dash = false.
Proof.
  intros H. unfold eqc. destruct (N.eqb_spec c c_dash) as [E|]; auto.
  rewrite E in H. discriminate H.
Qed.

Lemma scanCommandPart_short_flag (start : Position) (s : Scanner) (c : char)
    (rest : jsstring) :
  unread s = c_dash :: c :: rest ->
  isLetter c = true ->
  scanCommandPart start s = Ok (addToken SHORT_FLAG [c] start (advanceBy 2 s)).
Proof.
  intros H L. unfold scanCommandPart.
  rewrite (peek_cons H), (peekNext_cons H). simpl hd.
  rewrite (isLetter_not_dash L), L. chars.
  rewrite (advance_cons H).
  assert (H1 : unread (advanceBy 1 s) = c :: rest)
    by (rewrite unread_advanceBy, H; reflexivity).
  rewrite (advance_cons H1). unfold advanceBy; simpl.
  now rewrite <- !Nat.add_assoc.
Qed.

Lemma isLetter_bounds (c : char) :
  isLetter c = true -> (65 <= c <= 122)%N.
Proof.
  unfold isLetter, inRange. intros H. apply orb_prop in H.
  destruct H as [H|H]; apply andb_prop in H; destruct H as [H1 H2];
    apply N.leb_le in H1, H2; cbn in H1, H2; lia.
Qed.

Lemma isLetter_plain (c : char) :
  isLetter c = true ->
  isValueChar c = true /\ eqc c c_dash = false /\ eqc c c_pipe = false /\
  eqc c c_slash = false /\ eqc c c_dquote = false /\ eqc c c_squote = false.
Proof.
  intros H. apply isLetter_bounds in H.
  unfold isValueChar, isWhiteSpace, inRange, eqc.
  repeat match goal with
         | |- context [N.eqb c ?k] =>
             let k' := eval vm_compute in k in
             replace (N.eqb c k) with false
               by (symmetry; apply N.eqb_neq; change k with k'; lia)
         | |- context [N.leb c ?k] =>
             let k' := eval vm_compute in k in
             first [ replace (N.leb c k) with false
                       by (symmetry; apply N.leb_gt; change k with k'; lia)
                   | replace (N.leb c k) with true
                       by (symmetry; apply N.leb_le; change k with k'; lia) ]
         | |- context [N.leb ?k c] =>
             let k' := eval vm_compute in k in
             first [ replace (N.leb k c) with false
                       by (symmetry; apply N.leb_gt; change k with k'; lia)
                   | replace (N.leb k c) with true
                       by (symmetry; apply N.leb_le; change k with k'; lia) ]
         end.
  cbn. repeat split.
Qed.

(** C4, as the code has it: in command mode a dash followed by a letter is
    a SHORT_FLAG token whose value is that letter, whatever comes after the
    letter; the characters after the letter stay unread for the next token,
    and no lexical error is raised.  When a second letter follows, as in
    [-ab], the next token is the VALUE that starts with it. *)
Theorem short_flag_any_follower (s : Scanner) (c : char) (rest : jsstring) :
  inCommandMode s = true ->
  unread s = c_dash :: c :: rest ->
  isLetter c = true ->
  let s' := addToken SHORT_FLAG [c] (currentPosition s) (advanceBy 2 s) in
  scanToken s = Ok s' /\
  unread s' = rest /\
  (forall (d : char) (rest' : jsstring),
     rest = d :: rest' -> isLetter d = true ->
     scanToken s' =
       Ok (addToken VALUE (d :: takeWhile isValueChar rest')
             (currentPosition s')
             (advanceBy (1 + length (takeWhile isValueChar rest')) s'))).
Proof.
  intros M H L s'.
  assert (U : unread s' = rest).
  { change (unread (advanceBy 2 s) = rest). rewrite unread_advanceBy, H.
    reflexivity. }
  split; [|split; [exact U|]].
  - unfold scanToken. rewrite (peek_cons H), M. chars.
    now apply scanCommandPart_short_flag with (rest := rest).
  - intros d rest' -> D.
    destruct (isLetter_plain d D) as (V & E1 & E2 & E3 & E4 & E5).
    pose proof (isLetter_bounds d D) as B.
    assert (W : forall k, (k < 65 \/ 122 < k)%N -> eqc d k = false).
    { intros k K. unfold eqc. apply N.eqb_neq. lia. }
    assert (W1 : eqc d c_space = false) by (apply W; vm_compute; auto).
    assert (W2 : eqc d c_tab = false) by (apply W; vm_compute; auto).
    assert (W3 : eqc d c_cr = false) by (apply W; vm_compute; auto).
    assert (W4 : eqc d c_nl = false) by (apply W; vm_compute; auto).
    assert (W5 : eqc d c_lbrace = false) by (apply W; vm_compute; auto).
    assert (W6 : eqc d c_rbrace = false) by (apply W; vm_compute; auto).
    unfold scanToken. rewrite (peek_cons U).
    change (inCommandMode s') with (inCommandMode s).
    rewrite M, E3, W1, W2, W3, W4, W5, W6. cbn [orb andb].
    unfold scanCommandPart. rewrite (peek_cons U), E1, E2, E4, E5, V, W5.
    cbn [orb andb].
    rewrite (advanceWhile_spec isValueChar (d :: rest'));
      [|exact U | rewrite remaining_unread, U; auto].
    cbn [takeWhile]. rewrite V. reflexivity.
Qed.

Lemma short_flag_any_follower_witness :
  scanToken (advanceBy 3 (set_inCommandMode true (init src_dash_ab))) =
    Ok (addToken SHORT_FLAG (str "a") (mkPosition 1 4 3)
          (advanceBy 5 (set_inCommandMode true (init src_dash_ab)))).
Proof.
  exact (proj1 (short_flag_any_follower
                  (advanceBy 3 (set_inCommandMode true (init src_dash_ab)))
                  (ch "a") [ch "b"] eq_refl eq_refl eq_refl)).
Defined.

(** C4 as stated fails: [-ab] is matched by the short-flag rule and raises
    no error; the tokens are SHORT_FLAG [a] and VALUE [b]. *)
Lemma dash_ab_is_no_error :
  shapes (tokenize src_dash_ab) =
    Ok [(COMMAND, str "x"); (SHORT_FLAG, str "a"); (VALUE, str "b");
        (EOF, [])].
Proof. vm_compute. reflexivity. Qed.


(** *** Strings *)





(** *** trim *)

Lemma trimStart_nil (s : jsstring) :
  trimStart s = [] <-> forallb isWhiteSpace s = true.
Proof.
  induction s as [|c s IH]; simpl; [tauto|].
  destruct (isWhiteSpace c); simpl; [exact IH|]. split; discriminate.
Qed.

Lemma trimStart_all (s : jsstring) :
  forallb isWhiteSpace (trimStart s) = true -> forallb isWhiteSpace s = true.
Proof.
  induction s as [|c s IH]; simpl; auto.
  destruct (isWhiteSpace c) eqn:E; simpl; auto. now rewrite E.
Qed.

Lemma trim_nil (s : jsstring) :
  trim s = [] <-> forallb isWhiteSpace s = true.
Proof.
  unfold trim, trimEnd. split.
  - intros H. apply trimStart_all.
    apply (f_equal (@rev char)) in H. rewrite rev_involutive in H.
    simpl in H. apply trimStart_nil in H.
    rewrite forallb_forall in *. intros x Hx. apply H. now apply in_rev in Hx.
  - intros H. apply trimStart_nil in H. now rewrite H.
Qed.

(** *** The content loop only reads characters *)

Lemma advanceWhile_frame (p : char -> bool) :
  forall (fuel : nat) (s : Scanner) (acc : jsstring),
    exists more,
      fst (advanceWhile p fuel s acc) = acc ++ more /\
      tokens (snd (advanceWhile p fuel s acc)) = tokens s.
Proof.
  induction fuel as [|fuel IH]; intros s acc; cbn [advanceWhile].
  - exists []. now rewrite app_nil_r.
  - destruct (negb (isAtEnd s) && p (peek s)).
    + destruct (IH (snd (advance s)) (acc ++ [fst (advance s)]))
        as (more & E1 & E2).
      exists (fst (advance s) :: more).
      destruct (advance s) as [c s1] eqn:A. cbn [fst snd] in *.
      rewrite E1, E2, <- app_assoc.
      split; [reflexivity|]. now inversion A.
    + exists []. now rewrite app_nil_r.
Qed.

Lemma scanContent_loop_frame :
  forall (fuel : nat) (s : Scanner) (acc : jsstring) (fence : bool),
    exists more,
      fst (scanContent_loop fuel s acc fence) = acc ++ more /\
      tokens (snd (scanContent_loop fuel s acc fence)) = tokens s.
Proof.
  induction fuel as [|fuel IH]; intros s acc fence; cbn [scanContent_loop].
  - exists []. now rewrite app_nil_r.
  - assert (stay : exists more, fst (acc, s) = acc ++ more /\
                                tokens (snd (acc, s)) = tokens s)
      by (exists []; now rewrite app_nil_r).
    assert (one : forall (f : Scanner -> Scanner) fence',
              (forall x, tokens (f x) = tokens x) ->
              exists more,
                fst (let (c, s1) := advance s in
                     scanContent_loop fuel (f s1) (acc ++ [c]) fence')
                  = acc ++ more /\
                tokens (snd (let (c, s1) := advance s in
                     scanContent_loop fuel (f s1) (acc ++ [c]) fence'))
                  = tokens s).
    { intros f fence' Hf. unfold advance.
      destruct (IH (f (snd (advance s))) (acc ++ [peek s]) fence')
        as (more & E1 & E2).
      exists (peek s :: more). unfold advance, peek in *. cbn [snd] in *.
      rewrite E1, E2, <- app_assoc, Hf. split; reflexivity. }
    destruct (isAtEnd s); [exact stay|].
    destruct (eqc (peek s) c_backtick && canStartCommand s && matchCodeFence s).
    { unfold consumeCodeFence, advance.
      match goal with
      | |- context [advanceWhile ?p ?n ?x ?a] =>
          destruct (advanceWhile_frame p n x a) as (m1 & A1 & A2);
          destruct (advanceWhile p n x a) as [fence' s1]
      end.
      cbn [fst snd] in A1, A2.
      destruct (IH (set_canStartCommand false s1) (acc ++ fence') (negb fence))
        as (m2 & E1 & E2).
      exists (fence' ++ m2). rewrite E1, E2, <- app_assoc.
      split; [reflexivity|]. exact A2. }
    destruct fence.
    { destruct (eqc (peek s) c_nl);
        [apply (one (fun x => set_canStartCommand true (nextLine x)))
        |apply (one (fun x => set_canStartCommand false x))]; reflexivity. }
    destruct (eqc (peek s) c_backtick).
    { unfold advance.
      match goal with
      | |- context [advanceWhile ?p ?n ?x ?a] =>
          destruct (advanceWhile_frame p n x a) as (m1 & A1 & A2);
          destruct (advanceWhile p n x a) as [code s2]
      end.
      cbn [fst snd] in A1, A2. subst code.
      destruct (eqc (peek s2) c_backtick).
      - destruct (IH (set_canStartCommand false (snd (advance s2)))
                    (((acc ++ [peek s]) ++ m1) ++ [fst (advance s2)]) false)
          as (m2 & E1 & E2).
        exists ((peek s :: m1) ++ fst (advance s2) :: m2). split.
        + etransitivity; [exact E1|]. rewrite <- !app_assoc. reflexivity.
        + exact (eq_trans E2 A2).
      - destruct (IH (set_canStartCommand false s2) ((acc ++ [peek s]) ++ m1)
                    false) as (m2 & E1 & E2).
        exists ((peek s :: m1) ++ m2). split.
        + etransitivity; [exact E1|]. rewrite <- !app_assoc. reflexivity.
        + exact (eq_trans E2 A2). }
    destruct (eqc (peek s) c_lbrace || eqc (peek s) c_rbrace); [exact stay|].
    destruct (eqc (peek s) c_slash && canStartCommand s); [exact stay|].
    destruct (eqc (peek s) c_nl);
      [apply (one (fun x => set_canStartCommand true (nextLine x)));
       reflexivity|].
    destruct ((eqc (peek s) c_space || eqc (peek s) c_tab) && canStartCommand s);
      [apply (one (fun x => x))
      |apply (one (fun x => set_canStartCommand false x))]; reflexivity.
Qed.


(** *** The slash *)

Lemma scanCommand_spec (start : Position) (s : Scanner) (rest : jsstring) :
  unread s = c_slash :: rest ->
  scanCommand start s =
    match takeWhile isIdentifierChar rest with
    | [] => Throw (error (str "Expected command name after /") start)
    | name =>
        Ok (set_currentCommand name
              (set_inCommandMode true
                 (set_canStartCommand false
                    (addToken COMMAND name start
                       (advanceBy (1 + length name) s)))))
    end.
Proof.
  intros H. unfold scanCommand. rewrite (advance_cons H).
  assert (E : unread (advanceBy 1 s) = rest)
    by (rewrite unread_advanceBy, H; reflexivity).
  rewrite (advanceWhile_spec isIdentifierChar rest); auto;
    [|rewrite remaining_unread, E; auto].
  cbn [app]. rewrite advanceBy_add.
  destruct (takeWhile isIdentifierChar rest); reflexivity.
Qed.

Lemma scanContent_slash (start : Position) (s : Scanner) (rest : jsstring) :
  unread s = c_slash :: rest ->
  canStartCommand s = false ->
  exists content s',
    scanContent start s = addToken CONTENT (c_slash :: content) start s' /\
    tokens s' = tokens s.
Proof.
  intros H C. unfold scanContent. rewrite remaining_unread, H.
  cbn [length scanContent_loop].
  rewrite (isAtEnd_cons H), (peek_cons H), C, (advance_cons H). chars.
  destruct (scanContent_loop_frame (length rest)
              (set_canStartCommand false (advanceBy 1 s)) ([] ++ [c_slash])
              false) as (more & E1 & E2).
  destruct (scanContent_loop (length rest)
              (set_canStartCommand false (advanceBy 1 s)) ([] ++ [c_slash])
              false) as [content s1].
  cbn [fst snd app] in E1, E2. subst content.
  exists more, s1. split; [|exact E2].
  destruct (trim (c_slash :: more)) eqn:T; [|reflexivity].
  apply trim_nil in T. discriminate T.
Qed.


(** C1, as the code has it.  With a slash under the cursor, [scanToken]
    scans a command exactly when [canStartCommand] is set: it then emits a
    COMMAND token named by the identifier characters after the slash (or
    throws, when there is none).  When the flag is not set, no COMMAND token
    is produced: in command mode the slash begins a VALUE token, otherwise
    it is the first character of a CONTENT token.  The content loop stops
    before a slash when the flag is set, reads it as text when the flag is
    not set, and reads it as text in any case inside a code fence.  The
    flag is set at the start of the source and after a newline, a left brace
    or a right brace; spaces and tabs at the start of a line keep it, and a
    slash inside a quoted string is text.  The two examples of the
    specification hold. *)
Theorem slash_starts_command_iff_permitted :
  (forall (s : Scanner) (rest : jsstring),
     unread s = c_slash :: rest ->
     (canStartCommand s = true ->
      scanToken s =
        match takeWhile isIdentifierChar rest with
        | [] => Throw (error (str "Expected command name after /")
                             (currentPosition s))
        | name =>
            Ok (set_currentCommand name
                  (set_inCommandMode true
                     (set_canStartCommand false
                        (addToken COMMAND name (currentPosition s)
                           (advanceBy (1 + length name) s)))))
        end) /\
     (canStartCommand s = false -> inCommandMode s = true ->
      scanToken s =
        Ok (addToken VALUE (c_slash :: takeWhile isValueChar rest)
              (currentPosition s)
              (advanceBy (1 + length (takeWhile isValueChar rest)) s))) /\
     (canStartCommand s = false -> inCommandMode s = false ->
      exists content s',
        scanToken s =
          Ok (addToken CONTENT (c_slash :: content) (currentPosition s) s') /\
        tokens s' = tokens s)) /\
  (forall (fuel : nat) (s : Scanner) (acc rest : jsstring),
     unread s = c_slash :: rest ->
     scanContent_loop (S fuel) s acc false =
       (if canStartCommand s then (acc, s)
        else scanContent_loop fuel (set_canStartCommand false (advanceBy 1 s))
                              (acc ++ [c_slash]) false) /\
     scanContent_loop (S fuel) s acc true =
       scanContent_loop fuel (set_canStartCommand false (advanceBy 1 s))
                        (acc ++ [c_slash]) true) /\
  (forall (fuel : nat) (s : Scanner) (acc rest : jsstring) (c : char),
     unread s = c :: rest ->
     c = c_space \/ c = c_tab ->
     canStartCommand s = true ->
     scanContent_loop (S fuel) s acc false =
       scanContent_loop fuel (advanceBy 1 s) (acc ++ [c]) false) /\
  (forall src : jsstring, canStartCommand (init src) = true) /\
  (forall (s : Scanner) (c : char) (rest : jsstring),
     unread s = c :: rest ->
     c = c_nl \/ c = c_lbrace \/ c = c_rbrace ->
     exists s', scanToken s = Ok s' /\ canStartCommand s' = true) /\
  shapes (tokenize (str "Visit https://example.com")) =
    Ok [(CONTENT, str "Visit https://example.com"); (EOF, [])] /\
  shapes (tokenize (str "/page A4")) =
    Ok [(COMMAND, str "page"); (VALUE, str "A4"); (EOF, [])] /\
  shapes (tokenize (str "a" ++ [c_nl] ++ str "  /b")) =
    Ok [(CONTENT, str "a" ++ [c_nl] ++ str "  "); (COMMAND, str "b");
        (EOF, [])] /\
  shapes (tokenize (str "/t 'a" ++ [c_nl] ++ str "/b'")) =
    Ok [(COMMAND, str "t"); (STRING, str "a" ++ [c_nl] ++ str "/b");
        (EOF, [])].
Proof.
  split; [|split; [|split; [|split; [|split]]]].
  - intros s rest H. split; [|split].
    + intros C. unfold scanToken. rewrite (peek_cons H), C. chars.
      now apply scanCommand_spec.
    + intros C M. unfold scanToken. rewrite (peek_cons H), C, M. chars.
      unfold scanCommandPart. rewrite (peek_cons H). chars.
      change (isValueChar c_slash) with true. cbv iota.
      rewrite (advanceWhile_spec isValueChar (c_slash :: rest));
        [|exact H | rewrite remaining_unread, H; auto].
      cbn [takeWhile]. change (isValueChar c_slash) with true. reflexivity.
    + intros C M. unfold scanToken. rewrite (peek_cons H), C, M. chars.
      destruct (scanContent_slash (currentPosition s) s rest H C)
        as (content & s' & E1 & E2).
      exists content, s'. now rewrite E1.
  - intros fuel s acc rest H. cbn [scanContent_loop].
    rewrite (isAtEnd_cons H), (peek_cons H), (advance_cons H). chars.
    split; [|reflexivity]. destruct (canStartCommand s); reflexivity.
  - intros fuel s acc rest c H B C. cbn [scanContent_loop].
    rewrite (isAtEnd_cons H), (peek_cons H), (advance_cons H), C.
    destruct B as [->| ->]; chars; reflexivity.
  - reflexivity.
  - intros s c rest H C. unfold scanToken. rewrite (peek_cons H).
    destruct C as [->|[->| ->]]; chars.
    + eexists; split; reflexivity.
    + destruct (isRawBlockCommand (currentCommand s));
        eexists; (split; [reflexivity|]); [|reflexivity].
      unfold scanRawBlock.
      repeat match goal with
             | |- context [let (_, _) := ?x in _] => destruct x
             end.
      reflexivity.
    + eexists; split; reflexivity.
  - repeat split; vm_compute; reflexivity.
Qed.

Lemma slash_starts_command_iff_permitted_witness :
  scanToken (init (str "/page A4")) =
    Ok (set_currentCommand (str "page")
          (set_inCommandMode true
             (set_canStartCommand false
                (addToken COMMAND (str "page") (mkPosition 1 1 0)
                   (advanceBy 5 (init (str "/page A4"))))))).
Proof.
  refine (proj1 (proj1 slash_starts_command_iff_permitted
                   (init (str "/page A4")) (str "page A4") _) _);
    reflexivity.
Defined.

(** C1 as stated fails inside a code fence: the slash of [/x] below is the
    first character of its line, outside any quoted string or raw block,
    and yet the whole source is one CONTENT token. *)
Lemma slash_in_code_fence_is_content :
  nth_error src_fenced 3 = Some c_nl /\
  nth_error src_fenced 4 = Some c_slash /\
  shapes (tokenize src_fenced) = Ok [(CONTENT, src_fenced); (EOF, [])].
Proof. repeat split; vm_compute; reflexivity. Qed.

(** A slash on a command line is not content either: in [/img a/b] the
    second slash lies in a VALUE token, and there is no CONTENT token. *)
Lemma slash_in_value_is_not_content :
  exists (ts : list Token) (t : Token),
    tokenize (str "/img a/b") = Ok ts /\
    nth_error (str "/img a/b") 6 = Some c_slash /\
    In t ts /\ covers t 6 /\ type t = VALUE /\
    Forall (fun t' => type t' <> CONTENT) ts.
Proof.
  eexists. eexists. split; [vm_compute; reflexivity|].
  split; [reflexivity|]. split; [right; left; reflexivity|].
  split; [unfold covers; simpl; lia|]. split; [reflexivity|].
  repeat constructor; discriminate.
Qed.

(** *** Moving over text *)

Lemma moveOver_nil (s : Scanner) : moveOver [] s = s.
Proof. now destruct s. Qed.

Lemma moveOver_cons (c : char) (text : jsstring) (s : Scanner) :
  moveOver (c :: text) s =
    moveOver text (if eqc c c_nl then nextLine (advanceBy 1 s)
                   else advanceBy 1 s).
Proof.
  unfold moveOver, positionAfter. cbn [fold_left].
  unfold stepPosition. destruct (eqc c c_nl); reflexivity.
Qed.

Lemma offset_positionAfter (text : jsstring) (p : Position) :
  offset (positionAfter p text) = offset p + length text.
Proof.
  revert p. induction text as [|c text IH]; intros p; cbn; [lia|].
  unfold positionAfter in IH. rewrite IH. unfold stepPosition.
  destruct (eqc c c_nl); cbn; lia.
Qed.

Lemma unread_moveOver (text : jsstring) (s : Scanner) :
  unread (moveOver text s) = skipn (length text) (unread s).
Proof.
  unfold unread, moveOver. cbn [pos source].
  rewrite offset_positionAfter. cbn [offset currentPosition].
  now rewrite skipn_skipn, Nat.add_comm.
Qed.

Lemma unread_moveOver_app (body rest : jsstring) (s : Scanner) :
  unread s = body ++ rest -> unread (moveOver body s) = rest.
Proof.
  intros H. rewrite unread_moveOver, H, skipn_app, skipn_all, Nat.sub_diag.
  reflexivity.
Qed.


(** *** The raw-block loop *)

Lemma scanRawBlock_loop_spec (body : jsstring) :
  forall (fuel : nat) (s : Scanner) (d d' : nat) (acc rest : jsstring),
    1 <= d ->
    braceDepth d body = Some d' ->
    unread s = body ++ rest ->
    length body <= fuel ->
    scanRawBlock_loop fuel s d acc =
      scanRawBlock_loop (fuel - length body) (moveOver body s) d'
                        (acc ++ body).
Proof.
  induction body as [|c body IH]; intros fuel s d d' acc rest D B H F.
  - cbn in B. injection B as <-.
    now rewrite moveOver_nil, app_nil_r, Nat.sub_0_r.
  - destruct fuel as [|fuel]; [simpl in F; lia|].
    cbn [scanRawBlock_loop length Nat.sub].
    rewrite (isAtEnd_cons H), (peek_cons H), (advance_cons H).
    assert (E : unread (advanceBy 1 s) = body ++ rest)
      by (rewrite unread_advanceBy, H; reflexivity).
    assert (F' : length body <= fuel) by (simpl in F; lia).
    assert (P : (0 <? d) = true) by (apply Nat.ltb_lt; lia).
    rewrite P, moveOver_cons.
    replace (acc ++ c :: body) with ((acc ++ [c]) ++ body)
      by (now rewrite <- app_assoc).
    cbn [negb andb]. cbn [braceDepth] in B.
    destruct (eqc c c_lbrace) eqn:E1.
    { apply eqc_eq in E1. subst c. chars. rewrite Nat.add_1_r.
      apply IH with (rest := rest); auto. }
    destruct (eqc c c_rbrace) eqn:E2.
    { apply eqc_eq in E2. subst c. chars.
      destruct d as [|[|d]]; try discriminate B.
      change (0 <? S (S d) - 1) with true. cbv iota.
      replace (S (S d) - 1) with (S d) by lia.
      apply IH with (rest := rest); auto; lia. }
    destruct (eqc c c_nl); apply IH with (rest := rest); auto.
Qed.

Lemma scanRawBlock_loop_closed (body tail : jsstring) (s : Scanner)
    (fuel : nat) :
  balanced body ->
  unread s = body ++ c_rbrace :: tail ->
  length body + 2 <= fuel ->
  scanRawBlock_loop fuel s 1 [] = (body, moveOver body s).
Proof.
  intros B H F.
  rewrite (scanRawBlock_loop_spec body fuel s 1 1 [] (c_rbrace :: tail));
    auto; [|lia].
  pose proof (unread_moveOver_app _ _ _ H) as E.
  destruct (fuel - length body) as [|[|f]] eqn:K; try lia.
  cbn [scanRawBlock_loop app].
  rewrite (isAtEnd_cons E), (peek_cons E). chars.
  reflexivity.
Qed.

Lemma scanRawBlock_loop_unclosed (body : jsstring) (s : Scanner)
    (fuel : nat) :
  unclosed body ->
  unread s = body ->
  length body <= fuel ->
  scanRawBlock_loop fuel s 1 [] = (body, moveOver body s).
Proof.
  intros [d B] H F.
  rewrite (scanRawBlock_loop_spec body fuel s 1 d [] []);
    auto; [|now rewrite app_nil_r].
  assert (E : unread (moveOver body s) = [])
    by (apply unread_moveOver_app; now rewrite app_nil_r).
  destruct (fuel - length body); cbn [scanRawBlock_loop app];
    [reflexivity|]. now rewrite (unread_nil _ E).
Qed.


Lemma unread_addToken ty v start (s : Scanner) :
  unread (addToken ty v start s) = unread s.
Proof. reflexivity. Qed.

Lemma scanRawBlock_closed (start : Position) (s : Scanner)
    (body tail : jsstring) :
  unread s = c_lbrace :: body ++ c_rbrace :: tail ->
  balanced body ->
  scanRawBlock start s =
    let s2 := addToken LBRACE [c_lbrace] start (advanceBy 1 s) in
    let s3 := moveOver body s2 in
    let s4 := match trimBlankLines body with
              | [] => s3
              | _ :: _ => addToken CONTENT (trimBlankLines body)
                                   (currentPosition s2) s3
              end in
    set_currentCommand []
      (set_inCommandMode false
         (set_canStartCommand true
            (addToken RBRACE [c_rbrace] (currentPosition s4)
                      (advanceBy 1 s4)))).
Proof.
  intros H B. unfold scanRawBlock. rewrite (advance_cons H).
  set (s2 := addToken LBRACE [c_lbrace] start (advanceBy 1 s)).
  assert (E2 : unread s2 = body ++ c_rbrace :: tail)
    by (unfold s2; rewrite unread_addToken, unread_advanceBy, H; reflexivity).
  rewrite (scanRawBlock_loop_closed body tail s2); auto;
    [|rewrite remaining_unread, E2, length_app; simpl; lia].
  pose proof (unread_moveOver_app _ _ _ E2) as E3.
  cbv zeta.
  set (s4 := match trimBlankLines body with
             | [] => moveOver body s2
             | _ :: _ => addToken CONTENT (trimBlankLines body)
                                  (currentPosition s2) (moveOver body s2)
             end).
  assert (E4 : unread s4 = c_rbrace :: tail)
    by (unfold s4; destruct (trimBlankLines body); exact E3).
  rewrite (isAtEnd_cons E4), (peek_cons E4), (advance_cons E4). chars.
  reflexivity.
Qed.

Lemma scanRawBlock_unclosed (start : Position) (s : Scanner)
    (body : jsstring) :
  unread s = c_lbrace :: body ->
  unclosed body ->
  scanRawBlock start s =
    let s2 := addToken LBRACE [c_lbrace] start (advanceBy 1 s) in
    let s3 := moveOver body s2 in
    let s4 := match trimBlankLines body with
              | [] => s3
              | _ :: _ => addToken CONTENT (trimBlankLines body)
                                   (currentPosition s2) s3
              end in
    set_currentCommand []
      (set_inCommandMode false (set_canStartCommand true s4)).
Proof.
  intros H B. unfold scanRawBlock. rewrite (advance_cons H).
  set (s2 := addToken LBRACE [c_lbrace] start (advanceBy 1 s)).
  assert (E2 : unread s2 = body)
    by (unfold s2; rewrite unread_addToken, unread_advanceBy, H; reflexivity).
  rewrite (scanRawBlock_loop_unclosed body s2); auto;
    [|rewrite remaining_unread, E2; lia].
  assert (E3 : unread (moveOver body s2) = [])
    by (apply unread_moveOver_app; now rewrite app_nil_r).
  cbv zeta.
  set (s4 := match trimBlankLines body with
             | [] => moveOver body s2
             | _ :: _ => addToken CONTENT (trimBlankLines body)
                                  (currentPosition s2) (moveOver body s2)
             end).
  assert (E4 : unread s4 = [])
    by (unfold s4; destruct (trimBlankLines body); exact E3).
  rewrite (unread_nil _ E4). reflexivity.
Qed.

(** *** trimBlankLines *)

Lemma join_split (text : jsstring) : join_nl (split_nl text) = text.
Proof.
  induction text as [|c text IH]; [reflexivity|]. cbn [split_nl].
  destruct (eqc c c_nl) eqn:E.
  - apply eqc_eq in E. subst c. cbn [join_nl].
    destruct (split_nl text) eqn:S; [now destruct text|].
    cbn [app]. now rewrite IH.
  - destruct (split_nl text) as [|l ls] eqn:S; [now destruct text|].
    cbn [join_nl] in *. destruct ls; cbn [app]; now rewrite <- IH.
Qed.

Lemma trim_blank (l : jsstring) : trim l = [] <-> blank l = true.
Proof. apply trim_nil. Qed.

Lemma shiftBlank_spec (lines : list jsstring) :
  exists pre,
    lines = pre ++ shiftBlank lines /\ forallb blank pre = true /\
    match shiftBlank lines with
    | l :: _ => blank l = false
    | [] => True
    end.
Proof.
  induction lines as [|l lines (pre & E & P & N)]; [now exists []|].
  cbn [shiftBlank]. destruct (trim l) eqn:T.
  - exists (l :: pre). cbn [app forallb]. rewrite <- E, P.
    apply trim_blank in T. rewrite T. repeat split; auto.
  - exists []. repeat split. destruct (blank l) eqn:K; auto.
    apply trim_blank in K. congruence.
Qed.

(** What [trimBlankLines] removes and what it keeps: the lines of the text
    are blank lines [pre], the lines [kept] and blank lines [post]; the
    result is [kept], line by line as in the text; [kept] neither starts
    nor ends with a blank line. *)
Lemma trimBlankLines_spec (text : jsstring) :
  exists pre kept post,
    split_nl text = pre ++ kept ++ post /\
    forallb blank pre = true /\ forallb blank post = true /\
    trimBlankLines text = join_nl kept /\
    match kept with
    | l :: _ => blank l = false /\ blank (last kept []) = false
    | [] => True
    end.
Proof.
  unfold trimBlankLines, popBlank.
  destruct (shiftBlank_spec (split_nl text)) as (pre & E1 & P1 & N1).
  destruct (shiftBlank_spec (rev (shiftBlank (split_nl text))))
    as (post & E2 & P2 & N2).
  set (mid := shiftBlank (split_nl text)) in *.
  set (kept := rev (shiftBlank (rev mid))) in *.
  assert (E3 : mid = kept ++ rev post).
  { rewrite <- (rev_involutive mid), E2, rev_app_distr. reflexivity. }
  exists pre, kept, (rev post). repeat split; auto.
  - now rewrite <- E3.
  - rewrite forallb_forall in *. intros x Hx. apply P2. now apply in_rev.
  - destruct kept as [|l kept'] eqn:K; [exact I|]. split.
    + rewrite E3 in N1. exact N1.
    + unfold kept in K.
      destruct (shiftBlank (rev mid)) as [|x xs]; [discriminate K|].
      cbn [rev] in K. rewrite <- K, last_last. exact N2.
Qed.

(** *** The main loop *)

Lemma tokenize_loop_step (fuel : nat) (s s1 : Scanner) :
  isAtEnd s = false -> scanToken s = Ok s1 ->
  tokenize_loop (S fuel) s = tokenize_loop fuel s1.
Proof. intros A T. cbn [tokenize_loop]. now rewrite A, T. Qed.

Lemma tokenize_loop_done (fuel : nat) (s : Scanner) :
  isAtEnd s = true -> tokenize_loop fuel s = Ok s.
Proof. intros A. destruct fuel; cbn [tokenize_loop]; now rewrite A. Qed.

Lemma tokenize_loop_fuel :
  forall (fuel : nat) (s s' : Scanner),
    tokenize_loop fuel s = Ok s' ->
    forall fuel', fuel <= fuel' -> tokenize_loop fuel' s = Ok s'.
Proof.
  induction fuel as [|fuel IH]; intros s s' H fuel' F.
  - cbn [tokenize_loop] in H. destruct (isAtEnd s) eqn:A; [|discriminate H].
    now rewrite tokenize_loop_done.
  - destruct fuel' as [|fuel']; [lia|]. cbn [tokenize_loop] in *.
    destruct (isAtEnd s); [exact H|].
    destruct (scanToken s) as [s1| |]; cbn [bind] in *; try discriminate H.
    apply IH; [exact H | lia].
Qed.

Lemma currentPosition_moveOver (text : jsstring) (s : Scanner) :
  currentPosition (moveOver text s) = positionAfter (currentPosition s) text.
Proof.
  unfold moveOver, currentPosition at 1. cbn [line column pos].
  now destruct (positionAfter (currentPosition s) text).
Qed.

Lemma positionAfter_app (p : Position) (a b : jsstring) :
  positionAfter p (a ++ b) = positionAfter (positionAfter p a) b.
Proof. apply fold_left_app. Qed.

(** *** Raw blocks *)

Lemma stepPosition_advance (s : Scanner) (c : char) :
  eqc c c_nl = false ->
  currentPosition (advanceBy 1 s) = stepPosition (currentPosition s) c.
Proof. intros E. unfold stepPosition. now rewrite E. Qed.

Lemma scanToken_raw_closed (s : Scanner) (body tail : jsstring) :
  isRawBlockCommand (currentCommand s) = true ->
  unread s = c_lbrace :: body ++ c_rbrace :: tail ->
  balanced body ->
  exists s',
    scanToken s = Ok s' /\
    tokens s' = tokens s ++ rawBlockTokens (currentPosition s) body true /\
    unread s' = tail /\ source s' = source s /\
    currentPosition s' =
      positionAfter (currentPosition s) (c_lbrace :: body ++ [c_rbrace]) /\
    canStartCommand s' = true /\ inCommandMode s' = false /\
    currentCommand s' = [].
Proof.
  intros R H B. eexists. split.
  { unfold scanToken. rewrite (peek_cons H), R. chars.
    now rewrite (scanRawBlock_closed _ s body tail H B). }
  cbv zeta.
  set (s2 := addToken LBRACE [c_lbrace] (currentPosition s) (advanceBy 1 s)).
  assert (E2 : unread s2 = body ++ c_rbrace :: tail)
    by (unfold s2; rewrite unread_addToken, unread_advanceBy, H; reflexivity).
  assert (P2 : currentPosition s2 = stepPosition (currentPosition s) c_lbrace)
    by reflexivity.
  assert (P3 : currentPosition (moveOver body s2) =
               positionAfter (stepPosition (currentPosition s) c_lbrace) body)
    by (now rewrite currentPosition_moveOver, P2).
  unfold rawBlockTokens. cbv zeta.
  destruct (trimBlankLines body) as [|c t] eqn:T.
  - split; [|split; [|split; [reflexivity|split; [|repeat split]]]].
    + cbn [tokens addToken set_tokens set_currentCommand set_inCommandMode
           set_canStartCommand app].
      change (tokens (advanceBy 1 (moveOver body s2)))
        with (tokens s ++ [mkToken LBRACE [c_lbrace]
                (mkLocation (currentPosition s) (currentPosition s2))]).
      change (currentPosition (advanceBy 1 (moveOver body s2)))
        with (stepPosition (currentPosition (moveOver body s2)) c_rbrace).
      rewrite P3, P2, <- app_assoc. reflexivity.
    + change (unread (advanceBy 1 (moveOver body s2)) = tail).
      rewrite unread_advanceBy, (unread_moveOver_app _ _ _ E2). reflexivity.
    + change (stepPosition (currentPosition (moveOver body s2)) c_rbrace =
              positionAfter (currentPosition s)
                            (c_lbrace :: body ++ [c_rbrace])).
      rewrite P3. change (c_lbrace :: body ++ [c_rbrace])
        with ([c_lbrace] ++ body ++ [c_rbrace]).
      now rewrite !positionAfter_app.
  - split; [|split; [|split; [reflexivity|split; [|repeat split]]]].
    + cbn [tokens addToken set_tokens set_currentCommand set_inCommandMode
           set_canStartCommand app].
      change (tokens (advanceBy 1 (addToken CONTENT (c :: t)
                (currentPosition s2) (moveOver body s2))))
        with ((tokens s ++ [mkToken LBRACE [c_lbrace]
                (mkLocation (currentPosition s) (currentPosition s2))]) ++
              [mkToken CONTENT (c :: t)
                 (mkLocation (currentPosition s2)
                             (currentPosition (moveOver body s2)))]).
      change (currentPosition (advanceBy 1 (addToken CONTENT (c :: t)
                (currentPosition s2) (moveOver body s2))))
        with (stepPosition (currentPosition (moveOver body s2)) c_rbrace).
      change (currentPosition (addToken CONTENT (c :: t)
                (currentPosition s2) (moveOver body s2)))
        with (currentPosition (moveOver body s2)).
      rewrite P3, P2, <- !app_assoc. reflexivity.
    + change (unread (advanceBy 1 (moveOver body s2)) = tail).
      rewrite unread_advanceBy, (unread_moveOver_app _ _ _ E2). reflexivity.
    + change (stepPosition (currentPosition (moveOver body s2)) c_rbrace =
              positionAfter (currentPosition s)
                            (c_lbrace :: body ++ [c_rbrace])).
      rewrite P3. change (c_lbrace :: body ++ [c_rbrace])
        with ([c_lbrace] ++ body ++ [c_rbrace]).
      now rewrite !positionAfter_app.
Qed.


Lemma scanToken_raw_unclosed (s : Scanner) (body : jsstring) :
  isRawBlockCommand (currentCommand s) = true ->
  unread s = c_lbrace :: body ->
  unclosed body ->
  exists s',
    scanToken s = Ok s' /\
    tokens s' = tokens s ++ rawBlockTokens (currentPosition s) body false /\
    unread s' = [] /\ source s' = source s /\
    currentPosition s' =
      positionAfter (currentPosition s) (c_lbrace :: body) /\
    canStartCommand s' = true /\ inCommandMode s' = false /\
    currentCommand s' = [].
Proof.
  intros R H B. eexists. split.
  { unfold scanToken. rewrite (peek_cons H), R. chars.
    now rewrite (scanRawBlock_unclosed _ s body H B). }
  cbv zeta.
  set (s2 := addToken LBRACE [c_lbrace] (currentPosition s) (advanceBy 1 s)).
  assert (E2 : unread s2 = body ++ [])
    by (unfold s2; rewrite unread_addToken, unread_advanceBy, H, app_nil_r;
        reflexivity).
  assert (P2 : currentPosition s2 = stepPosition (currentPosition s) c_lbrace)
    by reflexivity.
  assert (P3 : currentPosition (moveOver body s2) =
               positionAfter (stepPosition (currentPosition s) c_lbrace) body)
    by (now rewrite currentPosition_moveOver, P2).
  unfold rawBlockTokens. cbv zeta.
  destruct (trimBlankLines body) as [|c t] eqn:T.
  - split; [|split; [|split; [reflexivity|split; [|repeat split]]]].
    + cbn [tokens addToken set_tokens set_currentCommand set_inCommandMode
           set_canStartCommand app].
      change (tokens (moveOver body s2))
        with (tokens s ++ [mkToken LBRACE [c_lbrace]
                (mkLocation (currentPosition s) (currentPosition s2))]).
      reflexivity.
    + change (unread (moveOver body s2) = []).
      exact (unread_moveOver_app _ _ _ E2).
    + change (currentPosition (moveOver body s2) =
              positionAfter (currentPosition s) ([c_lbrace] ++ body)).
      now rewrite P3, positionAfter_app.
  - split; [|split; [|split; [reflexivity|split; [|repeat split]]]].
    + cbn [tokens addToken set_tokens set_currentCommand set_inCommandMode
           set_canStartCommand app].
      change (tokens (moveOver body s2))
        with (tokens s ++ [mkToken LBRACE [c_lbrace]
                (mkLocation (currentPosition s) (currentPosition s2))]).
      rewrite P3, P2, <- !app_assoc. reflexivity.
    + change (unread (moveOver body s2) = []).
      exact (unread_moveOver_app _ _ _ E2).
    + change (currentPosition (moveOver body s2) =
              positionAfter (currentPosition s) ([c_lbrace] ++ body)).
      now rewrite P3, positionAfter_app.
Qed.

(** A raw-block command at the start of the source, a space, then [more]:
    two steps of the main loop read the command and the space. *)
Lemma raw_command_prefix (name more : jsstring) :
  In name RAW_BLOCK_COMMANDS ->
  exists s2,
    (forall fuel,
       tokenize_loop (S (S fuel)) (init (c_slash :: name ++ c_space :: more)) =
       tokenize_loop fuel s2) /\
    unread s2 = more /\
    tokens s2 =
      [mkToken COMMAND name
         (mkLocation sourceStart
                     (positionAfter sourceStart (c_slash :: name)))] /\
    currentPosition s2 =
      positionAfter sourceStart (c_slash :: name ++ [c_space]) /\
    currentCommand s2 = name /\
    isRawBlockCommand (currentCommand s2) = true.
Proof.
  intros I.
  set (src := c_slash :: name ++ c_space :: more).
  set (s1 := set_currentCommand name
               (set_inCommandMode true
                  (set_canStartCommand false
                     (addToken COMMAND name sourceStart
                        (advanceBy (1 + length name) (init src)))))).
  exists (advanceBy 1 s1).
  assert (U0 : unread (init src) = c_slash :: name ++ c_space :: more)
    by reflexivity.
  assert (T1 : scanToken (init src) = Ok s1 /\
               unread s1 = c_space :: more /\
               positionAfter sourceStart (c_slash :: name) =
                 currentPosition s1 /\
               positionAfter sourceStart (c_slash :: name ++ [c_space]) =
                 currentPosition (advanceBy 1 s1) /\
               isRawBlockCommand name = true).
  { unfold scanToken. rewrite (peek_cons U0). chars.
    rewrite (scanCommand_spec _ _ _ U0).
    cbn [RAW_BLOCK_COMMANDS In] in I.
    destruct I as [<-|[<-|[<-|[]]]]; repeat split; reflexivity. }
  destruct T1 as (T1 & U1 & P1 & P2 & R).
  assert (T2 : scanToken s1 = Ok (advanceBy 1 s1)).
  { unfold scanToken. rewrite (peek_cons U1). chars.
    rewrite (advance_cons U1). reflexivity. }
  repeat split.
  - intros fuel.
    rewrite (tokenize_loop_step _ _ _ (isAtEnd_cons U0) T1).
    now rewrite (tokenize_loop_step _ _ _ (isAtEnd_cons U1) T2).
  - rewrite unread_advanceBy, U1. reflexivity.
  - change (tokens (advanceBy 1 s1))
      with ([mkToken COMMAND name
               (mkLocation sourceStart (currentPosition s1))]).
    now rewrite P1.
  - now rewrite P2.
  - exact R.
Qed.


(** *** From the source to the document *)

Lemma run_raw_block (name body : jsstring) (closed : bool) :
  In name RAW_BLOCK_COMMANDS ->
  (if closed then balanced body else unclosed body) ->
  let src := c_slash :: name ++ str " {" ++ body ++
             (if closed then [c_rbrace] else []) in
  let lb := positionAfter sourceStart (c_slash :: name ++ [c_space]) in
  let e := positionAfter sourceStart src in
  tokenize src =
    Ok ([mkToken COMMAND name
           (mkLocation sourceStart
                       (positionAfter sourceStart (c_slash :: name)))] ++
        rawBlockTokens lb body closed ++ [mkToken EOF [] (mkLocation e e)]).
Proof.
  intros I B src lb e.
  destruct (raw_command_prefix name
              (c_lbrace :: body ++ (if closed then [c_rbrace] else [])) I)
    as (s2 & L & U2 & T2 & P2 & C2 & R2).
  assert (K : exists s3,
             scanToken s2 = Ok s3 /\
             tokens s3 = tokens s2 ++ rawBlockTokens lb body closed /\
             unread s3 = [] /\ currentPosition s3 = e).
  { destruct closed.
    - destruct (scanToken_raw_closed s2 body [] R2 U2 B)
        as (s3 & T & K1 & K2 & _ & K3 & _).
      exists s3. rewrite P2 in K1, K3. repeat split; auto.
      rewrite K3. unfold e, src, lb.
      change (c_slash :: name ++ str " {" ++ body ++ [c_rbrace])
        with ((c_slash :: name ++ [c_space]) ++ c_lbrace :: body ++ [c_rbrace])
        || (replace (c_slash :: name ++ str " {" ++ body ++ [c_rbrace])
              with ((c_slash :: name ++ [c_space]) ++
                    c_lbrace :: body ++ [c_rbrace])
              by (cbn [app]; now rewrite <- app_assoc)).
      now rewrite positionAfter_app.
    - rewrite app_nil_r in U2.
      destruct (scanToken_raw_unclosed s2 body R2 U2 B)
        as (s3 & T & K1 & K2 & _ & K3 & _).
      exists s3. rewrite P2 in K1, K3. repeat split; auto.
      rewrite K3. unfold e, src, lb.
      replace (c_slash :: name ++ str " {" ++ body ++ [])
        with ((c_slash :: name ++ [c_space]) ++ c_lbrace :: body)
        by (cbn [app]; now rewrite <- app_assoc, app_nil_r).
      now rewrite positionAfter_app. }
  destruct K as (s3 & T & K1 & K2 & K3).
  assert (A2 : isAtEnd s2 = false).
  { destruct closed; [|rewrite app_nil_r in U2]; exact (isAtEnd_cons U2). }
  assert (R : tokenize_loop 3 (init src) = Ok s3).
  { unfold src. change (str " {" ++ body ++ (if closed then [c_rbrace] else []))
      with (c_space :: c_lbrace :: body ++ (if closed then [c_rbrace] else [])).
    rewrite L, (tokenize_loop_step _ _ _ A2 T).
    apply tokenize_loop_done. now apply unread_nil. }
  unfold tokenize, Tokenizer.run.
  rewrite (tokenize_loop_fuel _ _ _ R)
    by (unfold remaining, src; cbn [init source pos length]; lia).
  cbn [bind]. unfold currentLocation. rewrite K1, K3, T2, <- app_assoc.
  reflexivity.
Qed.

(** *** Content only *)

Lemma noCommandSlash_weaken (l : jsstring) :
  noCommandSlash true l = true -> noCommandSlash false l = true.
Proof.
  induction l as [|c l IH]; cbn [noCommandSlash]; auto.
  destruct (eqc c c_slash); [discriminate|].
  destruct (eqc c c_nl); auto.
  destruct (eqc c c_space || eqc c c_tab); auto.
Qed.

Lemma noCommandSlash_any (b : bool) (l : jsstring) :
  noCommandSlash b l = true -> noCommandSlash false l = true.
Proof. destruct b; [apply noCommandSlash_weaken | auto]. Qed.

Lemma noCommandSlash_tail (b : bool) (c : char) (l : jsstring) :
  noCommandSlash b (c :: l) = true -> noCommandSlash false l = true.
Proof.
  cbn [noCommandSlash]. destruct (eqc c c_slash).
  - intros H. apply andb_prop in H. tauto.
  - destruct (eqc c c_nl); [apply noCommandSlash_weaken|].
    destruct (eqc c c_space || eqc c c_tab); [apply noCommandSlash_any | auto].
Qed.

Lemma noCommandSlash_suffix (pre rest : jsstring) :
  forall b, pre <> [] ->
    noCommandSlash b (pre ++ rest) = true -> noCommandSlash false rest = true.
Proof.
  induction pre as [|c pre IH]; intros b N H; [congruence|].
  cbn [app] in H. apply noCommandSlash_tail in H.
  destruct pre as [|c' pre]; [exact H|]. apply (IH false); [discriminate|exact H].
Qed.

Lemma take_drop (p : char -> bool) (l : jsstring) :
  takeWhile p l ++ dropWhile p l = l.
Proof.
  induction l as [|c l IH]; cbn; [reflexivity|].
  destruct (p c); cbn; [now rewrite IH | reflexivity].
Qed.

Lemma skipn_takeWhile (p : char -> bool) (l : jsstring) :
  skipn (length (takeWhile p l)) l = dropWhile p l.
Proof.
  induction l as [|c l IH]; cbn; [reflexivity|].
  destruct (p c); cbn; [exact IH | reflexivity].
Qed.

Lemma nth_error_unread (s : Scanner) (k : nat) :
  nth_error (source s) (pos s + k) = nth_error (unread s) k.
Proof. unfold unread. now rewrite nth_error_skipn. Qed.

Lemma matchCodeFence_unread (s : Scanner) :
  matchCodeFence s = true ->
  exists l, unread s = c_backtick :: c_backtick :: c_backtick :: l.
Proof.
  unfold matchCodeFence.
  rewrite <- (Nat.add_0_r (pos s)) at 1. rewrite !nth_error_unread.
  destruct (unread s) as [|a [|b [|c l]]]; cbn; try discriminate.
  intros H. apply andb_prop in H. destruct H as [H H3].
  apply andb_prop in H. destruct H as [H1 H2].
  apply eqc_eq in H1, H2, H3. subst. now exists l.
Qed.

Lemma consumeCodeFence_spec (s : Scanner) (l : jsstring) :
  unread s = c_backtick :: c_backtick :: c_backtick :: l ->
  let line := takeWhile (fun c => negb (eqc c c_nl)) l in
  consumeCodeFence s =
    (c_backtick :: c_backtick :: c_backtick :: line,
     advanceBy (3 + length line) s).
Proof.
  intros H line. unfold consumeCodeFence. rewrite (advance_cons H).
  assert (H1 : unread (advanceBy 1 s) = c_backtick :: c_backtick :: l)
    by (rewrite unread_advanceBy, H; reflexivity).
  rewrite (advance_cons H1), advanceBy_add.
  assert (H2 : unread (advanceBy (1 + 1) s) = c_backtick :: l)
    by (rewrite unread_advanceBy, H; reflexivity).
  rewrite (advance_cons H2), advanceBy_add.
  assert (H3 : unread (advanceBy (1 + 1 + 1) s) = l)
    by (rewrite unread_advanceBy, H; reflexivity).
  rewrite (advanceWhile_spec _ l); auto;
    [|rewrite remaining_unread, H3; auto].
  now rewrite advanceBy_add.
Qed.


Lemma peek_nil (s : Scanner) : unread s = [] -> peek s = NUL.
Proof.
  intros H. apply unread_nil in H. unfold isAtEnd in H. unfold peek.
  apply nth_overflow. now apply Nat.leb_le.
Qed.

Lemma unread_length_le (s s1 : Scanner) (pre l : jsstring) (fuel : nat) :
  unread s = l -> l = pre ++ unread s1 -> pre <> [] ->
  length l <= S fuel -> length (unread s1) <= fuel.
Proof.
  intros U E N F. rewrite E, length_app in F.
  destruct pre; [congruence | simpl in F; lia].
Qed.

Lemma scanContent_loop_all :
  forall (fuel : nat) (s : Scanner) (acc : jsstring) (fence : bool),
    length (unread s) <= fuel ->
    noBraces (unread s) = true ->
    noCommandSlash (canStartCommand s) (unread s) = true ->
    exists s',
      scanContent_loop fuel s acc fence = (acc ++ unread s, s') /\
      unread s' = [] /\ tokens s' = tokens s.
Proof.
  induction fuel as [|fuel IH]; intros s acc fence F B N.
  { exists s. destruct (unread s) eqn:U; [|simpl in F; lia].
    now rewrite app_nil_r. }
  cbn [scanContent_loop]. destruct (unread s) as [|c l] eqn:U.
  { exists s. now rewrite (unread_nil _ U), app_nil_r. }
  rewrite (isAtEnd_cons U), (peek_cons U).
  assert (go : forall (s1 : Scanner) (pre : jsstring) (fence' : bool),
            pre <> [] -> c :: l = pre ++ unread s1 ->
            tokens s1 = tokens s ->
            noCommandSlash (canStartCommand s1) (unread s1) = true ->
            exists s',
              scanContent_loop fuel s1 (acc ++ pre) fence' =
                (acc ++ c :: l, s') /\
              unread s' = [] /\ tokens s' = tokens s).
  { intros s1 pre fence' P E T N1.
    destruct (IH s1 (acc ++ pre) fence') as (s' & L & U' & T'); auto.
    - now apply (unread_length_le s s1 pre (c :: l)).
    - unfold noBraces in *. rewrite E, forallb_app in B.
      apply andb_prop in B. tauto.
    - exists s'. rewrite L, <- app_assoc, <- E, T', T. auto. }
  assert (one : unread (advanceBy 1 s) = l)
    by (rewrite unread_advanceBy, U; reflexivity).
  assert (Bc : eqc c c_lbrace || eqc c c_rbrace = false).
  { unfold noBraces in B. cbn [forallb] in B. apply andb_prop in B.
    destruct B as [B _]. now apply negb_true_iff in B. }
  destruct (eqc c c_backtick && canStartCommand s && matchCodeFence s) eqn:K.
  { apply andb_prop in K. destruct K as [_ K].
    destruct (matchCodeFence_unread s K) as (l3 & U3).
    rewrite (consumeCodeFence_spec s l3 U3). cbv zeta.
    set (ln := takeWhile (fun c => negb (eqc c c_nl)) l3).
    assert (E : c :: l = (c_backtick :: c_backtick :: c_backtick :: ln) ++
                         dropWhile (fun c => negb (eqc c c_nl)) l3).
    { rewrite U in U3. rewrite U3. cbn [app]. unfold ln.
      now rewrite take_drop. }
    apply go; auto; try discriminate.
    - etransitivity; [exact E|]. f_equal.
      change (dropWhile (fun c => negb (eqc c c_nl)) l3 =
              unread (advanceBy (3 + length ln) s)).
      rewrite unread_advanceBy, U3. cbn [skipn Nat.add]. unfold ln.
      now rewrite skipn_takeWhile.
    - change (noCommandSlash false (unread (advanceBy (3 + length ln) s)) = true).
      rewrite unread_advanceBy, U3. cbn [skipn Nat.add]. unfold ln.
      rewrite skipn_takeWhile. rewrite E in N.
      refine (noCommandSlash_suffix _ _ _ _ N); discriminate. }
  clear K. destruct fence.
  { rewrite (advance_cons U). destruct (eqc c c_nl) eqn:Nl.
    - apply (go _ [c]);
      [discriminate | cbn [app]; f_equal; symmetry; exact one | reflexivity |].
      change (noCommandSlash true (unread (advanceBy 1 s)) = true).
      rewrite one. apply eqc_eq in Nl. subst c. exact N.
    - apply (go _ [c]);
      [discriminate | cbn [app]; f_equal; symmetry; exact one | reflexivity |].
      change (noCommandSlash false (unread (advanceBy 1 s)) = true).
      rewrite one. exact (noCommandSlash_tail _ _ _ N). }
  destruct (eqc c c_backtick) eqn:Bt.
  { rewrite (advance_cons U).
    set (p := fun c => negb (eqc c c_backtick) && negb (eqc c c_nl)).
    rewrite (advanceWhile_spec p l); auto;
      [|rewrite remaining_unread, one; auto].
    rewrite advanceBy_add.
    set (s2 := advanceBy (1 + length (takeWhile p l)) s).
    assert (U2 : unread s2 = dropWhile p l).
    { unfold s2. rewrite unread_advanceBy, U. cbn [skipn Nat.add].
      apply skipn_takeWhile. }
    destruct (dropWhile p l) as [|d r] eqn:D.
    - rewrite (peek_nil _ U2). chars.
      rewrite <- app_assoc. apply go; auto; try discriminate.
      + cbn [app]. f_equal. change (unread (set_canStartCommand false s2))
          with (unread s2). rewrite U2, <- D. symmetry. apply take_drop.
      + change (noCommandSlash false (unread s2) = true). now rewrite U2.
    - rewrite (peek_cons U2). destruct (eqc d c_backtick) eqn:Dt.
      + rewrite (advance_cons U2). rewrite <- !app_assoc.
        assert (U3 : unread (advanceBy 1 s2) = r)
          by (rewrite unread_advanceBy, U2; reflexivity).
        apply go; auto; try discriminate.
        * cbn [app]. f_equal.
          change (unread (set_canStartCommand false (advanceBy 1 s2)))
            with (unread (advanceBy 1 s2)).
          rewrite U3, <- app_assoc. cbn [app]. rewrite <- D. symmetry.
          apply take_drop.
        * change (noCommandSlash false (unread (advanceBy 1 s2)) = true).
          rewrite U3.
          assert (E : c :: l = ([c] ++ takeWhile p l ++ [d]) ++ r).
          { cbn [app]. f_equal. rewrite <- app_assoc. cbn [app].
            rewrite <- D. symmetry. apply take_drop. }
          rewrite E in N.
          refine (noCommandSlash_suffix _ _ _ _ N); discriminate.
      + rewrite <- app_assoc. apply go; auto; try discriminate.
        * cbn [app]. f_equal. change (unread (set_canStartCommand false s2))
            with (unread s2). rewrite U2, <- D. symmetry. apply take_drop.
        * change (noCommandSlash false (unread s2) = true). rewrite U2.
          assert (E : c :: l = ([c] ++ takeWhile p l) ++ d :: r).
          { cbn [app]. f_equal. rewrite <- D. symmetry. apply take_drop. }
          rewrite E in N.
          refine (noCommandSlash_suffix _ _ _ _ N); discriminate. }
  rewrite Bc.
  destruct (eqc c c_slash && canStartCommand s) eqn:Sl.
  { apply andb_prop in Sl. destruct Sl as [S1 S2].
    cbn [noCommandSlash] in N. rewrite S1, S2 in N. discriminate N. }
  rewrite (advance_cons U). destruct (eqc c c_nl) eqn:Nl.
  { apply (go _ [c]);
      [discriminate | cbn [app]; f_equal; symmetry; exact one | reflexivity |].
    change (noCommandSlash true (unread (advanceBy 1 s)) = true).
    rewrite one. apply eqc_eq in Nl. subst c. exact N. }
  destruct ((eqc c c_space || eqc c c_tab) && canStartCommand s) eqn:Sp.
  - apply (go _ [c]);
      [discriminate | cbn [app]; f_equal; symmetry; exact one | reflexivity |].
    change (noCommandSlash (canStartCommand s) (unread (advanceBy 1 s)) = true).
    rewrite one. apply andb_prop in Sp. destruct Sp as [Sp C].
    cbn [noCommandSlash] in N. rewrite Nl, Sp in N.
    destruct (eqc c c_slash) eqn:S1; [|exact N].
    rewrite C in Sl. discriminate Sl.
  - apply (go _ [c]);
      [discriminate | cbn [app]; f_equal; symmetry; exact one | reflexivity |].
    change (noCommandSlash false (unread (advanceBy 1 s)) = true).
    rewrite one. exact (noCommandSlash_tail _ _ _ N).
Qed.


Lemma skip_newlines (nls : jsstring) :
  forall (s : Scanner) (rest : jsstring) (fuel : nat),
    forallb isNewline nls = true ->
    unread s = nls ++ rest ->
    canStartCommand s = true -> inCommandMode s = false ->
    exists s',
      tokenize_loop (length nls + fuel) s = tokenize_loop fuel s' /\
      unread s' = rest /\ tokens s' = tokens s /\
      canStartCommand s' = true /\ inCommandMode s' = false.
Proof.
  induction nls as [|c nls IH]; intros s rest fuel A U C M.
  - exists s. auto.
  - cbn [forallb] in A. apply andb_prop in A. destruct A as [A1 A2].
    apply eqc_eq in A1. subst c. cbn [app] in U.
    destruct (IH (set_inCommandMode false
                    (set_canStartCommand true (nextLine (advanceBy 1 s))))
                 rest fuel A2) as (s' & L & U' & T' & C' & M'); auto.
    { change (unread (advanceBy 1 s) = nls ++ rest).
      rewrite unread_advanceBy, U. reflexivity. }
    exists s'. repeat split; auto. rewrite <- L. cbn [length Nat.add].
    apply tokenize_loop_step; [exact (isAtEnd_cons U)|].
    unfold scanToken. rewrite (peek_cons U). chars.
    now rewrite (advance_cons U).
Qed.

Lemma scanToken_content_only (s : Scanner) (c : char) (l : jsstring) :
  unread s = c :: l ->
  eqc c c_nl = false ->
  canStartCommand s = true -> inCommandMode s = false ->
  noBraces (c :: l) = true ->
  noCommandSlash true (c :: l) = true ->
  exists s',
    scanToken s = Ok s' /\ unread s' = [] /\
    map shape (tokens s') =
      map shape (tokens s) ++
      (if blank (c :: l) then [] else [(CONTENT, c :: l)]).
Proof.
  intros U Nl C M B N.
  destruct (scanContent_loop_all (remaining s) s [] false)
    as (s1 & L & U1 & T1).
  { rewrite remaining_unread. auto. }
  { now rewrite U. }
  { now rewrite C, U. }
  rewrite U in L. cbn [app] in L.
  exists (scanContent (currentPosition s) s).
  assert (K : scanToken s = Ok (scanContent (currentPosition s) s)).
  { unfold scanToken. rewrite (peek_cons U), C, M, Nl. cbn [negb orb andb].
    rewrite andb_false_r.
    unfold noBraces in B. cbn [forallb] in B. apply andb_prop in B.
    destruct B as [B _]. apply negb_true_iff, orb_false_elim in B.
    destruct B as [B1 B2]. rewrite B1, B2.
    cbn [noCommandSlash] in N.
    destruct (eqc c c_slash); [discriminate N | reflexivity]. }
  split; [exact K|]. unfold scanContent. rewrite L.
  destruct (trim (c :: l)) eqn:T.
  - apply trim_nil in T. unfold blank. rewrite T, T1, app_nil_r. auto.
  - assert (T' : blank (c :: l) = false).
    { destruct (blank (c :: l)) eqn:K'; auto.
      apply trim_nil in K'. congruence. }
    rewrite T'. split; [exact U1|].
    cbn [addToken set_tokens tokens]. rewrite map_app, T1. reflexivity.
Qed.

Lemma newline_blank (l : jsstring) :
  forallb isNewline l = true -> blank l = true.
Proof.
  unfold blank. induction l as [|c l IH]; cbn [forallb]; auto.
  intros H. apply andb_prop in H. destruct H as [H1 H2].
  apply eqc_eq in H1. subst c. now rewrite IH.
Qed.

Lemma dropWhile_head (p : char -> bool) (l : jsstring) (c : char)
    (r : jsstring) :
  dropWhile p l = c :: r -> p c = false.
Proof.
  induction l as [|x l IH]; cbn; [discriminate|].
  destruct (p x) eqn:E; auto. intros H. injection H as <- _. exact E.
Qed.

Lemma takeWhile_all (p : char -> bool) (l : jsstring) :
  forallb p (takeWhile p l) = true.
Proof.
  induction l as [|x l IH]; cbn; auto.
  destruct (p x) eqn:E; cbn; auto. now rewrite E.
Qed.

(** C8: a source without braces, in which no slash is where a command may
    start, tokenizes to one CONTENT token, whose text is the source after
    its leading newlines, and the EOF token; when the source is white space
    only, to the EOF token alone. *)
Theorem content_only_tokens (src : jsstring) :
  noBraces src = true ->
  noCommandSlash true src = true ->
  shapes (tokenize src) =
    Ok (if blank src then [(EOF, [])]
        else [(CONTENT, dropWhile isNewline src); (EOF, [])]).
Proof.
  intros B N.
  set (nls := takeWhile isNewline src). set (body := dropWhile isNewline src).
  assert (E : src = nls ++ body) by (symmetry; apply take_drop).
  assert (A : forallb isNewline nls = true) by apply takeWhile_all.
  destruct (skip_newlines nls (init src) body 1 A E eq_refl eq_refl)
    as (s1 & L & U1 & T1 & C1 & M1).
  assert (Bb : noBraces body = true).
  { unfold noBraces in *. rewrite E, forallb_app in B.
    apply andb_prop in B. tauto. }
  assert (Nb : noCommandSlash true body = true).
  { clear - N E A. revert N. rewrite E. clear E.
    induction nls as [|c nls IH]; cbn [app]; auto.
    cbn [forallb] in A. apply andb_prop in A. destruct A as [A1 A2].
    apply eqc_eq in A1. subst c. cbn [noCommandSlash]. chars. auto. }
  assert (Bl : blank src = blank body).
  { unfold blank in *. rewrite E, forallb_app.
    fold (blank nls). now rewrite (newline_blank nls A). }
  assert (R : exists s2,
             tokenize_loop (length nls + 1) (init src) = Ok s2 /\
             map shape (tokens s2) =
               if blank src then [] else [(CONTENT, body)]).
  { rewrite L, Bl. destruct body as [|c l] eqn:D.
    - exists s1. split; [apply tokenize_loop_done; now apply unread_nil|].
      now rewrite T1.
    - destruct (scanToken_content_only s1 c l U1
                  (dropWhile_head isNewline src c l D) C1 M1 Bb Nb)
        as (s2 & K & U2 & T2).
      exists s2. split.
      + rewrite (tokenize_loop_step _ _ _ (isAtEnd_cons U1) K).
        apply tokenize_loop_done. now apply unread_nil.
      + now rewrite T2, T1. }
  destruct R as (s2 & R & T2).
  unfold shapes, tokenize, Tokenizer.run.
  rewrite (tokenize_loop_fuel _ _ _ R).
  - cbn [bind]. rewrite map_app, T2. now destruct (blank src).
  - unfold remaining. cbn [init source pos]. rewrite E, length_app. lia.
Qed.

Lemma content_only_tokens_witness :
  shapes (tokenize (str "Visit https://example.com")) =
    Ok [(CONTENT, str "Visit https://example.com"); (EOF, [])].
Proof.
  exact (content_only_tokens (str "Visit https://example.com")
           eq_refl eq_refl).
Defined.

(** *** The tokenizer never runs out of fuel *)

Lemma reads_refl (s : Scanner) : reads s s.
Proof. unfold reads. auto. Qed.

Lemma reads_trans (s1 s2 s3 : Scanner) :
  reads s1 s2 -> reads s2 s3 -> reads s1 s3.
Proof.
  unfold reads. intros (A & B & C) (D & E & F).
  split; [|split]; try congruence; lia.
Qed.

Lemma reads_advance (s : Scanner) : reads s (snd (advance s)).
Proof. unfold reads, advance. cbn. split; [|split]; auto; lia. Qed.

Lemma pos_advance (s : Scanner) : pos (snd (advance s)) = pos s + 1.
Proof. reflexivity. Qed.

Lemma advanceWhile_reads (p : char -> bool) :
  forall (fuel : nat) (s : Scanner) (acc : jsstring),
    reads s (snd (advanceWhile p fuel s acc)).
Proof.
  induction fuel as [|fuel IH]; intros s acc; cbn [advanceWhile];
    [apply reads_refl|].
  destruct (negb (isAtEnd s) && p (peek s)); [|apply reads_refl].
  destruct (advance s) as [c s1] eqn:A.
  apply reads_trans with s1; [|apply IH].
  change s1 with (snd (c, s1)). rewrite <- A. apply reads_advance.
Qed.

Lemma advanceWhile_moves (p : char -> bool) (fuel : nat) (s : Scanner)
    (acc : jsstring) :
  isAtEnd s = false -> p (peek s) = true ->
  pos s < pos (snd (advanceWhile p (S fuel) s acc)).
Proof.
  intros E P. cbn [advanceWhile]. rewrite E, P. cbn [negb andb].
  destruct (advance s) as [c s1] eqn:A.
  destruct (advanceWhile_reads p fuel s1 (acc ++ [c])) as (_ & L & _).
  assert (pos s1 = pos s + 1)
    by (change s1 with (snd (c, s1)); now rewrite <- A).
  lia.
Qed.

(** Closes a branch of a character loop: the state of the recursive call
    is the state before it, moved forward. *)
Ltac reads_branch IH :=
  first [ apply reads_refl
        | eapply reads_trans; [|apply IH];
          unfold reads; cbn; (split; [|split]); auto; lia ].

Lemma scanString_loop_reads :
  forall (fuel : nat) (quote : char) (s : Scanner) (v : jsstring),
    reads s (snd (scanString_loop fuel quote s v)).
Proof.
  induction fuel as [|fuel IH]; intros quote s v; cbn [scanString_loop];
    [apply reads_refl|].
  unfold advance.
  repeat match goal with
         | |- context [if ?b then _ else _] => destruct b
         end; reads_branch IH.
Qed.

Lemma scanRawBlock_loop_reads :
  forall (fuel : nat) (s : Scanner) (depth : nat) (content : jsstring),
    reads s (snd (scanRawBlock_loop fuel s depth content)).
Proof.
  induction fuel as [|fuel IH]; intros s depth content;
    cbn [scanRawBlock_loop]; [apply reads_refl|].
  unfold advance.
  repeat match goal with
         | |- context [if ?b then _ else _] => destruct b
         end; reads_branch IH.
Qed.

Lemma consumeCodeFence_reads (s : Scanner) :
  reads s (snd (consumeCodeFence s)) /\
  pos s < pos (snd (consumeCodeFence s)).
Proof.
  unfold consumeCodeFence, advance.
  match goal with
  | |- context [advanceWhile ?p ?n ?x ?a] =>
      destruct (advanceWhile_reads p n x a) as (A & B & C);
      destruct (advanceWhile p n x a) as [f s1]
  end.
  cbn in *. unfold reads. repeat split; auto; lia.
Qed.

Lemma scanContent_loop_reads :
  forall (fuel : nat) (s : Scanner) (content : jsstring) (fence : bool),
    reads s (snd (scanContent_loop fuel s content fence)).
Proof.
  induction fuel as [|fuel IH]; intros s content fence;
    cbn [scanContent_loop]; [apply reads_refl|].
  destruct (isAtEnd s); [apply reads_refl|].
  destruct (eqc (peek s) c_backtick && canStartCommand s && matchCodeFence s).
  { destruct (consumeCodeFence_reads s) as [R _].
    destruct (consumeCodeFence s) as [f s1].
    eapply reads_trans; [exact R|]. apply (IH (set_canStartCommand false s1)). }
  destruct fence.
  { unfold advance. destruct (eqc (peek s) c_nl); reads_branch IH. }
  destruct (eqc (peek s) c_backtick).
  { unfold advance at 1.
    match goal with
    | |- context [advanceWhile ?p ?n ?x ?a] =>
        pose proof (advanceWhile_reads p n x a) as R;
        destruct (advanceWhile p n x a) as [code s2]
    end.
    cbn [snd] in R. destruct (eqc (peek s2) c_backtick).
    - unfold advance.
      eapply reads_trans; [|apply IH].
      eapply reads_trans; [|eapply reads_trans; [exact R|]];
        unfold reads; cbn; (split; [|split]); auto; lia.
    - eapply reads_trans; [|apply IH]. eapply reads_trans; [|exact R].
      unfold reads; cbn; (split; [|split]); auto; lia. }
  unfold advance.
  repeat match goal with
         | |- context [if ?b then _ else _] => destruct b
         end; reads_branch IH.
Qed.

Lemma scanContent_loop_moves (fuel : nat) (s : Scanner) :
  isAtEnd s = false ->
  eqc (peek s) c_lbrace || eqc (peek s) c_rbrace = false ->
  eqc (peek s) c_slash && canStartCommand s = false ->
  pos s < pos (snd (scanContent_loop (S fuel) s [] false)).
Proof.
  intros E B C. cbn [scanContent_loop]. rewrite E, B, C.
  destruct (eqc (peek s) c_backtick && canStartCommand s && matchCodeFence s).
  { destruct (consumeCodeFence_reads s) as [_ R].
    destruct (consumeCodeFence s) as [f s1].
    destruct (scanContent_loop_reads fuel (set_canStartCommand false s1)
                ([] ++ f) (negb false)) as (_ & L & _).
    cbn [snd pos set_canStartCommand] in *. lia. }
  assert (one : forall (f : Scanner -> Scanner) acc fence,
            (forall x, pos (f x) = pos x) ->
            pos s < pos (snd (let (c, s1) := advance s in
                              scanContent_loop fuel (f s1) (acc c) fence))).
  { intros f acc fence P. unfold advance.
    match goal with
    | |- context [scanContent_loop ?n ?x ?a ?b] =>
        destruct (scanContent_loop_reads n x a b) as (_ & L & _)
    end.
    rewrite P in L. cbn [pos] in L. lia. }
  destruct (eqc (peek s) c_backtick).
  { unfold advance at 1.
    match goal with
    | |- context [advanceWhile ?p ?n ?x ?a] =>
        destruct (advanceWhile_reads p n x a) as (_ & R & _);
        destruct (advanceWhile p n x a) as [code s2]
    end.
    cbn [snd pos] in R. destruct (eqc (peek s2) c_backtick).
    - unfold advance.
      match goal with
      | |- context [scanContent_loop ?n ?x ?a ?b] =>
          destruct (scanContent_loop_reads n x a b) as (_ & L & _)
      end.
      cbn [pos set_canStartCommand] in L. lia.
    - match goal with
      | |- context [scanContent_loop ?n ?x ?a ?b] =>
          destruct (scanContent_loop_reads n x a b) as (_ & L & _)
      end.
      cbn [pos set_canStartCommand] in L. lia. }
  destruct (eqc (peek s) c_nl);
    [apply (one (fun x => set_canStartCommand true (nextLine x))
                (fun c => [] ++ [c])); reflexivity|].
  destruct ((eqc (peek s) c_space || eqc (peek s) c_tab) && canStartCommand s);
    [apply (one (fun x => x) (fun c => [] ++ [c]))
    |apply (one (fun x => set_canStartCommand false x) (fun c => [] ++ [c]))];
    reflexivity.
Qed.

Lemma isAtEnd_false (s : Scanner) :
  isAtEnd s = false -> pos s < length (source s).
Proof. unfold isAtEnd. intros H. now apply Nat.leb_gt. Qed.

Lemma remaining_S (s : Scanner) :
  isAtEnd s = false -> exists n, remaining s = S n.
Proof.
  intros H. apply isAtEnd_false in H. unfold remaining.
  exists (length (source s) - pos s - 1). lia.
Qed.

Lemma scanCommand_moves (start : Position) (s s' : Scanner) :
  scanCommand start s = Ok s' -> source s' = source s /\ pos s < pos s'.
Proof.
  unfold scanCommand, advance.
  match goal with
  | |- context [advanceWhile ?p ?n ?x ?a] =>
      destruct (advanceWhile_reads p n x a) as (A & B & _);
      destruct (advanceWhile p n x a) as [name s2]
  end.
  destruct name; [discriminate|]. intros H. injection H as <-.
  cbn in *. split; [auto | lia].
Qed.

Lemma scanString_moves (start : Position) (s s' : Scanner) :
  scanString start s = Ok s' ->
  source s' = source s /\ pos s < pos s' /\
  inCommandMode s' = inCommandMode s.
Proof.
  unfold scanString, advance.
  match goal with
  | |- context [scanString_loop ?n ?q ?x ?a] =>
      destruct (scanString_loop_reads n q x a) as (A & B & C);
      destruct (scanString_loop n q x a) as [v s2]
  end.
  destruct (isAtEnd s2); [discriminate|]. intros H. injection H as <-.
  cbn in *. repeat split; auto; lia.
Qed.

Lemma scanCommandPart_moves (start : Position) (s s' : Scanner) :
  isAtEnd s = false ->
  scanCommandPart start s = Ok s' ->
  source s' = source s /\
  ((pos s < pos s' /\ inCommandMode s' = inCommandMode s) \/
   (pos s' = pos s /\ inCommandMode s' = false)).
Proof.
  intros E. unfold scanCommandPart.
  destruct (eqc (peek s) c_pipe).
  { intros H. injection H as <-. cbn. split; auto. left. split; auto; lia. }
  destruct (eqc (peek s) c_dash && eqc (peekNext s) c_dash).
  { unfold advance.
    match goal with
    | |- context [advanceWhile ?p ?n ?x ?a] =>
        destruct (advanceWhile_reads p n x a) as (A & B & C);
        destruct (advanceWhile p n x a) as [name s2]
    end.
    destruct name; [discriminate|]. intros H. injection H as <-.
    cbn in *. split; auto. left. split; auto; lia. }
  destruct (eqc (peek s) c_dash && isLetter (peekNext s)).
  { intros H. injection H as <-. cbn. split; auto. left. split; auto; lia. }
  destruct (eqc (peek s) c_dquote || eqc (peek s) c_squote).
  { intros H. apply scanString_moves in H. tauto. }
  destruct (eqc (peek s) c_lbrace).
  { intros H. injection H as <-. cbn. auto. }
  destruct (isValueChar (peek s)) eqn:V; [|discriminate].
  destruct (remaining_S s E) as (n & ->).
  pose proof (advanceWhile_moves isValueChar n s [] E V) as M.
  destruct (advanceWhile_reads isValueChar (S n) s []) as (A & _ & C).
  destruct (advanceWhile isValueChar (S n) s []) as [v s1].
  intros H. injection H as <-. cbn in *. split; auto.
Qed.

Lemma scanRawBlock_moves (start : Position) (s : Scanner) :
  source (scanRawBlock start s) = source s /\
  pos s < pos (scanRawBlock start s).
Proof.
  unfold scanRawBlock, advance.
  match goal with
  | |- context [scanRawBlock_loop ?n ?x ?d ?a] =>
      destruct (scanRawBlock_loop_reads n x d a) as (A & B & _);
      destruct (scanRawBlock_loop n x d a) as [content s3]
  end.
  cbn [snd] in *. cbn [source pos addToken set_tokens] in A, B.
  destruct (trimBlankLines content);
    match goal with
    | |- context [if ?b then _ else _] => destruct b
    end; cbn; split; auto; lia.
Qed.

Lemma scanContent_moves (start : Position) (s : Scanner) :
  isAtEnd s = false ->
  eqc (peek s) c_lbrace || eqc (peek s) c_rbrace = false ->
  eqc (peek s) c_slash && canStartCommand s = false ->
  source (scanContent start s) = source s /\
  pos s < pos (scanContent start s) /\
  inCommandMode (scanContent start s) = inCommandMode s.
Proof.
  intros E B C. unfold scanContent.
  destruct (remaining_S s E) as (n & ->).
  pose proof (scanContent_loop_moves n s E B C) as M.
  destruct (scanContent_loop_reads (S n) s [] false) as (A & _ & K).
  destruct (scanContent_loop (S n) s [] false) as [content s1].
  cbn [snd] in *. destruct (trim content); cbn; auto.
Qed.

Lemma scanToken_moves (s s' : Scanner) :
  isAtEnd s = false ->
  scanToken s = Ok s' ->
  source s' = source s /\
  (pos s < pos s' \/
   (pos s' = pos s /\ inCommandMode s = true /\ inCommandMode s' = false)).
Proof.
  intros E. unfold scanToken.
  destruct ((eqc (peek s) c_space || eqc (peek s) c_tab || eqc (peek s) c_cr) &&
            (inCommandMode s || negb (canStartCommand s))).
  { intros H. injection H as <-. cbn. split; auto. left. lia. }
  destruct (eqc (peek s) c_nl).
  { intros H. injection H as <-. cbn. split; auto. left. lia. }
  destruct (eqc (peek s) c_lbrace) eqn:B1.
  { destruct (isRawBlockCommand (currentCommand s)).
    - intros H. injection H as <-.
      destruct (scanRawBlock_moves (currentPosition s) s). auto.
    - intros H. injection H as <-. cbn. split; auto. left. lia. }
  destruct (eqc (peek s) c_rbrace) eqn:B2.
  { intros H. injection H as <-. cbn. split; auto. left. lia. }
  destruct (eqc (peek s) c_slash && canStartCommand s) eqn:C.
  { intros H. apply scanCommand_moves in H. tauto. }
  destruct (inCommandMode s) eqn:M.
  { intros H. destruct (scanCommandPart_moves _ _ _ E H) as (A & [K|K]);
      split; auto; [left|right]; tauto. }
  intros H. injection H as <-.
  destruct (scanContent_moves (currentPosition s) s E) as (A & K & _); auto.
  now rewrite B1, B2.
Qed.

Lemma scanToken_stepsLeft (s s' : Scanner) :
  isAtEnd s = false -> scanToken s = Ok s' -> stepsLeft s' < stepsLeft s.
Proof.
  intros E H. destruct (scanToken_moves s s' E H) as (A & K).
  apply isAtEnd_false in E. unfold stepsLeft, remaining. rewrite A.
  destruct K as [K|(K1 & K2 & K3)].
  - destruct (inCommandMode s), (inCommandMode s'); lia.
  - rewrite K1, K2, K3. lia.
Qed.

Lemma scanToken_fuel (s : Scanner) : scanToken s <> OutOfFuel.
Proof.
  unfold scanToken, scanCommand, scanCommandPart, scanString.
  repeat match goal with
         | |- Ok _ <> OutOfFuel => discriminate
         | |- Throw _ <> OutOfFuel => discriminate
         | |- (if ?b then _ else _) <> OutOfFuel => destruct b
         | |- (let (_, _) := ?x in _) <> OutOfFuel => destruct x
         | |- match ?x with [] => _ | _ :: _ => _ end <> OutOfFuel =>
             destruct x
         end.
Qed.

Lemma tokenize_loop_total :
  forall (fuel : nat) (s : Scanner),
    stepsLeft s <= fuel -> tokenize_loop fuel s <> OutOfFuel.
Proof.
  induction fuel as [|fuel IH]; intros s F; cbn [tokenize_loop];
    destruct (isAtEnd s) eqn:E; try discriminate.
  - apply isAtEnd_false in E. unfold stepsLeft, remaining in F. lia.
  - destruct (scanToken s) as [s1| |] eqn:T; cbn [bind]; try discriminate.
    + apply IH. pose proof (scanToken_stepsLeft s s1 E T). lia.
    + now apply scanToken_fuel in T.
Qed.

(** The fuel that [run] hands to the main loop is enough: tokenizing ends
    with the tokens or with an exception. *)
Theorem tokenize_total (s : Scanner) : Tokenizer.run s <> OutOfFuel.
Proof.
  unfold Tokenizer.run.
  destruct (tokenize_loop (2 * remaining s + 1) s) eqn:T; cbn [bind];
    try discriminate.
  apply tokenize_loop_total in T; [contradiction|].
  unfold stepsLeft. destruct (inCommandMode s); lia.
Qed.

(** *** The budgets of the character loops

    Each character loop gets the number of unread characters as its budget
    (one more for the raw-block loop, whose last iteration reads nothing).
    A larger budget gives the same result: the budget never ends a loop
    that the source would continue. *)

Lemma remaining_0 (s : Scanner) : remaining s <= 0 -> isAtEnd s = true.
Proof. unfold remaining, isAtEnd. intros H. apply Nat.leb_le. lia. Qed.

Lemma remaining_reads (s s' : Scanner) (n : nat) :
  reads s s' -> pos s < pos s' -> remaining s <= S n -> remaining s' <= n.
Proof. unfold reads, remaining. intros (A & _ & _) L R. rewrite A. lia. Qed.

Lemma remaining_advance (s : Scanner) (n : nat) :
  remaining s <= S n -> remaining (snd (advance s)) <= n.
Proof.
  apply remaining_reads; [apply reads_advance|]. rewrite pos_advance. lia.
Qed.

Lemma advanceWhile_budget (p : char -> bool) :
  forall (f1 f2 : nat) (s : Scanner) (acc : jsstring),
    remaining s <= f1 -> remaining s <= f2 ->
    advanceWhile p f1 s acc = advanceWhile p f2 s acc.
Proof.
  induction f1 as [|f1 IH]; intros f2 s acc R1 R2.
  - destruct f2; cbn [advanceWhile]; [reflexivity|].
    now rewrite (remaining_0 s R1).
  - destruct f2 as [|f2]; cbn [advanceWhile].
    + now rewrite (remaining_0 s R2).
    + destruct (negb (isAtEnd s) && p (peek s)); [|reflexivity].
      pose proof (remaining_advance s f1 R1).
      pose proof (remaining_advance s f2 R2).
      destruct (advance s) as [c s1]. now apply IH.
Qed.

Lemma scanString_loop_budget :
  forall (f1 f2 : nat) (quote : char) (s : Scanner) (v : jsstring),
    remaining s <= f1 -> remaining s <= f2 ->
    scanString_loop f1 quote s v = scanString_loop f2 quote s v.
Proof.
  induction f1 as [|f1 IH]; intros f2 quote s v R1 R2.
  - destruct f2; cbn [scanString_loop]; [reflexivity|].
    now rewrite (remaining_0 s R1).
  - destruct f2 as [|f2]; cbn [scanString_loop].
    + now rewrite (remaining_0 s R2).
    + pose proof (remaining_advance s f1 R1) as A1.
      pose proof (remaining_advance s f2 R2) as A2.
      unfold advance in *. cbn [snd] in A1, A2.
      repeat match goal with
             | |- context [if ?b then _ else _] => destruct b
             end; try reflexivity; apply IH;
        unfold remaining in *; cbn [source pos nextLine set_line set_column]
          in *; lia.
Qed.

Lemma scanRawBlock_loop_closed_depth (fuel : nat) (s : Scanner)
    (content : jsstring) :
  scanRawBlock_loop fuel s 0 content = (content, s).
Proof. destruct fuel; cbn [scanRawBlock_loop]; [|rewrite andb_false_r]; auto. Qed.

Lemma scanRawBlock_loop_budget :
  forall (f1 f2 : nat) (s : Scanner) (depth : nat) (content : jsstring),
    remaining s < f1 -> remaining s < f2 ->
    scanRawBlock_loop f1 s depth content =
    scanRawBlock_loop f2 s depth content.
Proof.
  induction f1 as [|f1 IH]; intros f2 s depth content R1 R2; [lia|].
  destruct f2 as [|f2]; [lia|]. cbn [scanRawBlock_loop].
  destruct (isAtEnd s) eqn:E; [reflexivity|]. cbn [negb andb].
  apply isAtEnd_false in E.
  unfold advance.
  repeat match goal with
         | |- context [if ?b then _ else _] => destruct b eqn:?
         end; try reflexivity;
    try (apply IH; unfold remaining in *;
         cbn [source pos nextLine set_line set_column] in *; lia).
  match goal with
  | H : (0 <? depth - 1) = false |- _ =>
      apply Nat.ltb_ge in H; replace (depth - 1) with 0 by lia
  end.
  now rewrite !scanRawBlock_loop_closed_depth.
Qed.

Lemma scanContent_loop_budget :
  forall (f1 f2 : nat) (s : Scanner) (content : jsstring) (fence : bool),
    remaining s <= f1 -> remaining s <= f2 ->
    scanContent_loop f1 s content fence = scanContent_loop f2 s content fence.
Proof.
  induction f1 as [|f1 IH]; intros f2 s content fence R1 R2.
  - destruct f2; cbn [scanContent_loop]; [reflexivity|].
    now rewrite (remaining_0 s R1).
  - destruct f2 as [|f2]; cbn [scanContent_loop].
    + now rewrite (remaining_0 s R2).
    + destruct (isAtEnd s); [reflexivity|].
      pose proof (remaining_advance s f1 R1) as A1.
      pose proof (remaining_advance s f2 R2) as A2.
      destruct (eqc (peek s) c_backtick && canStartCommand s &&
                matchCodeFence s).
      { destruct (consumeCodeFence_reads s) as [R L].
        destruct (consumeCodeFence s) as [f s1]. cbn [snd] in *.
        apply IH; apply (remaining_reads s); auto. }
      destruct fence.
      { destruct (advance s) as [c s1]. cbn [snd] in *.
        destruct (eqc (peek s) c_nl); apply IH; assumption. }
      destruct (eqc (peek s) c_backtick).
      { destruct (advance s) as [c s1]. cbn [snd] in *.
        match goal with
        | |- context [advanceWhile ?p ?n ?x ?a] =>
            destruct (advanceWhile_reads p n x a) as (B1 & B2 & _);
            destruct (advanceWhile p n x a) as [code s2]
        end.
        cbn [snd] in *.
        assert (C1 : remaining s2 <= f1)
          by (unfold remaining in *; rewrite B1; lia).
        assert (C2 : remaining s2 <= f2)
          by (unfold remaining in *; rewrite B1; lia).
        destruct (eqc (peek s2) c_backtick).
        - unfold advance. apply IH; unfold remaining in *;
            cbn [source pos set_canStartCommand]; lia.
        - apply IH; assumption. }
      destruct (advance s) as [c s1]. cbn [snd] in *.
      repeat match goal with
             | |- context [if ?b then _ else _] => destruct b
             end; try reflexivity; apply IH; assumption.
Qed.

End Lexing.

(* ================================================================== *)
(** ** The parser *)
(* ================================================================== *)

Module Parsing.
Import Ast Vocabulary Examples Parser.
Import Tokenizer(TokenType(..), Token, mkToken, type, value, loc, eqType,
                 typeName).

(** *** The cursor *)

Lemma ahead_peek {p : Parser} {t : Token} {rest : list Token} :
  ahead p = t :: rest -> peek p = Some t.
Proof.
  unfold ahead, peek, tokenAt. generalize (pos p) as n.
  generalize (tokens p) as ts. induction ts as [|x ts IH]; intros n H.
  - destruct n; discriminate.
  - destruct n as [|n]; cbn in *; [congruence | auto].
Qed.

Lemma ahead_skipTokens (n : nat) (p : Parser) :
  ahead (skipTokens n p) = skipn n (ahead p).
Proof.
  unfold ahead, skipTokens. cbn. now rewrite skipn_skipn, Nat.add_comm.
Qed.

Lemma skipTokens_add (n m : nat) (p : Parser) :
  skipTokens n (skipTokens m p) = skipTokens (m + n) p.
Proof. unfold skipTokens. cbn. now rewrite Nat.add_assoc. Qed.

Lemma skipTokens_0 (p : Parser) : skipTokens 0 p = p.
Proof. destruct p. unfold skipTokens. cbn. now rewrite Nat.add_0_r. Qed.

Lemma check_ahead {p : Parser} {t : Token} {rest : list Token}
    (ty : TokenType) :
  ahead p = t :: rest -> check ty p = Ok (eqType (type t) ty).
Proof. intros H. unfold check. now rewrite (ahead_peek H). Qed.

Lemma isAtEnd_ahead {p : Parser} {t : Token} {rest : list Token} :
  ahead p = t :: rest -> isAtEnd p = Ok (eqType (type t) EOF).
Proof. intros H. unfold isAtEnd. now rewrite (ahead_peek H). Qed.

Lemma checkAny_ahead {p : Parser} {t : Token} {rest : list Token}
    (tys : list TokenType) :
  ahead p = t :: rest ->
  checkAny tys p = Ok (existsb (eqType (type t)) tys).
Proof.
  intros H. induction tys as [|ty tys IH]; [reflexivity|].
  cbn [checkAny existsb]. rewrite (check_ahead ty H). cbn [bind].
  destruct (eqType (type t) ty); [reflexivity | exact IH].
Qed.

Lemma advance_ahead {p : Parser} {t : Token} {rest : list Token} :
  ahead p = t :: rest -> eqType (type t) EOF = false ->
  advance p = Ok (Some t, skipTokens 1 p).
Proof.
  intros H E. unfold advance. rewrite (isAtEnd_ahead H), E. cbn [bind].
  unfold skipTokens. cbn [pos]. rewrite Nat.add_1_r.
  unfold tokenAt. cbn [tokens]. now rewrite <- (ahead_peek H).
Qed.

Lemma ahead_next {p : Parser} {t : Token} {rest : list Token} :
  ahead p = t :: rest -> ahead (skipTokens 1 p) = rest.
Proof. intros H. now rewrite ahead_skipTokens, H. Qed.

Lemma eqType_eq (a b : TokenType) : eqType a b = true <-> a = b.
Proof. destruct a, b; cbn; split; congruence. Qed.

Lemma eqType_is {a b : TokenType} : a = b -> eqType a b = true.
Proof. apply eqType_eq. Qed.

(** *** Flags and their values *)

Lemma parseOptionalValue_spec (p : Parser) (next : Token)
    (rest : list Token) :
  ahead p = next :: rest ->
  parseOptionalValue p =
    if isValueOrString next then Ok (Some (value next), skipTokens 1 p)
    else Ok (None, p).
Proof.
  intros H. unfold parseOptionalValue, isValueOrString.
  rewrite (checkAny_ahead _ H). cbn [existsb bind]. rewrite orb_false_r.
  destruct (eqType (type next) VALUE || eqType (type next) STRING) eqn:E;
    [|reflexivity].
  rewrite (advance_ahead H); [reflexivity|].
  destruct (type next); cbn in *; congruence.
Qed.

Lemma flagArg_spec (short : bool) (p : Parser) (flag next : Token)
    (rest : list Token) :
  ahead p = flag :: next :: rest ->
  eqType (type flag) EOF = false ->
  flagArg short p =
    if isValueOrString next
    then Ok (FlagArg (value flag) short (Some (value next)) (loc flag),
             skipTokens 2 p)
    else Ok (FlagArg (value flag) short None (loc flag), skipTokens 1 p).
Proof.
  intros H E. unfold flagArg. rewrite (advance_ahead H E). cbn [bind].
  rewrite (parseOptionalValue_spec (skipTokens 1 p) next rest (ahead_next H)).
  destruct (isValueOrString next); cbn [bind defined].
  - now rewrite skipTokens_add.
  - reflexivity.
Qed.


(** C9: the value of a flag is the text of the token after it when that
    token is a VALUE or a STRING, which the flag then consumes; with any
    other token after it the flag has no value and the token stays where it
    is.  A STRING token carries the unescaped text of the quoted string. *)
Theorem flag_value_from_value_or_string :
  (forall (fuel : nat) (p : Parser) (args : list Argument)
          (flag next : Token) (rest : list Token),
     ahead p = flag :: next :: rest ->
     type flag = LONG_FLAG \/ type flag = SHORT_FLAG ->
     let short := eqType (type flag) SHORT_FLAG in
     parseOptionalValue (skipTokens 1 p) =
       (if isValueOrString next
        then Ok (Some (value next), skipTokens 2 p)
        else Ok (None, skipTokens 1 p)) /\
     parseArgs_loop (S fuel) p args =
       (if isValueOrString next
        then parseArgs_loop fuel (skipTokens 2 p)
               (args ++ [FlagArg (value flag) short (Some (value next))
                                 (loc flag)])
        else parseArgs_loop fuel (skipTokens 1 p)
               (args ++ [FlagArg (value flag) short None (loc flag)])) /\
     ahead (skipTokens 1 p) = next :: rest /\
     ahead (skipTokens 2 p) = rest) /\
  parse src_quoted_flag =
    Ok (mkDocument
          [Command (str "t")
             [FlagArg (str "title") false
                (Some (str "say " ++ [c_dquote] ++ str "hi" ++ [c_dquote]))
                (span 1 4 3 1 11 10);
              FlagArg (str "b") true None (span 1 25 24 1 27 26)]
             None None (span 1 1 0 1 3 2)]).
Proof.
  split; [|vm_compute; reflexivity].
  intros fuel p args flag next rest H T short.
  assert (N : eqType (type flag) EOF = false)
    by (destruct T as [T|T]; rewrite T; reflexivity).
  split; [|split; [|split]].
  - rewrite (parseOptionalValue_spec (skipTokens 1 p) next rest (ahead_next H)).
    now rewrite skipTokens_add.
  - cbn [parseArgs_loop]. rewrite (isAtEnd_ahead H), N. cbn [bind].
    rewrite (checkAny_ahead _ H), !(check_ahead _ H). subst short.
    destruct T as [T|T]; rewrite T; cbn [existsb eqType orb bind];
      rewrite (flagArg_spec _ p flag next rest H N);
      destruct (isValueOrString next); reflexivity.
  - exact (ahead_next H).
  - rewrite ahead_skipTokens, H. reflexivity.
Qed.

Lemma flag_value_from_value_or_string_witness :
  parseArgs_loop 3 (mkParser tokens_quoted_flag 0) [] =
    Ok ([FlagArg (str "title") false (Some (str "a b")) (span 1 1 0 1 8 7);
         PositionalArg (str "x") (span 1 15 14 1 16 15)],
        mkParser tokens_quoted_flag 3).
Proof.
  destruct (proj1 flag_value_from_value_or_string 2
              (mkParser tokens_quoted_flag 0) []
              (mkToken LONG_FLAG (str "title") (span 1 1 0 1 8 7))
              (mkToken Tokenizer.STRING (str "a b") (span 1 9 8 1 14 13))
              [mkToken VALUE (str "x") (span 1 15 14 1 16 15);
               mkToken EOF [] (span 1 16 15 1 16 15)]
              eq_refl (or_introl eq_refl)) as (_ & E & _).
  rewrite E. reflexivity.
Defined.

(** *** Required tokens *)

Lemma consume_mismatch (ty : TokenType) (message : jsstring) (p : Parser)
    (t : Token) (rest : list Token) :
  ahead p = t :: rest ->
  eqType (type t) ty = false ->
  consume ty message p =
    Throw (ParseError
             (message ++ str ", got " ++ typeName (type t) ++
              str " at line " ++ decimal (line (start (loc t))) ++
              str ", column " ++ decimal (column (start (loc t))))
             (Some (loc t))).
Proof.
  intros H E. unfold consume, throwError, error.
  rewrite (check_ahead ty H), E, (ahead_peek H). cbn [bind defined].
  now rewrite <- !app_assoc.
Qed.

(** C6: a required token that is missing raises a [ParseError] whose
    message is the caller's description of the expected token, then the kind
    of the token found, then the line and the column where that token
    starts; a block whose children end at the end of the input raises it for
    the closing brace, and so does the example: no document is returned.
    A pipe without a name raises it for the name. *)
Theorem missing_token_error :
  (forall (ty : TokenType) (message : jsstring) (p : Parser) (t : Token)
          (rest : list Token),
     ahead p = t :: rest ->
     type t <> ty ->
     consume ty message p =
       Throw (ParseError
                (message ++ str ", got " ++ typeName (type t) ++
                 str " at line " ++ decimal (line (start (loc t))) ++
                 str ", column " ++ decimal (column (start (loc t))))
                (Some (loc t)))) /\
  (forall (children : Parser -> result (list Node * Parser))
          (p p' : Parser) (lbrace eof : Token) (rest rest' : list Token)
          (cs : list Node),
     ahead p = lbrace :: rest -> type lbrace = LBRACE ->
     children (skipTokens 1 p) = Ok (cs, p') ->
     ahead p' = eof :: rest' -> type eof = EOF ->
     parseBlock children p =
       Throw (ParseError
                (str "Expected }, got EOF at line " ++
                 decimal (line (start (loc eof))) ++
                 str ", column " ++ decimal (column (start (loc eof))))
                (Some (loc eof)))) /\
  parse src_unbalanced =
    Throw (ParseError (str "Expected }, got EOF at line 1, column 21")
                      (Some (span 1 21 20 1 21 20))) /\
  parse (str "/text a |") =
    Throw (ParseError
             (str "Expected pipe name after |, got EOF at line 1, column 10")
             (Some (span 1 10 9 1 10 9))).
Proof.
  split; [|split; [|split; vm_compute; reflexivity]].
  - intros ty message p t rest H N. apply consume_mismatch with rest; auto.
    destruct (eqType (type t) ty) eqn:E; auto. now apply eqType_eq in E.
  - intros children p p' lbrace eof rest rest' cs H L C H' E.
    unfold parseBlock, consume at 1. rewrite (check_ahead LBRACE H), L.
    cbn [eqType bind].
    rewrite (advance_ahead H) by (rewrite L; reflexivity).
    cbn [bind]. rewrite C. cbn [bind].
    rewrite (consume_mismatch RBRACE (str "Expected }") p' eof rest' H')
      by (rewrite E; reflexivity).
    rewrite E. reflexivity.
Qed.

Lemma missing_token_error_witness :
  consume RBRACE (str "Expected }")
          (mkParser [mkToken EOF [] (span 1 21 20 1 21 20)] 0) =
    Throw (ParseError (str "Expected }, got EOF at line 1, column 21")
                      (Some (span 1 21 20 1 21 20))).
Proof.
  refine (proj1 missing_token_error RBRACE (str "Expected }")
            (mkParser [mkToken EOF [] (span 1 21 20 1 21 20)] 0)
            (mkToken EOF [] (span 1 21 20 1 21 20)) [] eq_refl _).
  discriminate.
Defined.


(** *** Pipe chains *)

Lemma isValueOrString_types (t : Token) :
  isValueOrString t = true ->
  eqType (type t) EOF = false /\
  existsb (eqType (type t)) [PIPE; CONTENT; COMMAND; LBRACE; RBRACE] = false /\
  existsb (eqType (type t)) [VALUE; Tokenizer.STRING] = true.
Proof. unfold isValueOrString. destruct (type t); cbn; intuition congruence. Qed.

Lemma positionalArg_spec (p : Parser) (t : Token) (rest : list Token) :
  ahead p = t :: rest -> eqType (type t) EOF = false ->
  positionalArg p = Ok (positionalOf t, skipTokens 1 p).
Proof.
  intros H E. unfold positionalArg. now rewrite (advance_ahead H E).
Qed.

Lemma parsePipeArgs_loop_spec (ts : list Token) :
  forall (fuel : nat) (p : Parser) (acc : list Argument) (stop : Token)
         (rest : list Token),
    forallb isValueOrString ts = true ->
    ahead p = ts ++ stop :: rest ->
    isValueOrString stop = false ->
    length ts < fuel ->
    parsePipeArgs_loop fuel p acc =
      Ok (acc ++ map positionalOf ts, skipTokens (length ts) p).
Proof.
  induction ts as [|t ts IH]; intros fuel p acc stop rest V H S F;
    (destruct fuel as [|fuel]; [simpl in F; lia|]);
    cbn [parsePipeArgs_loop app] in *.
  - rewrite (isAtEnd_ahead H), !(checkAny_ahead _ H). cbn [map length].
    rewrite app_nil_r, skipTokens_0.
    unfold isValueOrString in S.
    destruct (type stop); cbn in S |- *; first [discriminate S | reflexivity].
  - cbn [forallb] in V. apply andb_prop in V. destruct V as [V1 V2].
    destruct (isValueOrString_types t V1) as (T1 & T2 & T3).
    rewrite (isAtEnd_ahead H), !(checkAny_ahead _ H), T1, T2, T3.
    cbn [bind]. rewrite (positionalArg_spec p t _ H T1). cbn [bind].
    rewrite (IH fuel (skipTokens 1 p) (acc ++ [positionalOf t]) stop rest);
      auto; [|exact (ahead_next H) | simpl in F; lia].
    rewrite skipTokens_add, <- app_assoc. reflexivity.
Qed.

Lemma chain_head (gs : list PipeSegment) (stop : Token) (rest : list Token) :
  Forall wellFormedSegment gs ->
  existsb (eqType (type stop)) [PIPE; VALUE; Tokenizer.STRING] = false ->
  exists t rest', chainTokens gs ++ stop :: rest = t :: rest' /\
                  isValueOrString t = false.
Proof.
  intros W S. destruct gs as [|g gs].
  - exists stop, rest. split; [reflexivity|]. unfold isValueOrString.
    destruct (type stop); cbn in *; congruence.
  - exists (seg_bar g), (seg_name g :: seg_args g ++ chainTokens gs ++ stop :: rest).
    split.
    + unfold chainTokens. cbn [map concat segmentTokens app].
      now rewrite <- app_assoc.
    + inversion W as [|? ? (B & _) _]. unfold isValueOrString.
      now rewrite B.
Qed.

Lemma parsePipes_loop_spec (gs : list PipeSegment) :
  forall (fuel : nat) (p : Parser) (acc : list Pipe) (stop : Token)
         (rest : list Token),
    Forall wellFormedSegment gs ->
    ahead p = chainTokens gs ++ stop :: rest ->
    existsb (eqType (type stop)) [PIPE; VALUE; Tokenizer.STRING] = false ->
    length (chainTokens gs) < fuel ->
    parsePipes_loop fuel p acc =
      Ok (acc ++ map pipeOf gs, skipTokens (length (chainTokens gs)) p).
Proof.
  induction gs as [|g gs IH]; intros fuel p acc stop rest W H S F;
    (destruct fuel as [|fuel]; [simpl in F; lia|]);
    cbn [parsePipes_loop].
  - cbn in H. rewrite (check_ahead PIPE H). cbn [map length chainTokens].
    rewrite app_nil_r. unfold chainTokens. cbn [map concat length].
    rewrite skipTokens_0.
    destruct (type stop); cbn in *; congruence.
  - inversion W as [|? ? (B & N & V) W']. subst.
    unfold chainTokens in H. cbn [map concat segmentTokens app] in H.
    rewrite <- app_assoc in H. fold (chainTokens gs) in H.
    rewrite (check_ahead PIPE H), B. cbn [eqType bind].
    rewrite (advance_ahead H) by (rewrite B; reflexivity). cbn [bind].
    pose proof (ahead_next H) as H1. unfold consume.
    rewrite (check_ahead VALUE H1), N. cbn [eqType bind].
    rewrite (advance_ahead H1) by (rewrite N; reflexivity).
    cbn [bind defined]. pose proof (ahead_next H1) as H2.
    rewrite skipTokens_add in H2 |- *.
    destruct (chain_head gs stop rest W' S) as (t & rest' & E & T).
    rewrite E in H2. unfold parsePipeArgs.
    assert (L : length (chainTokens (g :: gs)) =
                2 + length (seg_args g) + length (chainTokens gs)).
    { unfold chainTokens. cbn [map concat segmentTokens length].
      rewrite length_app. reflexivity. }
    rewrite L in F |- *.
    rewrite (parsePipeArgs_loop_spec (seg_args g) fuel (skipTokens (1 + 1) p)
               [] t rest' V H2 T) by lia.
    cbn [bind app]. rewrite <- E in H2.
    rewrite (IH fuel _ (acc ++ [pipeOf g]) stop rest W'); auto.
    + rewrite skipTokens_add, <- app_assoc. cbn [map app].
      rewrite skipTokens_add. do 3 f_equal.
    + rewrite ahead_skipTokens, H2, skipn_app, skipn_all, Nat.sub_diag.
      reflexivity.
    + lia.
Qed.


Lemma parsePipes_spec (gs : list PipeSegment) (fuel : nat) (p : Parser)
    (stop : Token) (rest : list Token) :
  Forall wellFormedSegment gs ->
  ahead p = chainTokens gs ++ stop :: rest ->
  existsb (eqType (type stop)) [PIPE; VALUE; Tokenizer.STRING] = false ->
  length (chainTokens gs) < fuel ->
  parsePipes fuel p =
    Ok (map pipeOf gs, skipTokens (length (chainTokens gs)) p).
Proof.
  intros W H S F. unfold parsePipes.
  now rewrite (parsePipes_loop_spec gs fuel p [] stop rest W H S F).
Qed.

(** C5: the pipes of a command are the segments of the chain, in the order
    of the token list; exchanging two segments of the input exchanges the
    two [Pipe] nodes of the output and nothing else.  The example parses to
    the pipes [bold] and [color red], in this order, and with the two
    segments exchanged to [color red] and [bold]. *)
Theorem pipe_chain_order :
  (forall (gs : list PipeSegment) (fuel : nat) (p : Parser) (stop : Token)
          (rest : list Token),
     Forall wellFormedSegment gs ->
     ahead p = chainTokens gs ++ stop :: rest ->
     existsb (eqType (type stop)) [PIPE; VALUE; Tokenizer.STRING] = false ->
     length (chainTokens gs) < fuel ->
     parsePipes fuel p =
       Ok (map pipeOf gs, skipTokens (length (chainTokens gs)) p)) /\
  (forall (pre mid post : list PipeSegment) (x y : PipeSegment)
          (fuel : nat) (p p' : Parser) (stop stop' : Token)
          (rest rest' : list Token),
     Forall wellFormedSegment (pre ++ x :: mid ++ y :: post) ->
     ahead p = chainTokens (pre ++ x :: mid ++ y :: post) ++ stop :: rest ->
     ahead p' = chainTokens (pre ++ y :: mid ++ x :: post) ++ stop' :: rest' ->
     existsb (eqType (type stop)) [PIPE; VALUE; Tokenizer.STRING] = false ->
     existsb (eqType (type stop')) [PIPE; VALUE; Tokenizer.STRING] = false ->
     length (chainTokens (pre ++ x :: mid ++ y :: post)) < fuel ->
     exists q q',
       parsePipes fuel p =
         Ok (map pipeOf pre ++ pipeOf x :: map pipeOf mid ++
             pipeOf y :: map pipeOf post, q) /\
       parsePipes fuel p' =
         Ok (map pipeOf pre ++ pipeOf y :: map pipeOf mid ++
             pipeOf x :: map pipeOf post, q')) /\
  parse (str "/text hello | bold | color red") =
    Ok (mkDocument
          [Command (str "text")
             [PositionalArg (str "hello") (span 1 7 6 1 12 11)]
             None
             (Some [mkPipe (str "bold") [] (span 1 15 14 1 19 18);
                    mkPipe (str "color")
                      [PositionalArg (str "red") (span 1 28 27 1 31 30)]
                      (span 1 22 21 1 27 26)])
             (span 1 1 0 1 6 5)]) /\
  parse (str "/text hello | color red | bold") =
    Ok (mkDocument
          [Command (str "text")
             [PositionalArg (str "hello") (span 1 7 6 1 12 11)]
             None
             (Some [mkPipe (str "color")
                      [PositionalArg (str "red") (span 1 21 20 1 24 23)]
                      (span 1 15 14 1 20 19);
                    mkPipe (str "bold") [] (span 1 27 26 1 31 30)])
             (span 1 1 0 1 6 5)]).
Proof.
  split; [exact parsePipes_spec|].
  split; [|split; vm_compute; reflexivity].
  intros pre mid post x y fuel p p' stop stop' rest rest' W H H' S S' F.
  assert (W' : Forall wellFormedSegment (pre ++ y :: mid ++ x :: post)).
  { rewrite Forall_forall in *. intros g G. apply W.
    rewrite !in_app_iff in *. cbn [In] in *. rewrite !in_app_iff in *.
    cbn [In] in *. tauto. }
  assert (F' : length (chainTokens (pre ++ y :: mid ++ x :: post)) < fuel).
  { unfold chainTokens in *.
    rewrite !map_app, !concat_app, !length_app in *. cbn [map concat] in *.
    rewrite !length_app, !map_app, !concat_app, !length_app in *.
    cbn [map concat] in *. rewrite !length_app in *. lia. }
  rewrite (parsePipes_spec _ fuel p stop rest W H S F).
  rewrite (parsePipes_spec _ fuel p' stop' rest' W' H' S' F').
  do 2 eexists. rewrite !map_app. cbn [map]. rewrite !map_app. cbn [map].
  split; reflexivity.
Qed.

Lemma pipe_chain_order_witness :
  parsePipes 6 (mkParser tokens_chain 0) =
    Ok ([mkPipe (str "bold") [] (span 1 15 14 1 19 18);
         mkPipe (str "color")
           [PositionalArg (str "red") (span 1 28 27 1 31 30)]
           (span 1 22 21 1 27 26)],
        mkParser tokens_chain 5).
Proof.
  refine (proj1 pipe_chain_order
            [mkSegment (mkToken PIPE (str "|") (span 1 13 12 1 14 13))
                       (mkToken VALUE (str "bold") (span 1 15 14 1 19 18)) [];
             mkSegment (mkToken PIPE (str "|") (span 1 20 19 1 21 20))
                       (mkToken VALUE (str "color") (span 1 22 21 1 27 26))
                       [mkToken VALUE (str "red") (span 1 28 27 1 31 30)]]
            6 (mkParser tokens_chain 0)
            (mkToken EOF [] (span 1 31 30 1 31 30)) [] _ eq_refl eq_refl _).
  - repeat constructor.
  - cbn. lia.
Defined.


(** *** Blocks exclude pipes *)

Lemma parseBlock_children (children : Parser -> result (list Node * Parser))
    (p p' : Parser) (b : Block) :
  parseBlock children p = Ok (b, p') ->
  exists q q' cs l, children q = Ok (cs, q') /\ b = mkBlock cs l.
Proof.
  unfold parseBlock. intros H. munch.
  do 4 eexists. split; [eassumption | reflexivity].
Qed.

Lemma parseCommand_exclusive (fuel : nat)
    (children : Parser -> result (list Node * Parser)) (p p' : Parser)
    (c : Node) :
  (forall q cs q', children q = Ok (cs, q') -> forallb exclusive cs = true) ->
  parseCommand fuel children p = Ok (c, p') ->
  exclusive c = true.
Proof.
  intros IH. unfold parseCommand. intros H. munch; try reflexivity.
  match goal with
  | B : parseBlock _ _ = Ok _ |- _ =>
      destruct (parseBlock_children _ _ _ _ B) as (? & ? & ? & ? & ? & ->)
  end.
  cbn. eauto.
Qed.

Lemma forallb_snoc {A : Type} (f : A -> bool) (l : list A) (x : A) :
  forallb f l = true -> f x = true -> forallb f (l ++ [x]) = true.
Proof. intros L X. rewrite forallb_app, L. cbn. now rewrite X. Qed.

Lemma parseChildren_loop_exclusive :
  forall (fuel : nat) (p p' : Parser) (cs r : list Node),
    forallb exclusive cs = true ->
    parseChildren_loop fuel p cs = Ok (r, p') ->
    forallb exclusive r = true.
Proof.
  induction fuel as [|fuel IH]; intros p p' cs r C H; [discriminate H|].
  cbn [parseChildren_loop] in H. unfold throwError, parseContent in H.
  munch; auto.
  - match goal with
    | K : parseCommand _ _ _ = Ok _, L : parseChildren_loop _ _ _ = Ok _ |- _ =>
        apply (IH _ _ _ _ (forallb_snoc _ _ _ C
                 (parseCommand_exclusive _ _ _ _ _
                    (fun q cs' q' => IH q q' [] cs' eq_refl) K)) L)
    end.
  - match goal with
    | L : parseChildren_loop _ _ _ = Ok _ |- _ =>
        eapply IH; [|exact L]; apply forallb_snoc; [exact C | reflexivity]
    end.
  - eauto.
Qed.

Lemma exclusive_occurs (n : Node) (cs : list Node) :
  occurs n cs -> forallb exclusive cs = true -> exclusive n = true.
Proof.
  intros O. induction O as [cs I|name args inner l pipes loc cs I O IH];
    intros E; rewrite forallb_forall in E.
  - auto.
  - apply E in I. cbn in I. destruct pipes; [discriminate I | auto].
Qed.

Lemma run_exclusive (p : Parser) (doc : Document) :
  run p = Ok doc -> forallb exclusive (children doc) = true.
Proof.
  unfold run, parseChildren. intros H. munch.
  match goal with
  | L : parseChildren_loop _ _ _ = Ok _ |- _ =>
      now apply parseChildren_loop_exclusive in L
  end.
Qed.

(** C2: in the document of a successful parse, a command that has a block
    has no pipes, at any depth of nesting. *)
Theorem block_excludes_pipes (src : jsstring) (doc : Document)
    (name : jsstring) (args : list Argument) (b : Block)
    (pipes : option (list Pipe)) (loc : Location) :
  parse src = Ok doc ->
  occurs (Command name args (Some b) pipes loc) (children doc) ->
  pipes = None.
Proof.
  unfold parse. intros H O. unbind H. apply run_exclusive in H.
  pose proof (exclusive_occurs _ _ O H) as X. cbn in X.
  destruct b, pipes; [discriminate X | reflexivity].
Qed.


Lemma block_excludes_pipes_witness :
  parse src_nested = Ok (mkDocument [node_nested]) /\
  @None (list Pipe) = None.
Proof.
  assert (P : parse src_nested = Ok (mkDocument [node_nested]))
    by (vm_compute; reflexivity).
  split; [exact P|].
  refine (block_excludes_pipes src_nested _ (str "columns") [] _ None
            (span 1 1 0 1 9 8) P _).
  apply occurs_here. left. reflexivity.
Defined.

(** *** The parser never runs out of fuel *)

Lemma bind_fuel {A B : Type} (m : result A) (k : A -> result B) :
  m <> OutOfFuel -> (forall a, m = Ok a -> k a <> OutOfFuel) ->
  bind m k <> OutOfFuel.
Proof. destruct m; cbn; auto. congruence. Qed.

(** Splits a goal [... <> OutOfFuel] along the binds and the tests. *)
Ltac fuel_step :=
  match goal with
  | |- Ok _ <> OutOfFuel => discriminate
  | |- Throw _ <> OutOfFuel => discriminate
  | |- bind _ _ <> OutOfFuel => apply bind_fuel; [|intros ? ?]
  | |- (if ?b then _ else _) <> OutOfFuel => destruct b eqn:?
  | |- (let (_, _) := ?x in _) <> OutOfFuel => destruct x eqn:?
  | |- match ?x with Some _ => _ | None => _ end <> OutOfFuel =>
      destruct x eqn:?
  end.

Lemma defined_fuel (t : option Token) : defined t <> OutOfFuel.
Proof. destruct t; discriminate. Qed.

Lemma isAtEnd_fuel (p : Parser) : isAtEnd p <> OutOfFuel.
Proof. unfold isAtEnd. repeat fuel_step. apply defined_fuel. Qed.

Lemma check_fuel (ty : TokenType) (p : Parser) : check ty p <> OutOfFuel.
Proof. unfold check. repeat fuel_step. apply defined_fuel. Qed.

Lemma checkAny_fuel (tys : list TokenType) (p : Parser) :
  checkAny tys p <> OutOfFuel.
Proof.
  induction tys; cbn [checkAny]; repeat fuel_step; auto using check_fuel.
Qed.

Lemma advance_fuel (p : Parser) : advance p <> OutOfFuel.
Proof. unfold advance. repeat fuel_step. apply isAtEnd_fuel. Qed.

Lemma throwError_fuel {A : Type} (m : jsstring) (p : Parser) :
  @throwError A m p <> OutOfFuel.
Proof.
  unfold throwError, error. repeat fuel_step. apply defined_fuel.
Qed.

Lemma consume_fuel (ty : TokenType) (m : jsstring) (p : Parser) :
  consume ty m p <> OutOfFuel.
Proof.
  unfold consume. repeat fuel_step;
    auto using check_fuel, advance_fuel, defined_fuel, throwError_fuel.
Qed.

Lemma parseOptionalValue_fuel (p : Parser) :
  parseOptionalValue p <> OutOfFuel.
Proof.
  unfold parseOptionalValue. repeat fuel_step;
    auto using checkAny_fuel, advance_fuel, defined_fuel.
Qed.

Lemma flagArg_fuel (short : bool) (p : Parser) : flagArg short p <> OutOfFuel.
Proof.
  unfold flagArg. repeat fuel_step;
    auto using parseOptionalValue_fuel, advance_fuel, defined_fuel.
Qed.

Lemma positionalArg_fuel (p : Parser) : positionalArg p <> OutOfFuel.
Proof.
  unfold positionalArg. repeat fuel_step;
    auto using advance_fuel, defined_fuel.
Qed.

Lemma parseContent_fuel (p : Parser) : parseContent p <> OutOfFuel.
Proof.
  unfold parseContent. repeat fuel_step;
    auto using consume_fuel, defined_fuel.
Qed.

(** How far a call moves the cursor. *)

Lemma isAtEnd_inside (p : Parser) (b : bool) :
  isAtEnd p = Ok b -> pos p < length (tokens p).
Proof.
  unfold isAtEnd, peek, tokenAt. intros H.
  destruct (nth_error (tokens p) (pos p)) eqn:E; [|discriminate H].
  apply nth_error_Some. congruence.
Qed.

Lemma check_inside (ty : TokenType) (p : Parser) (b : bool) :
  check ty p = Ok b -> pos p < length (tokens p).
Proof.
  unfold check, peek, tokenAt. intros H.
  destruct (nth_error (tokens p) (pos p)) eqn:E; [|discriminate H].
  apply nth_error_Some. congruence.
Qed.

Lemma check_not_end (ty : TokenType) (p : Parser) :
  check ty p = Ok true -> ty <> EOF -> isAtEnd p = Ok false.
Proof.
  unfold check, isAtEnd. destruct (defined (peek p)); cbn; try discriminate.
  intros H N. injection H as H. apply eqType_eq in H.
  destruct (type a); cbn; congruence.
Qed.

Lemma checkAny_not_end (tys : list TokenType) (p : Parser) :
  checkAny tys p = Ok true -> ~ In EOF tys -> isAtEnd p = Ok false.
Proof.
  induction tys as [|ty tys IH]; cbn [checkAny In]; [discriminate|].
  intros H N. destruct (check ty p) as [[|]| |] eqn:C; cbn in H;
    try discriminate H.
  - apply (check_not_end ty); auto.
  - apply IH; auto.
Qed.

Lemma advance_moves (p p' : Parser) (t : option Token) :
  advance p = Ok (t, p') ->
  tokens p' = tokens p /\ pos p <= pos p' /\
  (isAtEnd p = Ok false -> pos p' = pos p + 1).
Proof.
  unfold advance. intros H. destruct (isAtEnd p) as [[|]| |]; cbn in H;
    try discriminate H; injection H as _ <-; cbn; repeat split; auto; try lia.
  discriminate.
Qed.

Lemma consume_moves (ty : TokenType) (m : jsstring) (p p' : Parser)
    (t : option Token) :
  consume ty m p = Ok (t, p') -> ty <> EOF ->
  tokens p' = tokens p /\ pos p' = pos p + 1.
Proof.
  unfold consume. intros H N. destruct (check ty p) as [[|]| |] eqn:C;
    cbn in H; try discriminate H.
  - destruct (advance_moves _ _ _ H) as (T & _ & K).
    split; [exact T|]. apply K. now apply (check_not_end ty).
  - unfold throwError in H. munch.
Qed.

Lemma consume_inside (ty : TokenType) (m : jsstring) (p p' : Parser)
    (t : option Token) :
  consume ty m p = Ok (t, p') -> pos p < length (tokens p).
Proof.
  unfold consume. intros H. destruct (check ty p) as [b| |] eqn:C;
    cbn in H; try discriminate H. now apply check_inside in C.
Qed.

Lemma parseOptionalValue_moves (p p' : Parser) (v : option jsstring) :
  parseOptionalValue p = Ok (v, p') ->
  tokens p' = tokens p /\ pos p <= pos p'.
Proof.
  unfold parseOptionalValue. intros H. munch; [|auto].
  match goal with
  | A : advance _ = Ok _ |- _ => destruct (advance_moves _ _ _ A); tauto
  end.
Qed.

Lemma flagArg_moves (short : bool) (p p' : Parser) (a : Argument) :
  flagArg short p = Ok (a, p') -> isAtEnd p = Ok false ->
  tokens p' = tokens p /\ pos p < pos p'.
Proof.
  unfold flagArg. intros H E. munch.
  match goal with
  | A : advance _ = Ok _, V : parseOptionalValue _ = Ok _ |- _ =>
      destruct (advance_moves _ _ _ A) as (T1 & _ & K);
      destruct (parseOptionalValue_moves _ _ _ V) as (T2 & L)
  end.
  specialize (K E). split; [congruence | lia].
Qed.

Lemma positionalArg_moves (p p' : Parser) (a : Argument) :
  positionalArg p = Ok (a, p') -> isAtEnd p = Ok false ->
  tokens p' = tokens p /\ pos p < pos p'.
Proof.
  unfold positionalArg. intros H E. munch.
  match goal with
  | A : advance _ = Ok _ |- _ =>
      destruct (advance_moves _ _ _ A) as (T1 & _ & K)
  end.
  specialize (K E). split; [congruence | lia].
Qed.

Lemma parseArgs_loop_moves :
  forall (fuel : nat) (p p' : Parser) (args r : list Argument),
    parseArgs_loop fuel p args = Ok (r, p') ->
    tokens p' = tokens p /\ pos p <= pos p'.
Proof.
  induction fuel as [|fuel IH]; intros p p' args r H; [discriminate H|].
  cbn [parseArgs_loop] in H. munch; auto;
    match goal with
    | A : flagArg _ _ = Ok _, L : parseArgs_loop _ _ _ = Ok _ |- _ =>
        destruct (flagArg_moves _ _ _ _ A) as (T1 & K); auto;
        destruct (IH _ _ _ _ L) as (T2 & K2)
    | A : positionalArg _ = Ok _, L : parseArgs_loop _ _ _ = Ok _ |- _ =>
        destruct (positionalArg_moves _ _ _ A) as (T1 & K); auto;
        destruct (IH _ _ _ _ L) as (T2 & K2)
    end; split; (congruence || lia).
Qed.

Lemma parseArgs_loop_fuel :
  forall (fuel : nat) (p : Parser) (args : list Argument),
    length (tokens p) - pos p < fuel ->
    parseArgs_loop fuel p args <> OutOfFuel.
Proof.
  induction fuel as [|fuel IH]; intros p args F; [lia|].
  cbn [parseArgs_loop].
  repeat fuel_step;
    auto using isAtEnd_fuel, checkAny_fuel, check_fuel, flagArg_fuel,
               positionalArg_fuel;
    apply IH;
    match goal with
    | E : isAtEnd ?p = Ok false, A : flagArg _ ?p = Ok _ |- _ =>
        destruct (flagArg_moves _ _ _ _ A E) as (T & K)
    | E : isAtEnd ?p = Ok false, A : positionalArg ?p = Ok _ |- _ =>
        destruct (positionalArg_moves _ _ _ A E) as (T & K)
    end;
    match goal with
    | E : isAtEnd _ = Ok false |- _ => apply isAtEnd_inside in E
    end; cbn [fst snd] in *; rewrite T; lia.
Qed.

Lemma parsePipeArgs_loop_moves :
  forall (fuel : nat) (p p' : Parser) (args r : list Argument),
    parsePipeArgs_loop fuel p args = Ok (r, p') ->
    tokens p' = tokens p /\ pos p <= pos p'.
Proof.
  induction fuel as [|fuel IH]; intros p p' args r H; [discriminate H|].
  cbn [parsePipeArgs_loop] in H. munch; auto;
    match goal with
    | A : positionalArg _ = Ok _, L : parsePipeArgs_loop _ _ _ = Ok _ |- _ =>
        destruct (positionalArg_moves _ _ _ A) as (T1 & K); auto;
        destruct (IH _ _ _ _ L) as (T2 & K2)
    end; split; (congruence || lia).
Qed.

Lemma parsePipeArgs_loop_fuel :
  forall (fuel : nat) (p : Parser) (args : list Argument),
    length (tokens p) - pos p < fuel ->
    parsePipeArgs_loop fuel p args <> OutOfFuel.
Proof.
  induction fuel as [|fuel IH]; intros p args F; [lia|].
  cbn [parsePipeArgs_loop].
  repeat fuel_step;
    auto using isAtEnd_fuel, checkAny_fuel, check_fuel, positionalArg_fuel;
    apply IH;
    match goal with
    | E : isAtEnd ?p = Ok false, A : positionalArg ?p = Ok _ |- _ =>
        destruct (positionalArg_moves _ _ _ A E) as (T & K)
    end;
    match goal with
    | E : isAtEnd _ = Ok false |- _ => apply isAtEnd_inside in E
    end; cbn [fst snd] in *; rewrite T; lia.
Qed.

Lemma parsePipes_loop_moves :
  forall (fuel : nat) (p p' : Parser) (pipes r : list Pipe),
    parsePipes_loop fuel p pipes = Ok (r, p') ->
    tokens p' = tokens p /\ pos p <= pos p'.
Proof.
  induction fuel as [|fuel IH]; intros p p' pipes r H; [discriminate H|].
  cbn [parsePipes_loop] in H. unfold parsePipeArgs in H. munch; auto.
  match goal with
  | A : advance _ = Ok _, C : consume _ _ _ = Ok _,
    G : parsePipeArgs_loop _ _ _ = Ok _, L : parsePipes_loop _ _ _ = Ok _ |- _ =>
      destruct (advance_moves _ _ _ A) as (T1 & K1 & _);
      destruct (consume_moves _ _ _ _ _ C) as (T2 & K2); [discriminate|];
      destruct (parsePipeArgs_loop_moves _ _ _ _ _ G) as (T3 & K3);
      destruct (IH _ _ _ _ L) as (T4 & K4)
  end.
  split; (congruence || lia).
Qed.

Lemma parsePipes_loop_fuel :
  forall (fuel : nat) (p : Parser) (pipes : list Pipe),
    length (tokens p) - pos p < fuel ->
    parsePipes_loop fuel p pipes <> OutOfFuel.
Proof.
  induction fuel as [|fuel IH]; intros p pipes F; [lia|].
  cbn [parsePipes_loop]. unfold parsePipeArgs.
  repeat fuel_step;
    auto using check_fuel, advance_fuel, consume_fuel, defined_fuel;
    match goal with
    | A : advance ?p = Ok _, C : consume _ _ _ = Ok _ |- _ =>
        destruct (advance_moves _ _ _ A) as (T1 & K1 & _);
        destruct (consume_moves _ _ _ _ _ C) as (T2 & K2); [discriminate|];
        cbn [fst snd] in *
    end;
    match goal with
    | A : check PIPE _ = Ok true |- _ => apply check_inside in A
    end.
  - apply parsePipeArgs_loop_fuel. rewrite T2, T1. lia.
  - match goal with
    | G : parsePipeArgs_loop _ _ _ = Ok _ |- _ =>
        destruct (parsePipeArgs_loop_moves _ _ _ _ _ G) as (T3 & K3)
    end.
    apply IH. cbn [fst snd] in *. rewrite T3, T2, T1. lia.
Qed.

Lemma parseBlock_moves (children : Parser -> result (list Node * Parser))
    (p p' : Parser) (b : Block) :
  (forall q cs q', children q = Ok (cs, q') ->
                   tokens q' = tokens q /\ pos q <= pos q') ->
  parseBlock children p = Ok (b, p') ->
  tokens p' = tokens p /\ pos p < pos p'.
Proof.
  intros C. unfold parseBlock. intros H. munch.
  match goal with
  | A : consume LBRACE _ _ = Ok _, K : children _ = Ok _,
    B : consume RBRACE _ _ = Ok _ |- _ =>
      destruct (consume_moves _ _ _ _ _ A) as (T1 & K1); [discriminate|];
      destruct (C _ _ _ K) as (T2 & K2);
      destruct (consume_moves _ _ _ _ _ B) as (T3 & K3); [discriminate|]
  end.
  split; (congruence || lia).
Qed.

Lemma parseCommand_moves (fuel : nat)
    (children : Parser -> result (list Node * Parser)) (p p' : Parser)
    (c : Node) :
  (forall q cs q', children q = Ok (cs, q') ->
                   tokens q' = tokens q /\ pos q <= pos q') ->
  parseCommand fuel children p = Ok (c, p') ->
  tokens p' = tokens p /\ pos p < pos p'.
Proof.
  intros C. unfold parseCommand, parseArgs, parsePipes. intros H. munch;
    match goal with
    | A : consume COMMAND _ _ = Ok _, G : parseArgs_loop _ _ _ = Ok _ |- _ =>
        destruct (consume_moves _ _ _ _ _ A) as (T1 & K1); [discriminate|];
        destruct (parseArgs_loop_moves _ _ _ _ _ G) as (T2 & K2)
    end;
    try match goal with
    | B : parseBlock _ _ = Ok _ |- _ =>
        destruct (parseBlock_moves _ _ _ _ C B) as (T3 & K3)
    end;
    try match goal with
    | B : parsePipes_loop _ _ _ = Ok _ |- _ =>
        destruct (parsePipes_loop_moves _ _ _ _ _ B) as (T3 & K3)
    end;
    split; (congruence || lia).
Qed.

Lemma parseBlock_fuel (fuel : nat)
    (children : Parser -> result (list Node * Parser)) (p : Parser) :
  (forall q, length (tokens q) - pos q < fuel -> children q <> OutOfFuel) ->
  length (tokens p) - pos p <= fuel ->
  parseBlock children p <> OutOfFuel.
Proof.
  intros E F. unfold parseBlock.
  apply bind_fuel; [apply consume_fuel | intros [t p1] H1].
  pose proof (consume_inside _ _ _ _ _ H1) as I1.
  apply consume_moves in H1; [destruct H1 as [T1 K1] | discriminate].
  apply bind_fuel; [apply E; rewrite T1; lia | intros [cs p2] _].
  repeat fuel_step; auto using consume_fuel, defined_fuel.
Qed.

Lemma parseCommand_fuel (fuel : nat)
    (children : Parser -> result (list Node * Parser)) (p : Parser) :
  (forall q, length (tokens q) - pos q < fuel -> children q <> OutOfFuel) ->
  length (tokens p) - pos p <= fuel ->
  parseCommand fuel children p <> OutOfFuel.
Proof.
  intros E F. unfold parseCommand, parseArgs, parsePipes.
  apply bind_fuel; [apply consume_fuel | intros [t p1] H1].
  pose proof (consume_inside _ _ _ _ _ H1) as I1.
  apply consume_moves in H1; [destruct H1 as [T1 K1] | discriminate].
  apply bind_fuel; [apply defined_fuel | intros tok _].
  apply bind_fuel;
    [apply parseArgs_loop_fuel; rewrite T1; lia | intros [args p2] H2].
  apply parseArgs_loop_moves in H2. destruct H2 as [T2 K2].
  apply bind_fuel; [apply check_fuel | intros hasBlock H3].
  apply bind_fuel.
  - destruct hasBlock; [|discriminate].
    apply bind_fuel; [|intros [b q] _; discriminate].
    apply (parseBlock_fuel fuel); [exact E | rewrite T2, T1; lia].
  - intros [block p3] H4.
    apply bind_fuel; [|intros [pipes p4] _; discriminate].
    destruct block; [discriminate|].
    destruct hasBlock; [munch|]. injection H4 as <-.
    apply bind_fuel; [apply check_fuel | intros hasPipe H5].
    destruct hasPipe; [|discriminate].
    apply bind_fuel; [|intros [ps q] _; discriminate].
    apply parsePipes_loop_fuel. rewrite T2, T1. lia.
Qed.

Lemma parseChildren_loop_moves :
  forall (fuel : nat) (p p' : Parser) (cs r : list Node),
    parseChildren_loop fuel p cs = Ok (r, p') ->
    tokens p' = tokens p /\ pos p <= pos p'.
Proof.
  induction fuel as [|fuel IH]; intros p p' cs r H; [discriminate H|].
  cbn [parseChildren_loop] in H. unfold throwError, parseContent in H.
  munch; auto.
  - match goal with
    | K : parseCommand _ _ _ = Ok _, L : parseChildren_loop _ _ _ = Ok _ |- _ =>
        destruct (parseCommand_moves _ _ _ _ _
                    (fun q cs' q' => IH q q' [] cs') K) as (T1 & K1);
        destruct (IH _ _ _ _ L) as (T2 & K2)
    end.
    split; (congruence || lia).
  - match goal with
    | K : consume _ _ _ = Ok _, L : parseChildren_loop _ _ _ = Ok _ |- _ =>
        destruct (consume_moves _ _ _ _ _ K) as (T1 & K1); [discriminate|];
        destruct (IH _ _ _ _ L) as (T2 & K2)
    end.
    split; (congruence || lia).
  - match goal with
    | K : advance _ = Ok _, L : parseChildren_loop _ _ _ = Ok _ |- _ =>
        destruct (advance_moves _ _ _ K) as (T1 & K1 & _);
        destruct (IH _ _ _ _ L) as (T2 & K2)
    end.
    split; (congruence || lia).
Qed.

Lemma parseChildren_loop_fuel :
  forall (fuel : nat) (p : Parser) (cs : list Node),
    length (tokens p) - pos p < fuel ->
    parseChildren_loop fuel p cs <> OutOfFuel.
Proof.
  induction fuel as [|fuel IH]; intros p cs F; [lia|].
  cbn [parseChildren_loop].
  apply bind_fuel; [apply isAtEnd_fuel | intros atEnd H1].
  destruct atEnd; [discriminate|].
  pose proof (isAtEnd_inside _ _ H1) as I1.
  apply bind_fuel; [apply check_fuel | intros closing _].
  destruct closing; [discriminate|].
  apply bind_fuel; [apply check_fuel | intros isCommand _].
  destruct isCommand.
  { apply bind_fuel.
    - apply parseCommand_fuel; [|lia]. intros q Q. now apply IH.
    - intros [c p1] H2.
      destruct (parseCommand_moves _ _ _ _ _
                  (fun q cs' q' => parseChildren_loop_moves fuel q q' [] cs')
                  H2) as (T1 & K1).
      apply IH. rewrite T1. lia. }
  apply bind_fuel; [apply check_fuel | intros isContent _].
  destruct isContent.
  { apply bind_fuel; [apply parseContent_fuel | intros [c p1] H2].
    unfold parseContent in H2. munch.
    match goal with
    | K : consume _ _ _ = Ok _ |- _ =>
        destruct (consume_moves _ _ _ _ _ K) as (T1 & K1); [discriminate|]
    end.
    apply IH. rewrite T1. lia. }
  apply bind_fuel; [apply check_fuel | intros opening _].
  destruct opening; [apply throwError_fuel|].
  apply bind_fuel; [apply advance_fuel | intros [t p1] H2].
  destruct (advance_moves _ _ _ H2) as (T1 & _ & K1).
  specialize (K1 H1). apply IH. rewrite T1. lia.
Qed.

(** The fuel that [run] hands to [parseChildren] is enough: a parse ends
    with a document or with an exception. *)
Theorem parse_total (p : Parser) : run p <> OutOfFuel.
Proof.
  unfold run, parseChildren.
  apply bind_fuel; [|intros [cs q] _; discriminate].
  apply parseChildren_loop_fuel. lia.
Qed.

End Parsing.

(* ================================================================== *)
(** ** From the source to the document *)
(* ================================================================== *)

Module Pipeline.
Import Ast Tokenizer Vocabulary Examples Lexing.

#[local] Arguments isAtEnd : simpl never.
#[local] Arguments peek : simpl never.
#[local] Arguments peekNext : simpl never.
#[local] Arguments advance : simpl never.
#[local] Arguments remaining : simpl never.
#[local] Arguments unread : simpl never.
#[local] Arguments advanceBy : simpl never.
#[local] Arguments moveOver : simpl never.

Lemma run_block_with_content (name t : jsstring) (l0 l1 l2 l3 l4 : Location) :
  Parser.run
    (Parser.mkParser
       [mkToken COMMAND name l0; mkToken LBRACE [c_lbrace] l1;
        mkToken CONTENT t l2; mkToken RBRACE [c_rbrace] l3;
        mkToken EOF [] l4] 0) =
  Ok (mkDocument
        [Command name []
           (Some (mkBlock [Content t l2] (mkLocation (start l1) (end_ l3))))
           None l0]).
Proof. reflexivity. Qed.

Lemma run_block_without_content (name : jsstring) (l0 l1 l3 l4 : Location) :
  Parser.run
    (Parser.mkParser
       [mkToken COMMAND name l0; mkToken LBRACE [c_lbrace] l1;
        mkToken RBRACE [c_rbrace] l3; mkToken EOF [] l4] 0) =
  Ok (mkDocument
        [Command name []
           (Some (mkBlock [] (mkLocation (start l1) (end_ l3)))) None l0]).
Proof. reflexivity. Qed.

Lemma run_open_block_with_content (name t : jsstring)
    (l0 l1 l2 l4 : Location) :
  Parser.run
    (Parser.mkParser
       [mkToken COMMAND name l0; mkToken LBRACE [c_lbrace] l1;
        mkToken CONTENT t l2; mkToken EOF [] l4] 0) =
  Throw (ParseError
           (str "Expected }, got EOF at line " ++
            decimal (Ast.line (start l4)) ++
            str ", column " ++ decimal (Ast.column (start l4)))
           (Some l4)).
Proof. reflexivity. Qed.

Lemma run_open_block_without_content (name : jsstring)
    (l0 l1 l4 : Location) :
  Parser.run
    (Parser.mkParser
       [mkToken COMMAND name l0; mkToken LBRACE [c_lbrace] l1;
        mkToken EOF [] l4] 0) =
  Throw (ParseError
           (str "Expected }, got EOF at line " ++
            decimal (Ast.line (start l4)) ++
            str ", column " ++ decimal (Ast.column (start l4)))
           (Some l4)).
Proof. reflexivity. Qed.

Lemma parse_raw_block (name body : jsstring) :
  In name RAW_BLOCK_COMMANDS ->
  balanced body ->
  let lb := positionAfter sourceStart (c_slash :: name ++ [c_space]) in
  let opened := stepPosition lb c_lbrace in
  Parser.parse (c_slash :: name ++ str " {" ++ body ++ [c_rbrace]) =
    Ok (mkDocument
          [Command name []
             (Some (mkBlock (rawBlockChildren opened body)
                      (mkLocation lb
                         (stepPosition (positionAfter opened body)
                                       c_rbrace))))
             None
             (mkLocation sourceStart
                (positionAfter sourceStart (c_slash :: name)))]).
Proof.
  intros I B lb opened. unfold Parser.parse.
  rewrite (run_raw_block name body true I B). cbn [bind].
  unfold rawBlockTokens, rawBlockChildren. cbv zeta. fold lb. fold opened.
  destruct (trimBlankLines body); cbn [app].
  - apply run_block_without_content.
  - apply run_block_with_content.
Qed.

Lemma parse_open_raw_block (name body : jsstring) :
  In name RAW_BLOCK_COMMANDS ->
  unclosed body ->
  let e := positionAfter sourceStart (c_slash :: name ++ str " {" ++ body) in
  Parser.parse (c_slash :: name ++ str " {" ++ body) =
    Throw (ParseError
             (str "Expected }, got EOF at line " ++ decimal (Ast.line e) ++
              str ", column " ++ decimal (Ast.column e))
             (Some (mkLocation e e))).
Proof.
  intros I B e. unfold Parser.parse.
  pose proof (run_raw_block name body false I B) as T. cbv zeta in T.
  rewrite app_nil_r in T. fold e in T. rewrite T. cbn [bind].
  unfold rawBlockTokens. cbv zeta.
  destruct (trimBlankLines body); cbn [app].
  - apply run_open_block_without_content.
  - apply run_open_block_with_content.
Qed.


(** C3, as the code has it: at the left brace that follows a raw-block
    command, [scanToken] reads up to the matching right brace, nested braces
    included, and emits LBRACE, one CONTENT token with the body after
    [trimBlankLines], and RBRACE; when the body is blank no CONTENT token is
    emitted.  [trimBlankLines] removes blank lines at both ends and keeps
    the lines between them as they are.  The parsed command has that text
    as the only child of its block, so a line that looks like a command
    stays text. *)
Theorem raw_block_verbatim :
  (forall (s : Scanner) (body tail : jsstring),
     isRawBlockCommand (currentCommand s) = true ->
     unread s = c_lbrace :: body ++ c_rbrace :: tail ->
     balanced body ->
     exists s',
       scanToken s = Ok s' /\
       tokens s' = tokens s ++ rawBlockTokens (currentPosition s) body true /\
       unread s' = tail /\
       canStartCommand s' = true /\ inCommandMode s' = false) /\
  (forall text : jsstring,
     exists pre kept post,
       split_nl text = pre ++ kept ++ post /\
       forallb blank pre = true /\ forallb blank post = true /\
       trimBlankLines text = join_nl kept /\
       match kept with
       | l :: _ => blank l = false /\ blank (last kept []) = false
       | [] => True
       end) /\
  (forall name body : jsstring,
     In name RAW_BLOCK_COMMANDS ->
     balanced body ->
     let lb := positionAfter sourceStart (c_slash :: name ++ [c_space]) in
     let opened := stepPosition lb c_lbrace in
     Parser.parse (c_slash :: name ++ str " {" ++ body ++ [c_rbrace]) =
       Ok (mkDocument
             [Command name []
                (Some (mkBlock (rawBlockChildren opened body)
                         (mkLocation lb
                            (stepPosition (positionAfter opened body)
                                          c_rbrace))))
                None
                (mkLocation sourceStart
                   (positionAfter sourceStart (c_slash :: name)))])) /\
  Parser.parse src_code_block =
    Ok (mkDocument
          [Command (str "code") []
             (Some (mkBlock
                      [Content (str "  /page A4" ++ [c_nl] ++ str "  x {y}")
                               (span 1 8 7 4 1 27)]
                      (span 1 7 6 4 2 28)))
             None (span 1 1 0 1 6 5)]).
Proof.
  split; [|split; [|split]].
  - intros s body tail R U B.
    destruct (scanToken_raw_closed s body tail R U B)
      as (s' & T & K1 & K2 & _ & _ & K3 & K4 & _).
    exists s'. auto.
  - exact trimBlankLines_spec.
  - exact parse_raw_block.
  - vm_compute. reflexivity.
Qed.

Lemma raw_block_verbatim_witness :
  Parser.parse (str "/style { a{b} /c }") =
    Ok (mkDocument
          [Command (str "style") []
             (Some (mkBlock [Content (str " a{b} /c ") (span 1 9 8 1 18 17)]
                            (span 1 8 7 1 19 18)))
             None (span 1 1 0 1 7 6)]).
Proof.
  refine (proj1 (proj2 (proj2 raw_block_verbatim))
            (str "style") (str " a{b} /c ") _ eq_refl).
  right; left; reflexivity.
Defined.

(** C3 as stated fails on a blank body: [/code { }] has no CONTENT token
    between the braces, and the block of the parsed command is empty. *)
Lemma blank_raw_block_has_no_content :
  shapes (tokenize (str "/code { }")) =
    Ok [(COMMAND, str "code"); (LBRACE, str "{"); (RBRACE, str "}");
        (EOF, [])] /\
  Parser.parse (str "/code { }") =
    Ok (mkDocument
          [Command (str "code") []
             (Some (mkBlock [] (span 1 7 6 1 10 9))) None
             (span 1 1 0 1 6 5)]).
Proof. split; vm_compute; reflexivity. Qed.

Lemma run_open_raw_block (s : Scanner) (body : jsstring) :
  isRawBlockCommand (currentCommand s) = true ->
  unread s = c_lbrace :: body ->
  unclosed body ->
  let e := positionAfter (currentPosition s) (c_lbrace :: body) in
  Tokenizer.run s =
    Ok (tokens s ++ rawBlockTokens (currentPosition s) body false ++
        [mkToken EOF [] (mkLocation e e)]).
Proof.
  intros R U B e.
  destruct (scanToken_raw_unclosed s body R U B)
    as (s' & T & K1 & K2 & _ & K3 & _).
  unfold Tokenizer.run.
  destruct (2 * remaining s + 1) as [|fuel] eqn:F; [lia|].
  rewrite (tokenize_loop_step _ _ _ (isAtEnd_cons U) T).
  rewrite (tokenize_loop_done _ _ (unread_nil _ K2)). cbn [bind].
  unfold currentLocation. now rewrite K1, K3, <- app_assoc.
Qed.

(** C10: when the input ends inside a raw block, the tokenizer throws
    nothing: it returns the tokens so far, LBRACE, the CONTENT token of the
    trimmed text when something of it is left, and EOF, without an RBRACE;
    the parser then throws the [ParseError] for the missing right brace at
    the EOF token. *)
Theorem open_raw_block_is_parse_error :
  (forall (s : Scanner) (body : jsstring),
     isRawBlockCommand (currentCommand s) = true ->
     unread s = c_lbrace :: body ->
     unclosed body ->
     let e := positionAfter (currentPosition s) (c_lbrace :: body) in
     Tokenizer.run s =
       Ok (tokens s ++ rawBlockTokens (currentPosition s) body false ++
           [mkToken EOF [] (mkLocation e e)])) /\
  (forall name body : jsstring,
     In name RAW_BLOCK_COMMANDS ->
     unclosed body ->
     let e := positionAfter sourceStart
                (c_slash :: name ++ str " {" ++ body) in
     Parser.parse (c_slash :: name ++ str " {" ++ body) =
       Throw (ParseError
                (str "Expected }, got EOF at line " ++ decimal (Ast.line e) ++
                 str ", column " ++ decimal (Ast.column e))
                (Some (mkLocation e e)))) /\
  shapes (tokenize (str "/style {" ++ [c_nl] ++ str "  /page A4")) =
    Ok [(COMMAND, str "style"); (LBRACE, str "{");
        (CONTENT, str "  /page A4"); (EOF, [])] /\
  Parser.parse (str "/style {" ++ [c_nl] ++ str "  /page A4") =
    Throw (ParseError (str "Expected }, got EOF at line 2, column 11")
                      (Some (span 2 11 19 2 11 19))).
Proof.
  split; [exact run_open_raw_block|].
  split; [exact parse_open_raw_block|].
  split; vm_compute; reflexivity.
Qed.

Lemma open_raw_block_is_parse_error_witness :
  Parser.parse (str "/list { a {b} ") =
    Throw (ParseError (str "Expected }, got EOF at line 1, column 15")
                      (Some (span 1 15 14 1 15 14))).
Proof.
  refine (proj1 (proj2 open_raw_block_is_parse_error)
            (str "list") (str " a {b} ") _ (ex_intro _ 1 eq_refl)).
  right; right; left; reflexivity.
Defined.


(** A call of [parse] ends with a document or with an exception. *)
Theorem parse_source_total (src : jsstring) : Parser.parse src <> OutOfFuel.
Proof.
  unfold Parser.parse, tokenize.
  pose proof (tokenize_total (init src)) as T.
  destruct (Tokenizer.run (init src)); cbn [bind]; try congruence.
  apply Parsing.parse_total.
Qed.

End Pipeline.

(* ================================================================== *)
(** ** The token list *)
(* ================================================================== *)

Module TokenStream.
Import Ast Tokenizer Vocabulary Examples Streams Invariants Samples Lexing.

#[local] Arguments isAtEnd : simpl never.
#[local] Arguments peek : simpl never.
#[local] Arguments peekNext : simpl never.
#[local] Arguments advance : simpl never.
#[local] Arguments remaining : simpl never.
#[local] Arguments unread : simpl never.
#[local] Arguments advanceBy : simpl never.
#[local] Arguments moveOver : simpl never.

(** *** What the scanner keeps while it reads *)

Lemma steady_refl (s : Scanner) : steady s s.
Proof. unfold steady. auto. Qed.

Lemma steady_trans (s1 s2 s3 : Scanner) :
  steady s1 s2 -> steady s2 s3 -> steady s1 s3.
Proof.
  unfold steady. intros (A & B & C & D) (E & F & G & H).
  split; [congruence|]. split; [congruence|]. split; [lia|auto].
Qed.

Lemma steady_advance (s : Scanner) :
  isAtEnd s = false -> steady s (snd (advance s)).
Proof.
  intros E%isAtEnd_false. unfold steady, inside, advance. cbn.
  repeat split; try lia.
Qed.

Lemma steady_nextLine (s : Scanner) : steady s (nextLine s).
Proof. unfold steady, inside, nextLine. cbn. repeat split; try lia. Qed.

Lemma steady_canStartCommand (b : bool) (s : Scanner) :
  steady s (set_canStartCommand b s).
Proof. unfold steady, inside. cbn. repeat split; try tauto; lia. Qed.

Lemma steady_inCommandMode (b : bool) (s : Scanner) :
  steady s (set_inCommandMode b s).
Proof. unfold steady, inside. cbn. repeat split; try tauto; lia. Qed.

(** A character other than the one that stands for the end of the input
    is a character of the source. *)
Lemma peek_inside (s : Scanner) : peek s <> NUL -> isAtEnd s = false.
Proof.
  unfold peek, isAtEnd. intros H. apply Nat.leb_gt.
  destruct (Nat.lt_ge_cases (pos s) (length (source s))) as [L|L]; auto.
  now rewrite nth_overflow in H.
Qed.

Lemma peekNext_inside (s : Scanner) :
  peekNext s <> NUL -> pos s + 1 < length (source s).
Proof.
  unfold peekNext. intros H.
  destruct (Nat.lt_ge_cases (pos s + 1) (length (source s))) as [L|L]; auto.
  now rewrite nth_overflow in H.
Qed.

Lemma peek_is (s : Scanner) (c : char) :
  eqc (peek s) c = true -> c <> NUL -> isAtEnd s = false.
Proof. intros E%eqc_eq N. apply peek_inside. congruence. Qed.

Lemma advanceWhile_steady (p : char -> bool) :
  forall (fuel : nat) (s : Scanner) (acc : jsstring),
    steady s (snd (advanceWhile p fuel s acc)) /\
    exists more,
      fst (advanceWhile p fuel s acc) = acc ++ more /\
      forallb p more = true.
Proof.
  induction fuel as [|fuel IH]; intros s acc; cbn [advanceWhile].
  - split; [apply steady_refl|]. exists []. now rewrite app_nil_r.
  - destruct (isAtEnd s) eqn:E; cbn [negb andb].
    { split; [apply steady_refl|]. exists []. now rewrite app_nil_r. }
    destruct (p (peek s)) eqn:P.
    2:{ split; [apply steady_refl|]. exists []. now rewrite app_nil_r. }
    unfold advance. cbv beta iota.
    match goal with
    | |- context [advanceWhile p fuel ?x ?a] =>
        destruct (IH x a) as (S1 & more & A & F)
    end.
    split.
    + eapply steady_trans; [|exact S1]. apply (steady_advance s E).
    + exists (peek s :: more). rewrite A, <- app_assoc. split; [reflexivity|].
      cbn [forallb]. now rewrite P, F.
Qed.
(** The tests of [isAtEnd] that are at hand, as facts on the cursor. *)
Ltac cursor_facts :=
  repeat match goal with
         | H : isAtEnd _ = false |- _ => apply isAtEnd_false in H; cbn in H
         end.

(** Closes [steady s s'] where [s'] is [s] after calls of [advance] and
    updates of the line, the column and the modes. *)
Ltac steady_now :=
  cursor_facts; unfold steady, inside, nextLine; cbn;
  repeat split; intros; try tauto; lia.

(** Closes a branch of a character loop with the induction hypothesis. *)
Ltac steady_branch IH :=
  first [ apply steady_refl
        | eapply steady_trans; [|apply IH]; steady_now ].

Lemma scanString_loop_steady :
  forall (fuel : nat) (quote : char) (s : Scanner) (v : jsstring),
    steady s (snd (scanString_loop fuel quote s v)).
Proof.
  induction fuel as [|fuel IH]; intros quote s v; cbn [scanString_loop];
    [apply steady_refl|].
  destruct (isAtEnd s) eqn:E; cbn [negb andb]; [apply steady_refl|].
  destruct (eqc (peek s) quote); cbn [negb]; [apply steady_refl|].
  unfold advance. cbv beta iota.
  destruct (eqc (peek s) c_backslash).
  - match goal with
    | |- context [isAtEnd ?x] => destruct (isAtEnd x) eqn:E1
    end; cbn [negb]; steady_branch IH.
  - destruct (eqc (peek s) c_nl); steady_branch IH.
Qed.

Lemma scanRawBlock_loop_steady :
  forall (fuel : nat) (s : Scanner) (depth : nat) (content : jsstring),
    steady s (snd (scanRawBlock_loop fuel s depth content)).
Proof.
  induction fuel as [|fuel IH]; intros s depth content;
    cbn [scanRawBlock_loop]; [apply steady_refl|].
  destruct (isAtEnd s) eqn:E; cbn [negb andb]; [apply steady_refl|].
  destruct (0 <? depth); [|apply steady_refl].
  unfold advance. cbv beta iota.
  destruct (eqc (peek s) c_lbrace); [steady_branch IH|].
  destruct (eqc (peek s) c_rbrace).
  { destruct (0 <? depth - 1); [steady_branch IH|apply IH]. }
  destruct (eqc (peek s) c_nl); steady_branch IH.
Qed.

Lemma matchCodeFence_inside (s : Scanner) :
  matchCodeFence s = true -> pos s + 2 < length (source s).
Proof.
  unfold matchCodeFence.
  destruct (nth_error (source s) (pos s)); [|discriminate].
  destruct (nth_error (source s) (pos s + 1)); [|discriminate].
  destruct (nth_error (source s) (pos s + 2)) eqn:N; [|discriminate].
  intros _. apply nth_error_Some. congruence.
Qed.

Lemma consumeCodeFence_steady (s : Scanner) :
  matchCodeFence s = true -> steady s (snd (consumeCodeFence s)).
Proof.
  intros M%matchCodeFence_inside. unfold consumeCodeFence, advance.
  cbv beta iota.
  match goal with
  | |- context [advanceWhile ?p ?n ?x ?a] =>
      destruct (advanceWhile_steady p n x a) as (A & _)
  end.
  eapply steady_trans; [|exact A]. steady_now.
Qed.

Lemma scanContent_loop_steady :
  forall (fuel : nat) (s : Scanner) (content : jsstring) (fence : bool),
    steady s (snd (scanContent_loop fuel s content fence)).
Proof.
  induction fuel as [|fuel IH]; intros s content fence;
    cbn [scanContent_loop]; [apply steady_refl|].
  destruct (isAtEnd s) eqn:E; [apply steady_refl|].
  destruct (eqc (peek s) c_backtick && canStartCommand s && matchCodeFence s)
    eqn:F.
  { apply andb_prop in F. destruct F as [_ F].
    pose proof (consumeCodeFence_steady s F) as C.
    destruct (consumeCodeFence s) as [fence' s1]. cbn [snd] in C.
    eapply steady_trans; [exact C|].
    eapply steady_trans; [|apply IH]. apply steady_canStartCommand. }
  destruct fence.
  { unfold advance. cbv beta iota.
    destruct (eqc (peek s) c_nl); steady_branch IH. }
  destruct (eqc (peek s) c_backtick).
  { unfold advance at 1. cbv beta iota.
    match goal with
    | |- context [advanceWhile ?p ?n ?x ?a] =>
        destruct (advanceWhile_steady p n x a) as (A & _);
        destruct (advanceWhile p n x a) as [code s2]
    end.
    cbn [snd] in A.
    assert (B : steady s s2) by (eapply steady_trans; [|exact A]; steady_now).
    destruct (eqc (peek s2) c_backtick) eqn:K.
    - apply peek_is in K; [|discriminate].
      unfold advance. cbv beta iota.
      eapply steady_trans; [exact B|]. steady_branch IH.
    - eapply steady_trans; [exact B|]. steady_branch IH. }
  destruct (eqc (peek s) c_lbrace || eqc (peek s) c_rbrace);
    [apply steady_refl|].
  destruct (eqc (peek s) c_slash && canStartCommand s); [apply steady_refl|].
  unfold advance. cbv beta iota.
  destruct (eqc (peek s) c_nl); [steady_branch IH|].
  destruct ((eqc (peek s) c_space || eqc (peek s) c_tab) && canStartCommand s);
    steady_branch IH.
Qed.
(** *** What a call of [scanToken] emits *)

Lemma emits_none (s s' : Scanner) :
  steady s s' -> inside s -> emits s s' [].
Proof.
  intros (A & B & C & D) I. unfold emits. cbn [chain].
  rewrite app_nil_r. split; [exact A|]. split; [exact B|].
  split; [exact C|]. split; [constructor|auto].
Qed.

Lemma emits_addToken (ty : TokenType) (v : jsstring) (s s2 : Scanner) :
  steady s s2 -> inside s ->
  textOk (mkToken ty v (mkLocation (currentPosition s) (currentPosition s2)))
    = true ->
  emits s (addToken ty v (currentPosition s) s2)
    [mkToken ty v (mkLocation (currentPosition s) (currentPosition s2))].
Proof.
  intros (A & B & C & D) I T. pose proof (D I) as I2.
  unfold emits. cbn. rewrite A.
  split; [reflexivity|]. split; [assumption|]. split; [lia|].
  split; [|exact I2]. constructor; [|constructor].
  unfold emitted, oneBased, inside in *. cbn. tauto.
Qed.

Lemma emits_canStartCommand (b : bool) (s s' : Scanner) (new : list Token) :
  emits s s' new -> emits s (set_canStartCommand b s') new.
Proof. unfold emits, inside. cbn. tauto. Qed.

Lemma emits_inCommandMode (b : bool) (s s' : Scanner) (new : list Token) :
  emits s s' new -> emits s (set_inCommandMode b s') new.
Proof. unfold emits, inside. cbn. tauto. Qed.

Lemma emits_currentCommand (name : jsstring) (s s' : Scanner)
    (new : list Token) :
  emits s s' new -> emits s (set_currentCommand name s') new.
Proof. unfold emits, inside. cbn. tauto. Qed.

Lemma chain_app (a b c : nat) (xs ys : list Token) :
  chain a xs b -> chain b ys c -> chain a (xs ++ ys) c.
Proof.
  revert a. induction xs as [|x xs IH]; intros a; cbn [chain app].
  - intros L. destruct ys as [|y ys]; cbn [chain]; intros H; [lia|].
    split; [lia|tauto].
  - intros (A & B & C) H. split; [exact A|]. split; [exact B|]. now apply IH.
Qed.


Lemma emits_trans (s1 s2 s3 : Scanner) (xs ys : list Token) :
  emits s1 s2 xs -> emits s2 s3 ys -> emits s1 s3 (xs ++ ys).
Proof.
  unfold emits. intros (A & B & C & D & E) (F & G & H & I & J).
  split; [now rewrite F, A, app_assoc|]. split; [congruence|].
  split; [now apply chain_app with (pos s2)|].
  split; [apply Forall_app; auto | exact J].
Qed.

Lemma advanceWhile_nonempty (p : char -> bool) (fuel : nat) (s : Scanner) :
  isAtEnd s = false -> p (peek s) = true ->
  fst (advanceWhile p (S fuel) s []) <> [].
Proof.
  intros E P. cbn [advanceWhile]. rewrite E, P. cbn [negb andb].
  unfold advance. cbv beta iota.
  match goal with
  | |- context [advanceWhile p fuel ?x ?a] =>
      destruct (advanceWhile_steady p fuel x a) as (_ & more & A & _)
  end.
  rewrite A. discriminate.
Qed.

Lemma nonEmpty_cons (v : jsstring) : v <> [] -> nonEmpty v = true.
Proof. destruct v; [contradiction|reflexivity]. Qed.

Lemma scanCommand_emits (s s' : Scanner) :
  isAtEnd s = false -> inside s ->
  scanCommand (currentPosition s) s = Ok s' ->
  exists new, emits s s' new.
Proof.
  intros E I. unfold scanCommand, advance. cbv beta iota.
  match goal with
  | |- context [advanceWhile ?p ?n ?x ?a] =>
      destruct (advanceWhile_steady p n x a) as (A & more & B & F);
      destruct (advanceWhile p n x a) as [name s2]
  end.
  cbn [fst snd app] in A, B. subst more.
  destruct name as [|c name]; [discriminate|]. intros H. injection H as <-.
  eexists. apply emits_currentCommand, emits_inCommandMode,
    emits_canStartCommand, emits_addToken; [|exact I|exact F].
  eapply steady_trans; [|exact A]. steady_now.
Qed.

Lemma scanString_emits (s s' : Scanner) :
  isAtEnd s = false -> inside s ->
  scanString (currentPosition s) s = Ok s' ->
  exists new, emits s s' new.
Proof.
  intros E I. unfold scanString. unfold advance at 1. cbv beta iota.
  match goal with
  | |- context [scanString_loop ?n ?q ?x ?a] =>
      pose proof (scanString_loop_steady n q x a) as A;
      destruct (scanString_loop n q x a) as [v s2]
  end.
  cbn [snd] in A. destruct (isAtEnd s2) eqn:E2; [discriminate|].
  unfold advance. cbv beta iota. intros H. injection H as <-.
  eexists.
  match goal with
  | |- emits s (addToken ?ty ?v ?st ?x) _ =>
      apply (emits_addToken ty v s x); [|exact I|reflexivity]
  end.
  eapply steady_trans; [|eapply steady_trans; [exact A|]]; steady_now.
Qed.

Lemma scanCommandPart_emits (s s' : Scanner) :
  isAtEnd s = false -> inside s ->
  scanCommandPart (currentPosition s) s = Ok s' ->
  exists new, emits s s' new.
Proof.
  intros E I. unfold scanCommandPart. cbv zeta.
  destruct (eqc (peek s) c_pipe).
  { unfold advance. cbv beta iota. intros H. injection H as <-. eexists.
    match goal with
    | |- emits s (addToken ?ty ?v ?st ?x) _ =>
        apply (emits_addToken ty v s x); [|exact I|reflexivity]
    end. steady_now. }
  destruct (eqc (peek s) c_dash && eqc (peekNext s) c_dash) eqn:LF.
  { apply andb_prop in LF. destruct LF as [_ LF]. apply eqc_eq in LF.
    assert (N : pos s + 1 < length (source s))
      by (apply peekNext_inside; rewrite LF; discriminate).
    unfold advance. cbv beta iota.
    match goal with
    | |- context [advanceWhile ?p ?n ?x ?a] =>
        destruct (advanceWhile_steady p n x a) as (A & more & B & F);
        destruct (advanceWhile p n x a) as [name s2]
    end.
    cbn [fst snd app] in A, B. subst more.
    destruct name as [|c name]; [discriminate|]. intros H. injection H as <-.
    eexists. apply emits_addToken; [|exact I|exact F].
    eapply steady_trans; [|exact A]. steady_now. }
  destruct (eqc (peek s) c_dash && isLetter (peekNext s)) eqn:SF.
  { apply andb_prop in SF. destruct SF as [_ SF].
    assert (N : pos s + 1 < length (source s)).
    { apply peekNext_inside. intros Z. rewrite Z in SF. discriminate SF. }
    unfold advance. cbv beta iota. intros H. injection H as <-. eexists.
    match goal with
    | |- emits s (addToken ?ty ?v ?st ?x) _ =>
        apply (emits_addToken ty v s x); [|exact I|exact SF]
    end. steady_now. }
  destruct (eqc (peek s) c_dquote || eqc (peek s) c_squote).
  { now apply scanString_emits. }
  destruct (eqc (peek s) c_lbrace).
  { intros H. injection H as <-. eexists.
    apply emits_canStartCommand, emits_inCommandMode, emits_none; auto.
    apply steady_refl. }
  destruct (isValueChar (peek s)) eqn:V; [|discriminate].
  destruct (remaining_S s E) as (n & R). rewrite R.
  pose proof (advanceWhile_nonempty isValueChar n s E V) as NE.
  destruct (advanceWhile_steady isValueChar (S n) s []) as (A & more & B & F).
  destruct (advanceWhile isValueChar (S n) s []) as [v s1].
  cbn [fst snd app] in A, B, NE. subst more.
  intros H. injection H as <-. eexists.
  apply emits_addToken; [exact A|exact I|].
  unfold textOk. cbn [type value]. now rewrite (nonEmpty_cons v NE), F.
Qed.
Lemma blank_app (a b : jsstring) : blank (a ++ b) = blank a && blank b.
Proof. apply forallb_app. Qed.

(** What [trimBlankLines] leaves is empty or has a character that is not
    white space. *)
Lemma trimBlankLines_not_blank (text : jsstring) :
  trimBlankLines text <> [] -> blank (trimBlankLines text) = false.
Proof.
  destruct (trimBlankLines_spec text) as (pre & kept & post & _ & _ & _ & T & K).
  rewrite T. destruct kept as [|k ks]; [intros H; now contradiction H|].
  intros _. destruct K as [K _]. cbn [join_nl].
  destruct ks; [exact K|]. now rewrite blank_app, K.
Qed.

Lemma scanRawBlock_emits (s : Scanner) :
  isAtEnd s = false -> inside s ->
  exists new, emits s (scanRawBlock (currentPosition s) s) new.
Proof.
  intros E I. unfold scanRawBlock. unfold advance at 1. cbv beta iota zeta.
  match goal with
  | |- context [scanRawBlock_loop ?n (addToken ?ty ?v ?st ?x) ?d ?a] =>
      assert (A1 : emits s (addToken ty v st x)
                     [mkToken ty v (mkLocation st (currentPosition x))])
        by (apply (emits_addToken ty v s x);
            [steady_now|exact I|reflexivity]);
      set (s2 := addToken ty v st x) in *
  end.
  match goal with
  | |- context [scanRawBlock_loop ?n ?x ?d ?a] =>
      pose proof (scanRawBlock_loop_steady n x d a) as A2;
      destruct (scanRawBlock_loop n x d a) as [content s3]
  end.
  cbn [snd] in A2.
  assert (I2 : inside s2) by apply A1.
  assert (B : exists mid s4,
             emits s s4 mid /\
             s4 = match trimBlankLines content with
                  | [] => s3
                  | _ :: _ =>
                      addToken CONTENT (trimBlankLines content)
                               (currentPosition s2) s3
                  end).
  { destruct (trimBlankLines content) as [|c l] eqn:T.
    - eexists _, s3. split; [|reflexivity].
      eapply emits_trans; [exact A1|]. now apply emits_none.
    - eexists _, _. split; [|reflexivity].
      eapply emits_trans; [exact A1|].
      apply emits_addToken; [exact A2|exact I2|].
      unfold textOk. cbn [type value]. rewrite <- T.
      rewrite trimBlankLines_not_blank; [reflexivity|]. now rewrite T. }
  destruct B as (mid & s4 & B & ->).
  match goal with
  | |- context [isAtEnd ?x] => set (s4 := x) in *
  end.
  assert (I4 : inside s4) by apply B.
  destruct (isAtEnd s4) eqn:E4; cbn [negb andb].
  { eexists. apply emits_currentCommand, emits_inCommandMode,
      emits_canStartCommand. exact B. }
  destruct (eqc (peek s4) c_rbrace).
  - unfold advance. cbv beta iota. eexists.
    apply emits_currentCommand, emits_inCommandMode, emits_canStartCommand.
    eapply emits_trans; [exact B|].
    match goal with
    | |- emits s4 (addToken ?ty ?v ?st ?x) _ =>
        apply (emits_addToken ty v s4 x); [|exact I4|reflexivity]
    end. steady_now.
  - eexists. apply emits_currentCommand, emits_inCommandMode,
      emits_canStartCommand. exact B.
Qed.

Lemma scanContent_emits (s : Scanner) :
  inside s -> exists new, emits s (scanContent (currentPosition s) s) new.
Proof.
  intros I. unfold scanContent.
  pose proof (scanContent_loop_steady (remaining s) s [] false) as A.
  destruct (scanContent_loop (remaining s) s [] false) as [content s1].
  cbn [snd] in A. destruct (trim content) as [|c l] eqn:T.
  - eexists. now apply emits_none.
  - eexists. apply emits_addToken; [exact A|exact I|].
    unfold textOk. cbn [type value].
    destruct (blank content) eqn:K; [|reflexivity].
    apply trim_blank in K. congruence.
Qed.

Lemma scanToken_emits (s s' : Scanner) :
  isAtEnd s = false -> inside s -> scanToken s = Ok s' ->
  exists new, emits s s' new.
Proof.
  intros E I. unfold scanToken. cbv zeta.
  destruct ((eqc (peek s) c_space || eqc (peek s) c_tab || eqc (peek s) c_cr) &&
            (inCommandMode s || negb (canStartCommand s))).
  { intros H. injection H as <-. eexists.
    apply emits_none; [|exact I]. now apply steady_advance. }
  destruct (eqc (peek s) c_nl).
  { intros H. injection H as <-. eexists.
    apply emits_inCommandMode, emits_canStartCommand, emits_none; [|exact I].
    eapply steady_trans; [now apply steady_advance|apply steady_nextLine]. }
  destruct (eqc (peek s) c_lbrace).
  { destruct (isRawBlockCommand (currentCommand s)).
    - intros H. injection H as <-. now apply scanRawBlock_emits.
    - intros H. injection H as <-. eexists.
      apply emits_inCommandMode, emits_canStartCommand.
      match goal with
      | |- emits s (addToken ?ty ?v ?st ?x) _ =>
          apply (emits_addToken ty v s x); [|exact I|reflexivity]
      end. now apply steady_advance. }
  destruct (eqc (peek s) c_rbrace).
  { intros H. injection H as <-. eexists.
    apply emits_inCommandMode, emits_canStartCommand.
    match goal with
    | |- emits s (addToken ?ty ?v ?st ?x) _ =>
        apply (emits_addToken ty v s x); [|exact I|reflexivity]
    end. now apply steady_advance. }
  destruct (eqc (peek s) c_slash && canStartCommand s).
  { now apply scanCommand_emits. }
  destruct (inCommandMode s).
  { now apply scanCommandPart_emits. }
  intros H. injection H as <-. now apply scanContent_emits.
Qed.

Lemma tokenize_loop_emits :
  forall (fuel : nat) (s s' : Scanner),
    inside s -> tokenize_loop fuel s = Ok s' ->
    exists new, emits s s' new /\ isAtEnd s' = true.
Proof.
  induction fuel as [|fuel IH]; intros s s' I; cbn [tokenize_loop];
    destruct (isAtEnd s) eqn:E; try discriminate.
  - intros H. injection H as <-. exists []. split; [|exact E].
    apply emits_none; [apply steady_refl|exact I].
  - intros H. injection H as <-. exists []. split; [|exact E].
    apply emits_none; [apply steady_refl|exact I].
  - destruct (scanToken s) as [s1| |] eqn:T; cbn [bind]; try discriminate.
    intros H. destruct (scanToken_emits s s1 E I T) as (xs & X).
    destruct (IH s1 s' (proj2 (proj2 (proj2 (proj2 X)))) H) as (ys & Y & Z).
    exists (xs ++ ys). split; [|exact Z]. now apply emits_trans with s1.
Qed.

(** The token list of a source: the emitted tokens, in the order of the
    source, and the end-of-file token at the end of the source. *)
Lemma tokenize_stream (src : jsstring) (ts : list Token) :
  tokenize src = Ok ts ->
  exists body p,
    ts = body ++ [mkToken EOF [] (mkLocation p p)] /\
    chain 0 body (length src) /\ Forall emitted body /\
    offset p = length src /\ oneBased p.
Proof.
  unfold tokenize, Tokenizer.run. intros H.
  destruct (tokenize_loop (2 * remaining (init src) + 1) (init src))
    as [s1| |] eqn:L; cbn [bind] in H; try discriminate.
  injection H as <-.
  assert (I : inside (init src)) by (unfold inside; cbn; lia).
  destruct (tokenize_loop_emits _ _ _ I L) as (new & (A & B & C & D & F) & G).
  cbn [init tokens source pos app] in A, B, C.
  assert (P : pos s1 = length src).
  { unfold isAtEnd in G. apply Nat.leb_le in G. rewrite B in G.
    destruct F as (F & _). rewrite B in F. lia. }
  exists new, (currentPosition s1). rewrite A. split; [reflexivity|].
  split; [now rewrite <- P|]. split; [exact D|]. split; [exact P|].
  unfold oneBased, inside in *. cbn. tauto.
Qed.
(** *** The lexical errors *)

Lemma scanToken_throws (s : Scanner) (e : exn) :
  scanToken s = Throw e ->
  exists what, lexicalMessage what /\ e = error what (currentPosition s).
Proof.
  unfold scanToken. cbv zeta.
  destruct ((eqc (peek s) c_space || eqc (peek s) c_tab || eqc (peek s) c_cr) &&
            (inCommandMode s || negb (canStartCommand s))) eqn:W;
    [discriminate|].
  destruct (eqc (peek s) c_nl) eqn:NL; [discriminate|].
  destruct (eqc (peek s) c_lbrace) eqn:LB.
  { destruct (isRawBlockCommand (currentCommand s)); discriminate. }
  destruct (eqc (peek s) c_rbrace) eqn:RB; [discriminate|].
  destruct (eqc (peek s) c_slash && canStartCommand s).
  { unfold scanCommand.
    destruct (advance s) as [c s1].
    destruct (advanceWhile _ _ _ _) as [name s2].
    destruct name; [|discriminate]. intros H. injection H as <-.
    eexists. split; [left; reflexivity|reflexivity]. }
  destruct (inCommandMode s) eqn:M; [|discriminate].
  unfold scanCommandPart. cbv zeta.
  destruct (eqc (peek s) c_pipe) eqn:PI.
  { destruct (advance s). discriminate. }
  destruct (eqc (peek s) c_dash && eqc (peekNext s) c_dash).
  { destruct (advance s) as [c s1]. destruct (advance s1) as [c2 s2].
    destruct (advanceWhile _ _ _ _) as [name s3].
    destruct name; [|discriminate]. intros H. injection H as <-.
    eexists. split; [right; left; reflexivity|reflexivity]. }
  destruct (eqc (peek s) c_dash && isLetter (peekNext s)).
  { destruct (advance s) as [c s1]. destruct (advance s1). discriminate. }
  destruct (eqc (peek s) c_dquote || eqc (peek s) c_squote).
  { unfold scanString. destruct (advance s) as [q s1].
    destruct (scanString_loop _ _ _ _) as [v s2].
    destruct (isAtEnd s2).
    - intros H. injection H as <-.
      eexists. split; [right; right; left; reflexivity|reflexivity].
    - destruct (advance s2). discriminate. }
  rewrite LB.
  destruct (isValueChar (peek s)) eqn:V.
  { destruct (advanceWhile _ _ _ _). discriminate. }
  intros H. injection H as <-. eexists. split; [|reflexivity].
  right; right; right. exists (peek s). split; [|split; [|reflexivity]].
  - unfold isValueChar in V. rewrite LB, RB, PI, NL in V.
    rewrite !orb_false_r in V. now apply negb_false_iff in V.
  - cbn [orb] in W. rewrite andb_true_r in W.
    now rewrite W, NL.
Qed.

Lemma tokenize_loop_throws :
  forall (fuel : nat) (s : Scanner) (e : exn),
    inside s -> tokenize_loop fuel s = Throw e ->
    exists what p,
      lexicalMessage what /\ e = error what p /\ oneBased p /\
      offset p < length (source s).
Proof.
  induction fuel as [|fuel IH]; intros s e I; cbn [tokenize_loop];
    destruct (isAtEnd s) eqn:E; try discriminate.
  destruct (scanToken s) as [s1|x|] eqn:T; cbn [bind]; try discriminate.
  - intros H. destruct (scanToken_emits s s1 E I T) as (new & _ & B & _ & _ & F).
    destruct (IH s1 e F H) as (what & p & K). exists what, p.
    now rewrite <- B.
  - intros H. injection H as <-.
    destruct (scanToken_throws s x T) as (what & L & ->).
    exists what, (currentPosition s). apply isAtEnd_false in E.
    unfold oneBased, inside in *. cbn. tauto.
Qed.
(** *** The token list of a source *)

(** X1: the token list of a source ends with one end-of-file token, which
    has no text and is placed at the end of the source; no token before it
    is an end-of-file token, and no NEWLINE token is ever emitted. *)
Theorem token_stream_ends_with_eof (src : jsstring) (ts : list Token) :
  tokenize src = Ok ts ->
  exists body p,
    ts = body ++ [mkToken EOF [] (mkLocation p p)] /\
    offset p = length src /\
    Forall (fun t => type t <> EOF /\ type t <> NEWLINE) body.
Proof.
  intros H. destruct (tokenize_stream src ts H) as (body & p & A & _ & B & C & _).
  exists body, p. split; [exact A|]. split; [exact C|].
  apply Forall_impl with (2 := B). intros t (T & _). unfold textOk in T.
  destruct (type t); split; discriminate.
Qed.

Lemma token_stream_ends_with_eof_witness :
  tokenize src_page = Ok tokens_page /\
  exists body p,
    tokens_page = body ++ [mkToken EOF [] (mkLocation p p)] /\
    offset p = length src_page /\
    Forall (fun t => type t <> EOF /\ type t <> NEWLINE) body.
Proof.
  assert (P : tokenize src_page = Ok tokens_page) by (vm_compute; reflexivity).
  split; [exact P|]. exact (token_stream_ends_with_eof src_page tokens_page P).
Defined.

(** X2: the tokens of a source are in the order of the source and do not
    overlap: every token starts at or after the end of the token before it,
    none ends before it starts, and all lie between offset 0 and the length
    of the source. *)
Theorem tokens_in_source_order (src : jsstring) (ts : list Token) :
  tokenize src = Ok ts -> chain 0 ts (length src).
Proof.
  intros H. destruct (tokenize_stream src ts H) as (body & p & -> & A & _ & C & _).
  apply chain_app with (length src); [exact A|].
  cbn. lia.
Qed.

Lemma tokens_in_source_order_witness :
  tokenize src_flags = Ok tokens_flags /\
  chain 0 tokens_flags (length src_flags).
Proof.
  assert (P : tokenize src_flags = Ok tokens_flags)
    by (vm_compute; reflexivity).
  split; [exact P|]. exact (tokens_in_source_order src_flags tokens_flags P).
Defined.

(** X3: the text of every token but the last has the form of its kind: a
    command name or a long flag name is a non-empty word of identifier
    characters, a short flag is one letter, a value is non-empty and has no
    white space, brace or pipe, a content token has a character that is not
    white space, and a brace or a pipe token holds its character. *)
Theorem token_texts_well_formed (src : jsstring) (ts : list Token)
    (t : Token) :
  tokenize src = Ok ts -> In t ts -> type t <> EOF -> textOk t = true.
Proof.
  intros H M N.
  destruct (tokenize_stream src ts H) as (body & p & -> & _ & B & _).
  apply in_app_or in M. destruct M as [M|[<-|[]]].
  - rewrite Forall_forall in B. now apply B.
  - now contradiction N.
Qed.

Lemma token_texts_well_formed_witness :
  tokenize src_block = Ok tokens_block /\
  textOk (mkToken CONTENT (str " x ") (span 1 5 4 1 8 7)) = true.
Proof.
  assert (P : tokenize src_block = Ok tokens_block)
    by (vm_compute; reflexivity).
  split; [exact P|].
  refine (token_texts_well_formed src_block tokens_block _ P _ _).
  - right; right; left; reflexivity.
  - discriminate.
Defined.

(** X4: every position of a token, the end-of-file token included, has a
    line and a column that are at least 1. *)
Theorem token_positions_one_based (src : jsstring) (ts : list Token)
    (t : Token) :
  tokenize src = Ok ts -> In t ts ->
  oneBased (start (loc t)) /\ oneBased (end_ (loc t)).
Proof.
  intros H M.
  destruct (tokenize_stream src ts H) as (body & p & -> & _ & B & _ & C).
  apply in_app_or in M. destruct M as [M|[<-|[]]].
  - rewrite Forall_forall in B. now apply B.
  - cbn. auto.
Qed.

Lemma token_positions_one_based_witness :
  tokenize src_two_lines = Ok tokens_two_lines /\
  oneBased (mkPosition 2 1 2) /\ oneBased (mkPosition 2 3 4).
Proof.
  assert (P : tokenize src_two_lines = Ok tokens_two_lines)
    by (vm_compute; reflexivity).
  split; [exact P|].
  refine (token_positions_one_based src_two_lines tokens_two_lines
            (mkToken COMMAND (str "b") (span 2 1 2 2 3 4)) P _).
  right; left; reflexivity.
Defined.

Lemma tokenize_cases (src : jsstring) :
  (exists ts, tokenize src = Ok ts) \/
  (exists what p,
     tokenize src = Throw (error what p) /\ lexicalMessage what /\
     oneBased p /\ offset p < length src).
Proof.
  pose proof (tokenize_total (init src)) as F.
  unfold tokenize, Tokenizer.run in *.
  destruct (tokenize_loop (2 * remaining (init src) + 1) (init src))
    as [s1|e|] eqn:L; cbn [bind] in *.
  - left. eexists. reflexivity.
  - right.
    assert (I : inside (init src)) by (unfold inside; cbn; lia).
    destruct (tokenize_loop_throws _ _ _ I L) as (what & p & A & -> & B & C).
    exists what, p. auto.
  - now contradiction F.
Qed.

(** X5: tokenizing ends for every source, with the token list or with one
    of four lexical errors; the error names a position of the source with a
    line and a column from 1.  The only character that is rejected on a
    command line is white space other than a space, a tab, a carriage
    return or a newline. *)
Theorem tokenize_returns_or_throws (src : jsstring) :
  (exists ts, tokenize src = Ok ts) \/
  (exists what p,
     tokenize src = Throw (error what p) /\ lexicalMessage what /\
     oneBased p /\ offset p < length src).
Proof. exact (tokenize_cases src). Qed.

End TokenStream.

(* ================================================================== *)
(** ** The outcomes of the parser *)
(* ================================================================== *)

Module ParserSafety.
Import Ast Vocabulary Examples Streams ParserInvariants Samples Parser Parsing.
Import TokenStream.
Import Tokenizer(TokenType(..), Token, mkToken, type, value, loc, eqType,
                 typeName).

(** *** The braces that are still to read *)

Lemma deepest_level (level : nat) (l : list Token) : level <= deepest level l.
Proof.
  revert level. induction l as [|t l IH]; intros level; cbn [deepest]; [lia|].
  destruct (type t); try apply IH; [|lia].
  specialize (IH (S level)). lia.
Qed.

Lemma settles_refl (p : Parser) : settles p p.
Proof. split; [reflexivity|]. intros level. lia. Qed.

Lemma settles_trans (p1 p2 p3 : Parser) :
  settles p1 p2 -> settles p2 p3 -> settles p1 p3.
Proof.
  intros [A B] [C D]. split; [congruence|]. intros level.
  specialize (B level). specialize (D level). rewrite A in D. lia.
Qed.

Lemma skipn_peek (p : Parser) (t : Token) :
  peek p = Some t ->
  skipn (pos p) (tokens p) = t :: skipn (pos p + 1) (tokens p).
Proof.
  unfold peek, tokenAt. generalize (tokens p) as l.
  induction (pos p) as [|n IH]; intros [|x l] H; try discriminate.
  - cbn in H. injection H as <-. reflexivity.
  - cbn [nth_error] in H. cbn [skipn Nat.add]. now apply IH.
Qed.

(** Reading a token that is not a brace. *)
Lemma settles_next (p : Parser) (t : Token) :
  peek p = Some t -> type t <> LBRACE -> type t <> RBRACE ->
  settles p (next p).
Proof.
  intros K L R. split; [reflexivity|]. intros level.
  rewrite (skipn_peek p t K). cbn [next pos deepest].
  destruct (type t); try lia; congruence.
Qed.

(** Reading the left brace of a block, and its right brace. *)
Lemma deepest_lbrace (p : Parser) (t : Token) (level : nat) :
  peek p = Some t -> type t = LBRACE ->
  deepest level (skipn (pos p) (tokens p)) =
  deepest (S level) (skipn (pos (next p)) (tokens p)).
Proof.
  intros K L. rewrite (skipn_peek p t K). cbn [next pos deepest].
  now rewrite L.
Qed.

Lemma deepest_rbrace (p : Parser) (t : Token) (level : nat) :
  peek p = Some t -> type t = RBRACE ->
  deepest level (skipn (pos (next p)) (tokens p)) <=
  deepest (S level) (skipn (pos p) (tokens p)).
Proof.
  intros K R. rewrite (skipn_peek p t K). cbn [next pos deepest].
  rewrite R. cbn [pred]. lia.
Qed.

(** *** The parser stays on the token list *)

Section OnTokens.

Variable ts : list Token.

Lemma outcome_bind {A B : Type} (P : A -> Prop) (Q : B -> Prop)
    (m : result A) (k : A -> result B) :
  outcome ts P m -> (forall a, P a -> outcome ts Q (k a)) ->
  outcome ts Q (bind m k).
Proof. destruct m as [a|e|]; cbn; auto. Qed.

Lemma guarded_peek (p : Parser) :
  guarded ts p ->
  exists t,
    peek p = Some t /\ In t ts /\
    (eqType (type t) EOF = false -> guarded ts (next p)).
Proof.
  intros (E0 & body & eof & E & T & L).
  unfold peek, tokenAt. rewrite E0, E.
  destruct (Nat.eq_dec (pos p) (length body)) as [K|K].
  - exists eof. rewrite K, nth_error_app2, Nat.sub_diag; [|lia].
    split; [reflexivity|]. split; [apply in_or_app; right; now left|].
    rewrite T. discriminate.
  - destruct (nth_error body (pos p)) as [t|] eqn:N.
    + exists t. rewrite nth_error_app1 by lia. split; [exact N|].
      split; [apply in_or_app; left; now apply nth_error_In in N|].
      intros _. split; [cbn; now rewrite E0|]. exists body, eof. cbn.
      repeat split; auto. lia.
    + apply nth_error_None in N. lia.
Qed.

(** The tests and the moves, when the token under the cursor is known. *)

Lemma isAtEnd_at (p : Parser) (t : Token) :
  peek p = Some t -> isAtEnd p = Ok (eqType (type t) EOF).
Proof. unfold isAtEnd. now intros ->. Qed.

Lemma check_at (ty : TokenType) (p : Parser) (t : Token) :
  peek p = Some t -> check ty p = Ok (eqType (type t) ty).
Proof. unfold check. now intros ->. Qed.

Lemma checkAny_at (tys : list TokenType) (p : Parser) (t : Token) :
  peek p = Some t -> checkAny tys p = Ok (existsb (eqType (type t)) tys).
Proof.
  intros K. induction tys as [|ty tys IH]; cbn [checkAny existsb]; auto.
  rewrite (check_at ty p t K). cbn [bind].
  now destruct (eqType (type t) ty).
Qed.

Lemma advance_at (p : Parser) (t : Token) :
  peek p = Some t -> eqType (type t) EOF = false ->
  advance p = Ok (Some t, next p).
Proof.
  intros K F. unfold advance. rewrite (isAtEnd_at p t K), F. cbn [bind].
  unfold next. cbn [pos]. rewrite Nat.add_1_r. unfold tokenAt. cbn [tokens].
  unfold peek, tokenAt in K. now rewrite K.
Qed.

Lemma consume_at (ty : TokenType) (m : jsstring) (p : Parser) (t : Token) :
  peek p = Some t ->
  consume ty m p =
    if eqType (type t) ty then advance p
    else Throw (parseErrorAt (m ++ str ", got " ++ typeName (type t)) t).
Proof.
  intros K. unfold consume. rewrite (check_at ty p t K). cbn [bind].
  destruct (eqType (type t) ty); [reflexivity|].
  unfold throwError, error. rewrite K. reflexivity.
Qed.

Lemma throwError_at {A : Type} (m : jsstring) (p : Parser) (t : Token) :
  peek p = Some t -> @throwError A m p = Throw (parseErrorAt m t).
Proof. intros K. unfold throwError, error. now rewrite K. Qed.

(** The tests of a state are replaced by the tests of its token. *)
Ltac at_token K :=
  rewrite ?(isAtEnd_at _ _ K), ?(check_at _ _ _ K), ?(checkAny_at _ _ _ K);
  cbn [bind existsb].

(** Reading the token [t] under the cursor, which is not a brace. *)
Lemma read_token (p : Parser) (t : Token) :
  guarded ts p -> peek p = Some t ->
  eqType (type t) EOF = false -> type t <> LBRACE -> type t <> RBRACE ->
  guarded ts (next p) /\ settles p (next p).
Proof.
  intros G K F L R. destruct (guarded_peek p G) as (t' & K' & _ & N).
  rewrite K in K'. injection K' as <-.
  split; [now apply N|now apply settles_next with t].
Qed.

Lemma parseOptionalValue_outcome (p : Parser) :
  guarded ts p ->
  outcome ts (fun r => guarded ts (snd r) /\ settles p (snd r))
          (parseOptionalValue p).
Proof.
  intros G. destruct (guarded_peek p G) as (t & K & M & N).
  unfold parseOptionalValue. at_token K.
  destruct (type t) eqn:Ty; cbn [eqType orb];
    try (split; [exact G|apply settles_refl]);
    rewrite (advance_at p t K) by (now rewrite Ty); cbn;
    apply (read_token p t G K); rewrite Ty; (reflexivity || discriminate).
Qed.

Lemma flagArg_outcome (short : bool) (p : Parser) (t : Token) :
  guarded ts p -> peek p = Some t ->
  eqType (type t) EOF = false -> type t <> LBRACE -> type t <> RBRACE ->
  outcome ts (fun r => guarded ts (snd r) /\ settles p (snd r))
          (flagArg short p).
Proof.
  intros G K F L R. destruct (read_token p t G K F L R) as [G1 S1].
  unfold flagArg. rewrite (advance_at p t K F). cbn [bind].
  apply outcome_bind with (1 := parseOptionalValue_outcome (next p) G1).
  intros [v p2] [G2 S2]. cbn. split; [exact G2|].
  now apply settles_trans with (next p).
Qed.

Lemma positionalArg_outcome (p : Parser) (t : Token) :
  guarded ts p -> peek p = Some t ->
  eqType (type t) EOF = false -> type t <> LBRACE -> type t <> RBRACE ->
  outcome ts (fun r => guarded ts (snd r) /\ settles p (snd r))
          (positionalArg p).
Proof.
  intros G K F L R.
  unfold positionalArg. rewrite (advance_at p t K F). cbn.
  now apply read_token with t.
Qed.

(** A loop goes on from [p1], where its first turn has left it. *)
Lemma outcome_settles {A : Type} (p p1 : Parser) (m : result (A * Parser)) :
  settles p p1 ->
  outcome ts (fun r => guarded ts (snd r) /\ settles p1 (snd r)) m ->
  outcome ts (fun r => guarded ts (snd r) /\ settles p (snd r)) m.
Proof.
  intros S. destruct m as [r|e|]; cbn; auto.
  intros [G S1]. split; [exact G|]. now apply settles_trans with p1.
Qed.

Lemma parseArgs_loop_outcome :
  forall (fuel : nat) (p : Parser) (args : list Argument),
    guarded ts p ->
    outcome ts (fun r => guarded ts (snd r) /\ settles p (snd r))
            (parseArgs_loop fuel p args).
Proof.
  induction fuel as [|fuel IH]; intros p args G; [exact I|].
  destruct (guarded_peek p G) as (t & K & M & N).
  cbn [parseArgs_loop]. at_token K.
  destruct (type t) eqn:Ty; cbn [eqType orb];
    try (split; [exact G|apply settles_refl]).
  - eapply outcome_bind;
      [apply (flagArg_outcome false p t G K); rewrite Ty;
       (reflexivity || discriminate)|].
    intros [a p1] [G1 S1]. apply outcome_settles with (1 := S1).
    now apply IH.
  - eapply outcome_bind;
      [apply (flagArg_outcome true p t G K); rewrite Ty;
       (reflexivity || discriminate)|].
    intros [a p1] [G1 S1]. apply outcome_settles with (1 := S1).
    now apply IH.
  - eapply outcome_bind;
      [apply (positionalArg_outcome p t G K); rewrite Ty;
       (reflexivity || discriminate)|].
    intros [a p1] [G1 S1]. apply outcome_settles with (1 := S1).
    now apply IH.
  - eapply outcome_bind;
      [apply (positionalArg_outcome p t G K); rewrite Ty;
       (reflexivity || discriminate)|].
    intros [a p1] [G1 S1]. apply outcome_settles with (1 := S1).
    now apply IH.
Qed.

Lemma parsePipeArgs_loop_outcome :
  forall (fuel : nat) (p : Parser) (args : list Argument),
    guarded ts p ->
    outcome ts (fun r => guarded ts (snd r) /\ settles p (snd r))
            (parsePipeArgs_loop fuel p args).
Proof.
  induction fuel as [|fuel IH]; intros p args G; [exact I|].
  destruct (guarded_peek p G) as (t & K & M & N).
  cbn [parsePipeArgs_loop]. at_token K.
  destruct (type t) eqn:Ty; cbn [eqType orb];
    try (split; [exact G|apply settles_refl]).
  - eapply outcome_bind;
      [apply (positionalArg_outcome p t G K); rewrite Ty;
       (reflexivity || discriminate)|].
    intros [a p1] [G1 S1]. apply outcome_settles with (1 := S1).
    now apply IH.
  - eapply outcome_bind;
      [apply (positionalArg_outcome p t G K); rewrite Ty;
       (reflexivity || discriminate)|].
    intros [a p1] [G1 S1]. apply outcome_settles with (1 := S1).
    now apply IH.
Qed.

Lemma parsePipes_loop_outcome :
  forall (fuel : nat) (p : Parser) (pipes : list Pipe),
    guarded ts p ->
    outcome ts (fun r => guarded ts (snd r) /\ settles p (snd r))
            (parsePipes_loop fuel p pipes).
Proof.
  induction fuel as [|fuel IH]; intros p pipes G; [exact I|].
  destruct (guarded_peek p G) as (t & K & M & N).
  cbn [parsePipes_loop]. at_token K.
  destruct (eqType (type t) PIPE) eqn:Ty;
    [|split; [exact G|apply settles_refl]].
  apply eqType_eq in Ty.
  assert (F : eqType (type t) EOF = false) by now rewrite Ty.
  rewrite (advance_at p t K F). cbn [bind].
  destruct (read_token p t G K F) as [G0 S0]; try (rewrite Ty; discriminate).
  destruct (guarded_peek _ G0) as (t1 & K1 & M1 & N1).
  rewrite (consume_at _ _ _ t1 K1).
  destruct (eqType (type t1) VALUE) eqn:Ty1.
  - apply eqType_eq in Ty1.
    assert (F1 : eqType (type t1) EOF = false) by now rewrite Ty1.
    rewrite (advance_at _ t1 K1 F1). cbn [bind defined].
    destruct (read_token _ t1 G0 K1 F1) as [G1 S1];
      try (rewrite Ty1; discriminate).
    eapply outcome_bind;
      [apply (parsePipeArgs_loop_outcome fuel _ [] G1)|].
    intros [args p3] [G3 S3]. cbn [snd] in *.
    apply outcome_settles with p3; [|now apply IH].
    apply settles_trans with (1 := S0). now apply settles_trans with (1 := S1).
  - cbn. eexists _, t1. split; [exact M1|]. split; [|reflexivity].
    right; right. split; [reflexivity|]. intros E. now rewrite E in Ty1.
Qed.

Lemma parseContent_outcome (p : Parser) (t : Token) :
  guarded ts p -> peek p = Some t -> type t = CONTENT ->
  outcome ts (fun r => guarded ts (snd r) /\ settles p (snd r))
          (parseContent p).
Proof.
  intros G K Ty.
  assert (F : eqType (type t) EOF = false) by now rewrite Ty.
  unfold parseContent. rewrite (consume_at _ _ _ t K), Ty. cbn [eqType].
  rewrite (advance_at p t K F). cbn.
  apply (read_token p t G K F); rewrite Ty; discriminate.
Qed.

Lemma parseBlock_outcome
    (children : Parser -> result (list Node * Parser)) (p : Parser)
    (t : Token) :
  (forall q, guarded ts q ->
     outcome ts (fun r => guarded ts (snd r) /\ stopped (snd r) /\
                          settles q (snd r)) (children q)) ->
  guarded ts p -> peek p = Some t -> type t = LBRACE ->
  outcome ts (fun r => guarded ts (snd r) /\ settles p (snd r))
          (parseBlock children p).
Proof.
  intros C G K Ty. destruct (guarded_peek p G) as (t' & K' & _ & N).
  rewrite K in K'. injection K' as <-.
  assert (F : eqType (type t) EOF = false) by now rewrite Ty.
  unfold parseBlock. rewrite (consume_at _ _ _ t K), Ty. cbn [eqType].
  rewrite (advance_at p t K F). cbn [bind].
  apply outcome_bind with (1 := C (next p) (N F)).
  intros [cs p2] (G2 & (t2 & K2 & S2) & [E2 D2]). cbn [snd] in *.
  destruct (guarded_peek p2 G2) as (t2' & K2' & M2 & N2).
  rewrite K2 in K2'. injection K2' as <-.
  rewrite (consume_at _ _ _ t2 K2). destruct S2 as [S2|S2]; rewrite S2.
  - cbn. eexists _, t2. split; [exact M2|]. split; [|reflexivity].
    right; left. split; [reflexivity|exact S2].
  - cbn [eqType].
    assert (F2 : eqType (type t2) EOF = false) by now rewrite S2.
    rewrite (advance_at p2 t2 K2 F2). cbn. split; [now apply N2|].
    split; [exact E2|]. intros level. cbn [next tokens pos] in *.
    rewrite (deepest_lbrace p t level K Ty).
    pose proof (deepest_rbrace p2 t2 level K2 S2) as R.
    rewrite E2 in R. cbn [next tokens pos] in R.
    specialize (D2 (S level)). cbn [next pos]. lia.
Qed.

Lemma parseCommand_outcome (fuel : nat)
    (children : Parser -> result (list Node * Parser)) (p : Parser)
    (t : Token) :
  (forall q, guarded ts q ->
     outcome ts (fun r => guarded ts (snd r) /\ stopped (snd r) /\
                          settles q (snd r)) (children q)) ->
  guarded ts p -> peek p = Some t -> type t = COMMAND ->
  outcome ts (fun r => guarded ts (snd r) /\ settles p (snd r))
          (parseCommand fuel children p).
Proof.
  intros C G K Ty.
  assert (F : eqType (type t) EOF = false) by now rewrite Ty.
  destruct (read_token p t G K F) as [G1 S1]; try (rewrite Ty; discriminate).
  unfold parseCommand. rewrite (consume_at _ _ _ t K), Ty. cbn [eqType].
  rewrite (advance_at p t K F). cbn [bind defined].
  eapply outcome_bind;
    [apply (parseArgs_loop_outcome fuel _ [] G1)|].
  intros [args p2] [G2 S2]. cbn [snd] in G2, S2.
  pose proof (settles_trans _ _ _ S1 S2) as S12.
  destruct (guarded_peek p2 G2) as (t2 & K2 & M2 & N2).
  at_token K2.
  apply outcome_bind
    with (P := fun r => guarded ts (snd r) /\ settles p (snd r)).
  { destruct (eqType (type t2) LBRACE) eqn:Ty2; [|now split].
    apply eqType_eq in Ty2.
    apply outcome_bind
      with (1 := parseBlock_outcome children p2 t2 C G2 K2 Ty2).
    intros [b p'] [G' S']. split; [exact G'|].
    now apply settles_trans with p2. }
  intros [block p3] [G3 S3]. cbn [snd] in G3, S3.
  apply outcome_bind
    with (P := fun r => guarded ts (snd r) /\ settles p (snd r)).
  { destruct block; [now split|].
    destruct (guarded_peek p3 G3) as (t3 & K3 & M3 & N3).
    at_token K3. destruct (eqType (type t3) PIPE); [|now split].
    eapply outcome_bind;
      [apply (parsePipes_loop_outcome fuel p3 [] G3)|].
    intros [ps p'] [G' S']. split; [exact G'|].
    now apply settles_trans with p3. }
  intros [pipes p4] G4. exact G4.
Qed.

(** A loop of [parseChildren] goes on from [p1]. *)
Lemma outcome_stopped {A : Type} (p p1 : Parser) (m : result (A * Parser)) :
  settles p p1 ->
  outcome ts (fun r => guarded ts (snd r) /\ stopped (snd r) /\
                       settles p1 (snd r)) m ->
  outcome ts (fun r => guarded ts (snd r) /\ stopped (snd r) /\
                       settles p (snd r)) m.
Proof.
  intros S. destruct m as [r|e|]; cbn; auto.
  intros (G & T & S1). split; [exact G|]. split; [exact T|].
  now apply settles_trans with p1.
Qed.

Lemma parseChildren_loop_outcome :
  forall (fuel : nat) (p : Parser) (cs : list Node),
    guarded ts p ->
    outcome ts (fun r => guarded ts (snd r) /\ stopped (snd r) /\
                         settles p (snd r))
            (parseChildren_loop fuel p cs).
Proof.
  induction fuel as [|fuel IH]; intros p cs G; [exact I|].
  destruct (guarded_peek p G) as (t & K & M & N).
  cbn [parseChildren_loop]. at_token K.
  assert (skip : eqType (type t) EOF = false ->
                 type t <> LBRACE -> type t <> RBRACE ->
                 outcome ts (fun r => guarded ts (snd r) /\ stopped (snd r) /\
                                      settles p (snd r))
                   ('(_, p1) <- advance p ;; parseChildren_loop fuel p1 cs)).
  { intros F L R. rewrite (advance_at p t K F). cbn [bind].
    destruct (read_token p t G K F L R) as [G1 S1].
    apply outcome_stopped with (1 := S1). now apply IH. }
  destruct (type t) eqn:Ty; cbn [eqType];
    try (apply skip; (reflexivity || discriminate)).
  - eapply outcome_bind;
      [apply (parseCommand_outcome fuel _ p t); auto; intros q Q;
       now apply IH|].
    intros [c p1] [G1 S1]. apply outcome_stopped with (1 := S1).
    now apply IH.
  - rewrite (throwError_at _ p t K). cbn. eexists _, t.
    split; [exact M|]. split; [|reflexivity].
    left. split; [reflexivity|exact Ty].
  - cbn. split; [exact G|]. split; [|apply settles_refl].
    exists t. split; [exact K|]. now right.
  - eapply outcome_bind; [apply (parseContent_outcome p t); auto|].
    intros [c p1] [G1 S1]. apply outcome_stopped with (1 := S1).
    now apply IH.
  - cbn. split; [exact G|]. split; [|apply settles_refl].
    exists t. split; [exact K|]. now left.
Qed.

(** *** The call stack

    While the braces that are still to read nest no deeper than the stack
    has room for, the parser on the bounded stack does what the parser does
    that the embedding of parser.ts gives. *)

Lemma outcome_ok {A : Type} (P : A -> Prop) (m : result A) (a : A) :
  outcome ts P m -> m = Ok a -> P a.
Proof. now intros O ->. Qed.

Lemma settles_fits (p p1 : Parser) (level bound : nat) :
  guarded ts p -> settles p p1 ->
  deepest level (skipn (pos p) ts) <= bound ->
  deepest level (skipn (pos p1) ts) <= bound.
Proof.
  intros [E _] [_ S] D. specialize (S level). rewrite E in S. lia.
Qed.

Lemma lbrace_fits (p : Parser) (t : Token) (level depth : nat) :
  guarded ts p -> peek p = Some t -> type t = LBRACE ->
  deepest level (skipn (pos p) ts) <= level + depth ->
  exists depth',
    depth = S depth' /\
    deepest (S level) (skipn (pos (next p)) ts) <= S level + depth'.
Proof.
  intros [E _] K L D.
  pose proof (deepest_lbrace p t level K L) as B. rewrite E in B.
  pose proof (deepest_level (S level) (skipn (pos (next p)) ts)) as M.
  destruct depth as [|depth']; [lia|]. exists depth'. split; [reflexivity|].
  lia.
Qed.

Lemma parseChildren_loop_within :
  forall (fuel depth level : nat) (p : Parser) (cs : list Node),
    guarded ts p ->
    deepest level (skipn (pos p) ts) <= level + depth ->
    Stack.parseChildren_loop fuel depth p cs = parseChildren_loop fuel p cs.
Proof.
  induction fuel as [|fuel IH]; intros depth level p cs G D; [reflexivity|].
  destruct (guarded_peek p G) as (t & K & M & N).
  cbn [Stack.parseChildren_loop parseChildren_loop]. at_token K.
  assert (skip : eqType (type t) EOF = false ->
                 type t <> LBRACE -> type t <> RBRACE ->
                 ('(_, p1) <- advance p ;;
                  Stack.parseChildren_loop fuel depth p1 cs) =
                 ('(_, p1) <- advance p ;; parseChildren_loop fuel p1 cs)).
  { intros F L R. rewrite (advance_at p t K F). cbn [bind].
    destruct (read_token p t G K F L R) as [G1 S1].
    apply (IH depth level); [exact G1|].
    now apply settles_fits with p. }
  destruct (type t) eqn:Ty; cbn [eqType];
    try (apply skip; (reflexivity || discriminate)); try reflexivity.
  - assert (F : eqType (type t) EOF = false) by now rewrite Ty.
    assert (C : parseCommand fuel
                  (fun q =>
                     match depth with
                     | 0 => Throw RangeError
                     | S depth' => Stack.parseChildren_loop fuel depth' q []
                     end) p =
                parseCommand fuel (fun q => parseChildren_loop fuel q []) p).
    { destruct (read_token p t G K F) as [G1 S1];
        try (rewrite Ty; discriminate).
      unfold parseCommand. rewrite (consume_at _ _ _ t K), Ty. cbn [eqType].
      rewrite (advance_at p t K F). cbn [bind defined]. unfold parseArgs.
      pose proof (parseArgs_loop_outcome fuel (next p) [] G1) as O.
      destruct (parseArgs_loop fuel (next p) []) as [[args p2]| |];
        cbn [bind]; try reflexivity.
      destruct O as [G2 S2]. cbn [snd] in G2, S2.
      destruct (guarded_peek p2 G2) as (t2 & K2 & M2 & N2). at_token K2.
      destruct (eqType (type t2) LBRACE) eqn:Ty2; [|reflexivity].
      apply eqType_eq in Ty2.
      assert (F2 : eqType (type t2) EOF = false) by now rewrite Ty2.
      unfold parseBlock. rewrite (consume_at _ _ _ t2 K2), Ty2.
      cbn [eqType]. rewrite (advance_at p2 t2 K2 F2). cbn [bind].
      assert (D2 : deepest level (skipn (pos p2) ts) <= level + depth).
      { apply settles_fits with (next p); [exact G1|exact S2|].
        now apply settles_fits with p. }
      destruct (lbrace_fits p2 t2 level depth G2 K2 Ty2 D2)
        as (depth' & -> & D3).
      now rewrite (IH depth' (S level) (next p2) [] (N2 F2) D3). }
    rewrite C.
    pose proof (parseCommand_outcome fuel
                  (fun q => parseChildren_loop fuel q []) p t
                  (fun q Q => parseChildren_loop_outcome fuel q [] Q)
                  G K Ty) as O.
    destruct (parseCommand fuel (fun q => parseChildren_loop fuel q []) p)
      as [[c p1]| |]; cbn [bind]; try reflexivity.
    destruct O as [G1 S1]. cbn [snd] in G1, S1.
    apply (IH depth level); [exact G1|]. now apply settles_fits with p.
  - pose proof (parseContent_outcome p t G K Ty) as O.
    destruct (parseContent p) as [[c p1]| |]; cbn [bind]; try reflexivity.
    destruct O as [G1 S1]. cbn [snd] in G1, S1.
    apply (IH depth level); [exact G1|]. now apply settles_fits with p.
Qed.

End OnTokens.

(** The parser on a token list that ends with an end-of-file token: it
    returns a document or throws a syntax error at a token of the list. *)
Lemma run_outcome (ts : list Token) :
  endsWithEOF ts ->
  (exists doc, run (mkParser ts 0) = Ok doc) \/
  (exists what t,
     In t ts /\ syntaxMessage what t /\
     run (mkParser ts 0) = Throw (parseErrorAt what t)).
Proof.
  intros (body & eof & E & T).
  assert (G : guarded ts (mkParser ts 0)).
  { split; [reflexivity|]. exists body, eof. cbn. repeat split; auto. lia. }
  pose proof (parse_total (mkParser ts 0)) as F.
  assert (O : outcome ts (fun _ => True) (run (mkParser ts 0))).
  { unfold run, parseChildren.
    eapply outcome_bind; [now apply parseChildren_loop_outcome|].
    intros [cs p'] _. exact I. }
  destruct (run (mkParser ts 0)) as [doc|e|]; cbn in O.
  - left. now exists doc.
  - right. destruct O as (what & t & A & B & ->). now exists what, t.
  - now contradiction F.
Qed.

(** With room for the blocks of the list, the stack plays no part. *)
Lemma run_within (ts : list Token) (depth : nat) :
  endsWithEOF ts -> nesting ts <= depth ->
  Stack.run depth (mkParser ts 0) = run (mkParser ts 0).
Proof.
  intros (body & eof & E & T) D.
  assert (G : guarded ts (mkParser ts 0)).
  { split; [reflexivity|]. exists body, eof. cbn. repeat split; auto. lia. }
  unfold Stack.run, run, Stack.parseChildren, parseChildren.
  now rewrite (parseChildren_loop_within ts _ depth 0 _ [] G D).
Qed.

(** X6: on a token list that ends with an end-of-file token and whose
    blocks nest no deeper than the call stack has room for, the parser
    never reads outside the list and never finds the stack full: it does
    what it does without a bound on the stack, which is to return a
    document or to throw a [ParseError] that carries the location of a
    token of the list.  The parser has three syntax errors: a left brace
    without a command, a block that is still open at the end of the file,
    and a pipe that is not followed by a VALUE token. *)
Theorem parser_returns_or_throws (ts : list Token) (depth : nat) :
  endsWithEOF ts -> nesting ts <= depth ->
  Stack.run depth (mkParser ts 0) = run (mkParser ts 0) /\
  ((exists doc, Stack.run depth (mkParser ts 0) = Ok doc) \/
   (exists what t,
      In t ts /\ syntaxMessage what t /\
      Stack.run depth (mkParser ts 0) = Throw (parseErrorAt what t))).
Proof.
  intros E D. split; [now apply run_within|].
  rewrite (run_within ts depth E D). now apply run_outcome.
Qed.

Lemma parser_returns_or_throws_witness :
  endsWithEOF tokens_block /\ nesting tokens_block <= 1 /\
  Stack.run 1 (mkParser tokens_block 0) = run (mkParser tokens_block 0) /\
  ((exists doc, Stack.run 1 (mkParser tokens_block 0) = Ok doc) \/
   (exists what t,
      In t tokens_block /\ syntaxMessage what t /\
      Stack.run 1 (mkParser tokens_block 0) = Throw (parseErrorAt what t))).
Proof.
  assert (E : endsWithEOF tokens_block).
  { exists [mkToken COMMAND (str "a") (span 1 1 0 1 3 2);
            mkToken LBRACE (str "{") (span 1 4 3 1 5 4);
            mkToken CONTENT (str " x ") (span 1 5 4 1 8 7);
            mkToken RBRACE (str "}") (span 1 8 7 1 9 8)],
           (mkToken EOF [] (span 1 9 8 1 9 8)).
    split; reflexivity. }
  assert (D : nesting tokens_block <= 1) by (vm_compute; lia).
  split; [exact E|]. split; [exact D|].
  exact (parser_returns_or_throws tokens_block 1 E D).
Defined.

(** With room for the blocks of the source, [parse] on the bounded stack
    is [parse]. *)
Lemma parse_within (src : jsstring) (depth : nat) :
  (forall ts, Tokenizer.tokenize src = Ok ts -> nesting ts <= depth) ->
  Stack.parse depth src = parse src.
Proof.
  intros D. unfold Stack.parse, parse.
  destruct (Tokenizer.tokenize src) as [ts| |] eqn:T; cbn [bind];
    try reflexivity.
  destruct (tokenize_stream src ts T) as (body & q & E & _).
  apply run_within; [|now apply D].
  exists body, (mkToken EOF [] (mkLocation q q)). split; [exact E|reflexivity].
Qed.

(** X7: when the blocks of the tokens of a source nest no deeper than the
    call stack has room for, [parse] ends in one of three ways: with a
    document, with a lexical error of the tokenizer, or with a syntax error
    of the parser, whose location is that of a token of the source. *)
Theorem parse_returns_or_throws (src : jsstring) (depth : nat) :
  (forall ts, Tokenizer.tokenize src = Ok ts -> nesting ts <= depth) ->
  (exists doc, Stack.parse depth src = Ok doc) \/
  (exists what p,
     Stack.parse depth src = Throw (Tokenizer.error what p) /\
     lexicalMessage what /\ oneBased p /\ offset p < length src) \/
  (exists ts what t,
     Tokenizer.tokenize src = Ok ts /\ In t ts /\ syntaxMessage what t /\
     Stack.parse depth src = Throw (parseErrorAt what t)).
Proof.
  intros D. rewrite (parse_within src depth D). unfold parse.
  destruct (tokenize_cases src) as [(ts & T)|(what & p & T & K)].
  - rewrite T. cbn [bind].
    destruct (tokenize_stream src ts T) as (body & q & E & _).
    destruct (run_outcome ts) as [(doc & R)|(what & t & A & B & R)].
    + exists body, (mkToken EOF [] (mkLocation q q)).
      split; [exact E|reflexivity].
    + left. now exists doc.
    + right; right. exists ts, what, t. auto.
  - right; left. exists what, p. rewrite T. cbn [bind]. auto.
Qed.

Lemma parse_returns_or_throws_witness :
  (forall ts, Tokenizer.tokenize src_block = Ok ts -> nesting ts <= 1) /\
  ((exists doc, Stack.parse 1 src_block = Ok doc) \/
   (exists what p,
      Stack.parse 1 src_block = Throw (Tokenizer.error what p) /\
      lexicalMessage what /\ oneBased p /\ offset p < length src_block) \/
   (exists ts what t,
      Tokenizer.tokenize src_block = Ok ts /\ In t ts /\
      syntaxMessage what t /\
      Stack.parse 1 src_block = Throw (parseErrorAt what t))).
Proof.
  assert (D : forall ts,
             Tokenizer.tokenize src_block = Ok ts -> nesting ts <= 1).
  { intros ts H.
    assert (T : Tokenizer.tokenize src_block = Ok tokens_block)
      by (vm_compute; reflexivity).
    rewrite T in H. injection H as <-. vm_compute. lia. }
  split; [exact D|]. exact (parse_returns_or_throws src_block 1 D).
Defined.

(** *** Blocks that nest deeper than the stack has room for *)

Lemma nth_error_after (pre rest : list Token) (i : nat) :
  nth_error (pre ++ rest) (length pre + i) = nth_error rest i.
Proof.
  rewrite nth_error_app2 by lia. f_equal. lia.
Qed.

Ltac on_token K :=
  rewrite ?(isAtEnd_at _ _ K), ?(check_at _ _ _ K), ?(checkAny_at _ _ _ K);
  cbn [bind existsb].

Lemma openBlocks_overflow (l : Location) :
  forall (depth n fuel : nat) (pre : list Token) (cs : list Node),
    depth < n -> depth + 2 <= fuel ->
    Stack.parseChildren_loop fuel depth
      (mkParser (pre ++ openBlocks n l) (length pre)) cs =
    Throw RangeError.
Proof.
  induction depth as [|depth IH]; intros n fuel pre cs N F;
    (destruct n as [|n]; [lia|]);
    (destruct fuel as [|fuel]; [lia|]);
    cbn [openBlocks].
  all: set (c := mkToken COMMAND (str "a") l);
    set (b := mkToken LBRACE (str "{") l);
    set (toks := pre ++ c :: b :: openBlocks n l).
  all: assert (K0 : peek (mkParser toks (length pre)) = Some c)
    by (unfold peek, tokenAt, toks; cbn [tokens pos];
        rewrite <- (Nat.add_0_r (length pre)) at 1;
        now rewrite nth_error_after).
  all: assert (K1 : peek (next (mkParser toks (length pre))) = Some b)
    by (unfold peek, tokenAt, next, toks; cbn [tokens pos];
        now rewrite nth_error_after).
  all: cbn [Stack.parseChildren_loop]; on_token K0; cbn [type c eqType];
    unfold parseCommand; rewrite (consume_at _ _ _ c K0); cbn [type c eqType];
    rewrite (advance_at _ c K0 eq_refl); cbn [bind defined];
    unfold parseArgs; (destruct fuel as [|fuel]; [lia|]);
    cbn [parseArgs_loop]; on_token K1; cbn [type b eqType orb bind];
    on_token K1; cbn [type b eqType bind];
    unfold parseBlock; rewrite (consume_at _ _ _ b K1); cbn [type b eqType];
    rewrite (advance_at _ b K1 eq_refl); cbn [bind].
  - reflexivity.
  - assert (E : toks = (pre ++ [c; b]) ++ openBlocks n l)
      by (unfold toks; now rewrite <- app_assoc).
    assert (L : length pre + 1 + 1 = length (pre ++ [c; b]))
      by (rewrite length_app; cbn; lia).
    unfold next. cbn [tokens pos]. rewrite L, E.
    rewrite IH; [reflexivity|lia|lia].
Qed.

(** X26: [n] commands, each with a block that holds the next one, on a
    call stack with room for fewer than [n] nested blocks: the parser ends
    with the [RangeError] of the engine, not with a syntax error, though a
    right brace is missing. *)
Theorem deep_nesting_overflows (depth n : nat) (l : Location) :
  depth < n ->
  Stack.run depth (mkParser (openBlocks n l) 0) = Throw RangeError.
Proof.
  intros N. unfold Stack.run, Stack.parseChildren. cbn [tokens pos].
  rewrite (openBlocks_overflow l depth n _ [] [] N); [reflexivity|].
  assert (L : forall k, length (openBlocks k l) = 2 * k + 1)
    by (induction k as [|k IH]; cbn [openBlocks length]; lia).
  rewrite L. lia.
Qed.

Lemma deep_nesting_overflows_witness :
  1 < 2 /\
  Stack.run 1 (mkParser (openBlocks 2 (span 1 1 0 1 1 0)) 0) =
    Throw RangeError.
Proof.
  split; [lia|]. apply (deep_nesting_overflows 1 2). lia.
Defined.

End ParserSafety.

(* ================================================================== *)
(** ** The rules of the command line *)
(* ================================================================== *)

Module ScanRules.
Import Ast Tokenizer Vocabulary Examples Streams Invariants Samples Lexing.
Import TokenStream.

#[local] Arguments isAtEnd : simpl never.
#[local] Arguments peek : simpl never.
#[local] Arguments peekNext : simpl never.
#[local] Arguments advance : simpl never.
#[local] Arguments remaining : simpl never.
#[local] Arguments unread : simpl never.
#[local] Arguments advanceBy : simpl never.
#[local] Arguments moveOver : simpl never.

(** *** Quoted strings *)

Lemma remaining_moveOver (text rest : jsstring) (s : Scanner) :
  unread s = text ++ rest -> remaining (moveOver text s) = length rest.
Proof.
  intros H. now rewrite remaining_unread, (unread_moveOver_app _ _ _ H).
Qed.

Lemma moveOver_plain (c : char) (s : Scanner) :
  eqc c c_nl = false -> moveOver [c] s = advanceBy 1 s.
Proof. intros E. now rewrite moveOver_cons, E, moveOver_nil. Qed.

Lemma moveOver_app (a b : jsstring) (s : Scanner) :
  moveOver (a ++ b) s = moveOver b (moveOver a s).
Proof.
  revert s. induction a as [|c a IH]; intros s; cbn [app].
  - now rewrite moveOver_nil.
  - now rewrite !moveOver_cons, IH.
Qed.

Lemma unescape_quote (quote c : char) :
  quote = c_dquote \/ quote = c_squote ->
  eqc c quote || eqc c c_backslash = true ->
  unescape c = c /\ eqc c c_nl = false.
Proof.
  intros Q H. apply orb_prop in H.
  destruct H as [H|H]; apply eqc_eq in H; subst c;
    [destruct Q; subst quote|]; split; reflexivity.
Qed.

Lemma scanString_loop_quoted (quote : char) (v : jsstring) :
  quote = c_dquote \/ quote = c_squote ->
  forall (fuel : nat) (s : Scanner) (acc rest : jsstring),
    unread s = quoteText quote v ++ rest ->
    remaining s <= fuel ->
    scanString_loop fuel quote s acc =
      scanString_loop fuel quote (moveOver (quoteText quote v) s) (acc ++ v).
Proof.
  intros Q. induction v as [|c v IH]; intros fuel s acc rest H F.
  - cbn [quoteText flat_map]. now rewrite moveOver_nil, app_nil_r.
  - cbn [quoteText flat_map] in *. fold (quoteText quote v) in *.
    assert (B : eqc c_backslash quote = false)
      by (destruct Q; subst quote; reflexivity).
    replace (acc ++ c :: v) with ((acc ++ [c]) ++ v)
      by (now rewrite <- app_assoc).
    rewrite moveOver_app.
    destruct fuel as [|fuel];
      [rewrite remaining_unread, H in F;
       destruct (eqc c quote || eqc c c_backslash); cbn in F; lia|].
    match goal with
    | |- _ = scanString_loop _ _ (moveOver ?t (moveOver ?pre s)) ?a =>
        assert (R : remaining (moveOver t (moveOver pre s)) <= fuel);
        [|rewrite (scanString_loop_budget (S fuel) fuel quote
                     (moveOver t (moveOver pre s)) a) by lia]
    end.
    { rewrite <- moveOver_app.
      rewrite (remaining_moveOver _ rest) by exact H.
      rewrite remaining_unread, H, !length_app in F.
      destruct (eqc c quote || eqc c c_backslash); cbn [length] in F; lia. }
    destruct (eqc c quote || eqc c c_backslash) eqn:K.
    + destruct (unescape_quote quote c Q K) as (U & N).
      cbn [app] in H.
      assert (H1 : unread (advanceBy 1 s) = c :: quoteText quote v ++ rest)
        by (rewrite unread_advanceBy, H; reflexivity).
      assert (M : moveOver [c_backslash; c] s = advanceBy 1 (advanceBy 1 s)).
      { rewrite moveOver_cons.
        change (eqc c_backslash c_nl) with false. cbv iota.
        now apply moveOver_plain. }
      cbn [scanString_loop].
      rewrite (isAtEnd_cons H), (peek_cons H), B, eqc_refl.
      cbn [negb andb]. rewrite (advance_cons H), (isAtEnd_cons H1).
      cbn [negb]. rewrite (advance_cons H1), U.
      assert (H2 : unread (advanceBy 1 (advanceBy 1 s)) =
                   quoteText quote v ++ rest)
        by (rewrite unread_advanceBy, H1; reflexivity).
      assert (F2 : remaining (advanceBy 1 (advanceBy 1 s)) <= fuel).
      { rewrite remaining_unread, H2. rewrite remaining_unread, H in F.
        cbn [length] in F. lia. }
      now rewrite (IH fuel _ (acc ++ [c]) rest H2 F2), M.
    + apply orb_false_elim in K. destruct K as [K1 K2]. cbn [app] in H.
      assert (H1 : unread (advanceBy 1 s) = quoteText quote v ++ rest)
        by (rewrite unread_advanceBy, H; reflexivity).
      assert (F1 : remaining (advanceBy 1 s) <= fuel).
      { rewrite remaining_unread, H1. rewrite remaining_unread, H in F.
        cbn [length] in F. lia. }
      cbn [scanString_loop].
      rewrite (isAtEnd_cons H), (peek_cons H), K1, K2.
      cbn [negb andb]. rewrite (advance_cons H), moveOver_cons.
      destruct (eqc c c_nl).
      * now rewrite (IH fuel (nextLine (advanceBy 1 s)) (acc ++ [c]) rest H1 F1).
      * now rewrite (IH fuel (advanceBy 1 s) (acc ++ [c]) rest H1 F1).
Qed.
Lemma quoteText_plain (quote : char) (v : jsstring) :
  forallb (fun c => negb (eqc c quote || eqc c c_backslash)) v = true ->
  quoteText quote v = v.
Proof.
  induction v as [|c v IH]; cbn [forallb quoteText flat_map]; [reflexivity|].
  intros H. apply andb_prop in H. destruct H as [H1 H2].
  apply negb_true_iff in H1. rewrite H1. cbn [app]. f_equal. now apply IH.
Qed.

(** X8: on a command line, the text between two quotes is read back as it
    was written: when every quote character and every backslash of a text
    [v] has a backslash before it, the STRING token holds [v], newlines
    included, and the scanner stands after the closing quote.  A text that
    has neither the quote character nor a backslash is written as it is. *)
Theorem quoted_string_round_trip (s : Scanner) (quote : char)
    (v rest : jsstring) :
  inCommandMode s = true ->
  quote = c_dquote \/ quote = c_squote ->
  unread s = quote :: quoteText quote v ++ quote :: rest ->
  let s' := addToken STRING v (currentPosition s)
              (advanceBy 1 (moveOver (quoteText quote v) (advanceBy 1 s))) in
  scanToken s = Ok s' /\ unread s' = rest /\
  (forallb (fun c => negb (eqc c quote || eqc c c_backslash)) v = true ->
   quoteText quote v = v).
Proof.
  intros M Q H s'.
  assert (H1 : unread (advanceBy 1 s) = quoteText quote v ++ quote :: rest)
    by (rewrite unread_advanceBy, H; reflexivity).
  pose proof (unread_moveOver_app _ _ _ H1) as H2.
  assert (U : unread s' = rest).
  { change (unread (advanceBy 1 (moveOver (quoteText quote v) (advanceBy 1 s)))
            = rest).
    rewrite unread_advanceBy, H2. reflexivity. }
  split; [|split; [exact U|apply quoteText_plain]].
  assert (D : scanCommandPart (currentPosition s) s = Ok s').
  { unfold scanCommandPart. rewrite (peek_cons H).
    assert (Z : eqc quote c_pipe = false /\ eqc quote c_dash = false /\
                eqc quote c_dquote || eqc quote c_squote = true)
      by (destruct Q; subst quote; repeat split).
    destruct Z as (Z1 & Z2 & Z3). rewrite Z1, Z2, Z3. cbn [andb].
    unfold scanString. rewrite (advance_cons H).
    rewrite (scanString_loop_quoted quote v Q _ _ [] (quote :: rest) H1)
      by lia.
    assert (L : forall fuel,
               scanString_loop fuel quote
                 (moveOver (quoteText quote v) (advanceBy 1 s)) ([] ++ v) =
               (v, moveOver (quoteText quote v) (advanceBy 1 s))).
    { intros [|fuel]; cbn [scanString_loop app]; [reflexivity|].
      now rewrite (isAtEnd_cons H2), (peek_cons H2), eqc_refl. }
    rewrite L, (isAtEnd_cons H2), (advance_cons H2). reflexivity. }
  unfold scanToken. rewrite (peek_cons H), M.
  assert (Z : eqc quote c_space || eqc quote c_tab || eqc quote c_cr = false /\
              eqc quote c_nl = false /\ eqc quote c_lbrace = false /\
              eqc quote c_rbrace = false /\ eqc quote c_slash = false)
    by (destruct Q; subst quote; repeat split).
  destruct Z as (Z1 & Z2 & Z3 & Z4 & Z5). rewrite Z1, Z2, Z3, Z4, Z5.
  cbn [andb]. exact D.
Qed.

Lemma quoted_string_round_trip_witness :
  scanToken (advanceBy 3 (set_inCommandMode true
               (init (str "/t 'it\'s'")))) =
    Ok (addToken STRING (str "it's") (mkPosition 1 4 3)
          (advanceBy 10 (set_inCommandMode true (init (str "/t 'it\'s'"))))).
Proof.
  exact (proj1 (quoted_string_round_trip
                  (advanceBy 3 (set_inCommandMode true
                                  (init (str "/t 'it\'s'"))))
                  c_squote (str "it's") [] eq_refl
                  (or_intror eq_refl) eq_refl)).
Defined.

(** *** Flags and values *)

(** X9: on a command line two dashes start a long flag, whose name is the
    longest run of identifier characters after them (letters, digits,
    underscore and dash, so that three dashes and x give the name -x);
    when no identifier character follows, the tokenizer throws
    Expected flag name after --. *)
Theorem long_flag_rule (s : Scanner) (rest : jsstring) :
  inCommandMode s = true ->
  unread s = c_dash :: c_dash :: rest ->
  scanToken s =
    match takeWhile isIdentifierChar rest with
    | [] => Throw (error (str "Expected flag name after --")
                         (currentPosition s))
    | name =>
        Ok (addToken LONG_FLAG name (currentPosition s)
              (advanceBy (2 + length name) s))
    end.
Proof.
  intros M H. unfold scanToken. rewrite (peek_cons H), M. chars.
  unfold scanCommandPart. rewrite (peek_cons H), (peekNext_cons H).
  cbn [hd]. chars. rewrite (advance_cons H).
  assert (H1 : unread (advanceBy 1 s) = c_dash :: rest)
    by (rewrite unread_advanceBy, H; reflexivity).
  rewrite (advance_cons H1).
  assert (H2 : unread (advanceBy 1 (advanceBy 1 s)) = rest)
    by (rewrite unread_advanceBy, H1; reflexivity).
  rewrite (advanceWhile_spec isIdentifierChar rest); auto;
    [|rewrite remaining_unread, H2; auto].
  cbn [app]. rewrite !advanceBy_add.
  destruct (takeWhile isIdentifierChar rest); reflexivity.
Qed.

Lemma long_flag_rule_witness :
  scanToken (advanceBy 3 (set_inCommandMode true (init (str "/t ---x=1")))) =
    Ok (addToken LONG_FLAG (str "-x") (mkPosition 1 4 3)
          (advanceBy 7 (set_inCommandMode true (init (str "/t ---x=1"))))).
Proof.
  exact (long_flag_rule
           (advanceBy 3 (set_inCommandMode true (init (str "/t ---x=1"))))
           (str "-x=1") eq_refl eq_refl).
Defined.

Lemma isWhiteSpace_blanks (c : char) :
  isWhiteSpace c = false ->
  eqc c c_space = false /\ eqc c c_tab = false /\ eqc c c_cr = false /\
  eqc c c_nl = false.
Proof.
  intros W.
  assert (K : forall k, isWhiteSpace k = true -> eqc c k = false).
  { intros k Wk. destruct (eqc c k) eqn:E; [|reflexivity].
    apply eqc_eq in E. subst k. congruence. }
  repeat split; apply K; reflexivity.
Qed.

Lemma isValueChar_plain (c : char) :
  isValueChar c = true ->
  isWhiteSpace c = false /\ eqc c c_lbrace = false /\
  eqc c c_rbrace = false /\ eqc c c_pipe = false.
Proof.
  unfold isValueChar. intros V. apply negb_true_iff in V.
  do 4 (apply orb_false_elim in V; destruct V as [V ?]).
  repeat split; assumption.
Qed.

(** X10: on a command line, a character that is not white space, a brace
    or a pipe, and that starts neither a flag, a quoted string nor a
    command, starts a VALUE token: the token holds the longest run of such
    characters, in which quotes, slashes and dashes are ordinary
    characters.  A dash that is followed by neither a dash nor a letter
    starts a value too. *)
Theorem value_rule (s : Scanner) (c : char) (rest : jsstring) :
  inCommandMode s = true ->
  unread s = c :: rest ->
  isValueChar c = true ->
  startsFlag c (hd NUL rest) = false ->
  eqc c c_dquote || eqc c c_squote = false ->
  eqc c c_slash && canStartCommand s = false ->
  let v := takeWhile isValueChar (c :: rest) in
  scanToken s =
    Ok (addToken VALUE v (currentPosition s) (advanceBy (length v) s)).
Proof.
  intros M H V F Q C v.
  destruct (isValueChar_plain c V) as (W & B1 & B2 & B3).
  destruct (isWhiteSpace_blanks c W) as (W1 & W2 & W3 & W4).
  unfold scanToken. rewrite (peek_cons H), M, W1, W2, W3, W4, B1, B2, C.
  cbn [orb andb]. unfold scanCommandPart.
  rewrite (peek_cons H), (peekNext_cons H), B3, Q, B1, V.
  unfold startsFlag in F.
  destruct (eqc c c_dash); cbn [andb] in *.
  - apply orb_false_elim in F. destruct F as [-> ->].
    rewrite (advanceWhile_spec isValueChar (c :: rest)); auto.
    rewrite remaining_unread, H. auto.
  - rewrite (advanceWhile_spec isValueChar (c :: rest)); auto.
    rewrite remaining_unread, H. auto.
Qed.

Lemma value_rule_witness :
  scanToken (advanceBy 3 (set_inCommandMode true
               (set_canStartCommand false (init (str "/t -5/a'b c"))))) =
    Ok (addToken VALUE (str "-5/a'b") (mkPosition 1 4 3)
          (advanceBy 9 (set_inCommandMode true
               (set_canStartCommand false (init (str "/t -5/a'b c")))))).
Proof.
  exact (value_rule
           (advanceBy 3 (set_inCommandMode true
              (set_canStartCommand false (init (str "/t -5/a'b c")))))
           c_dash (str "5/a'b c") eq_refl eq_refl eq_refl eq_refl eq_refl
           eq_refl).
Defined.
(** *** Blank lines *)

Lemma split_nl_cons (text : jsstring) :
  exists l ls, split_nl text = l :: ls.
Proof.
  induction text as [|c text (l & ls & E)]; cbn [split_nl].
  - now exists [], [].
  - destruct (eqc c c_nl); [now exists [], (split_nl text)|].
    rewrite E. now exists (c :: l), ls.
Qed.

Lemma split_nl_lines (text : jsstring) :
  forallb oneLine (split_nl text) = true.
Proof.
  induction text as [|c text IH]; cbn [split_nl]; [reflexivity|].
  destruct (eqc c c_nl) eqn:E; [exact IH|].
  destruct (split_nl text) as [|l ls]; cbn [forallb oneLine] in *;
    now rewrite E.
Qed.

Lemma split_nl_line (l : jsstring) :
  oneLine l = true -> split_nl l = [l].
Proof.
  induction l as [|c l IH]; cbn [oneLine forallb split_nl]; [reflexivity|].
  intros H. apply andb_prop in H. destruct H as [H1 H2].
  apply negb_true_iff in H1. rewrite H1. fold (oneLine l) in H2.
  now rewrite (IH H2).
Qed.

Lemma split_nl_app (l rest : jsstring) :
  oneLine l = true -> split_nl (l ++ c_nl :: rest) = l :: split_nl rest.
Proof.
  induction l as [|c l IH]; cbn [oneLine forallb split_nl app].
  - intros _. now rewrite eqc_refl.
  - intros H. apply andb_prop in H. destruct H as [H1 H2].
    apply negb_true_iff in H1. rewrite H1. fold (oneLine l) in H2.
    now rewrite (IH H2).
Qed.

Lemma split_join (lines : list jsstring) :
  lines <> [] -> forallb oneLine lines = true ->
  split_nl (join_nl lines) = lines.
Proof.
  induction lines as [|l lines IH]; [intros H; now contradiction H|].
  intros _ H. cbn [forallb] in H. apply andb_prop in H. destruct H as [H1 H2].
  destruct lines as [|l2 ls]; cbn [join_nl].
  - now apply split_nl_line.
  - rewrite (split_nl_app l _ H1). f_equal. apply IH; [discriminate|exact H2].
Qed.

Lemma shiftBlank_fix (l : jsstring) (ls : list jsstring) :
  blank l = false -> shiftBlank (l :: ls) = l :: ls.
Proof.
  intros B. cbn [shiftBlank]. destruct (trim l) eqn:T; [|reflexivity].
  apply trim_blank in T. congruence.
Qed.

Lemma popBlank_fix (lines : list jsstring) :
  lines <> [] -> blank (last lines []) = false -> popBlank lines = lines.
Proof.
  intros N B. unfold popBlank.
  destruct (rev lines) as [|x xs] eqn:R.
  - apply (f_equal (@rev jsstring)) in R. rewrite rev_involutive in R.
    now contradiction N.
  - assert (E : lines = rev xs ++ [x]).
    { rewrite <- (rev_involutive lines), R. reflexivity. }
    rewrite E, last_last in B. rewrite (shiftBlank_fix x xs B).
    now rewrite <- R, rev_involutive.
Qed.

Lemma forallb_app_inv {A : Type} (f : A -> bool) (a b : list A) :
  forallb f (a ++ b) = true -> forallb f a = true /\ forallb f b = true.
Proof. rewrite forallb_app. apply andb_prop. Qed.

(** X11: [trimBlankLines] is idempotent: a text that has lost its blank
    lines at both ends loses nothing when it is trimmed again, as the
    compiler does with the text of a raw block. *)
Theorem trimBlankLines_idempotent (text : jsstring) :
  trimBlankLines (trimBlankLines text) = trimBlankLines text.
Proof.
  destruct (trimBlankLines_spec text)
    as (pre & kept & post & E & _ & _ & T & K).
  rewrite T. destruct kept as [|k ks]; [reflexivity|].
  destruct K as [K1 K2].
  assert (L : forallb oneLine (k :: ks) = true).
  { pose proof (split_nl_lines text) as L. rewrite E in L.
    apply forallb_app_inv in L. destruct L as [_ L].
    now apply forallb_app_inv in L. }
  unfold trimBlankLines. rewrite (split_join (k :: ks)); [|discriminate|exact L].
  rewrite (shiftBlank_fix k ks K1).
  rewrite (popBlank_fix (k :: ks)); [reflexivity|discriminate|exact K2].
Qed.

Lemma blank_join (lines : list jsstring) :
  forallb blank lines = true -> blank (join_nl lines) = true.
Proof.
  induction lines as [|l lines IH]; [reflexivity|].
  cbn [forallb]. intros H. apply andb_prop in H. destruct H as [H1 H2].
  destruct lines as [|l2 ls]; cbn [join_nl]; [exact H1|].
  rewrite blank_app, H1. cbn [blank forallb andb].
  change (isWhiteSpace c_nl) with true. cbn [andb]. now apply IH.
Qed.

Lemma blank_split (text : jsstring) :
  blank text = true -> forallb blank (split_nl text) = true.
Proof.
  induction text as [|c text IH]; cbn [blank forallb split_nl];
    [reflexivity|].
  intros H. apply andb_prop in H. destruct H as [H1 H2].
  fold (blank text) in H2. specialize (IH H2).
  destruct (eqc c c_nl); [exact IH|].
  destruct (split_nl text) as [|l ls]; cbn [forallb blank] in *;
    now rewrite H1.
Qed.

Lemma shiftBlank_all (lines : list jsstring) :
  forallb blank lines = true -> shiftBlank lines = [].
Proof.
  induction lines as [|l lines IH]; [reflexivity|].
  cbn [forallb shiftBlank]. intros H. apply andb_prop in H.
  destruct H as [H1 H2]. apply trim_blank in H1. rewrite H1. now apply IH.
Qed.

(** X12: [trimBlankLines] leaves nothing exactly when the text is white
    space only; a raw block has a CONTENT token exactly when its text has a
    character that is not white space. *)
Theorem trimBlankLines_empty_iff_blank (text : jsstring) :
  trimBlankLines text = [] <-> blank text = true.
Proof.
  split.
  - intros H.
    destruct (trimBlankLines_spec text)
      as (pre & kept & post & E & P1 & P2 & T & K).
    rewrite H in T. destruct kept as [|k ks].
    + rewrite <- (join_split text), E. apply blank_join.
      cbn [app]. now rewrite forallb_app, P1, P2.
    + destruct K as [K _]. cbn [join_nl] in T.
      destruct ks; [subst k; discriminate K|].
      destruct k; discriminate.
  - intros B. unfold trimBlankLines.
    now rewrite (shiftBlank_all _ (blank_split text B)).
Qed.

End ScanRules.

(* ================================================================== *)
(** ** Documents *)
(* ================================================================== *)

Module Documents.
Import Ast Tokenizer Vocabulary Examples Streams Invariants Samples Lexing.
Import TokenStream.

#[local] Arguments isAtEnd : simpl never.
#[local] Arguments peek : simpl never.
#[local] Arguments peekNext : simpl never.
#[local] Arguments advance : simpl never.
#[local] Arguments remaining : simpl never.
#[local] Arguments unread : simpl never.
#[local] Arguments advanceBy : simpl never.
#[local] Arguments moveOver : simpl never.

(** *** A brace at the start of the source *)

(** The first token of a source that starts with a brace, outside a raw
    block. *)
Lemma first_brace (c : char) (ty : TokenType) (rest : jsstring)
    (ts : list Token) :
  (c = c_lbrace /\ ty = LBRACE) \/ (c = c_rbrace /\ ty = RBRACE) ->
  tokenize (c :: rest) = Ok ts ->
  exists more, ts = mkToken ty [c] (span 1 1 0 1 2 1) :: more.
Proof.
  intros B. unfold tokenize, Tokenizer.run.
  destruct (tokenize_loop (2 * remaining (init (c :: rest)) + 1)
                          (init (c :: rest))) as [s2| |] eqn:L;
    cbn [bind]; try discriminate.
  intros H. injection H as <-.
  rewrite Nat.add_1_r in L. cbn [tokenize_loop] in L.
  assert (U : unread (init (c :: rest)) = c :: rest) by reflexivity.
  rewrite (isAtEnd_cons U) in L.
  set (s1 := set_inCommandMode false
               (set_canStartCommand true
                  (addToken ty [c] (currentPosition (init (c :: rest)))
                     (advanceBy 1 (init (c :: rest)))))).
  assert (K : scanToken (init (c :: rest)) = Ok s1).
  { unfold scanToken. rewrite (peek_cons U).
    destruct B as [[-> ->]|[-> ->]]; chars; now rewrite (advance_cons U). }
  rewrite K in L. cbn [bind] in L.
  assert (I : inside s1) by (unfold inside, s1, advanceBy; cbn; lia).
  destruct (tokenize_loop_emits _ _ _ I L) as (new & (A & _) & _).
  rewrite A. eexists. reflexivity.
Qed.

(** X13: a closing brace at the start of the source ends the document:
    when the source can be tokenized, the document is empty, whatever
    follows the brace, and no error is raised. *)
Theorem leading_rbrace_empties_document (rest : jsstring) (ts : list Token) :
  tokenize (c_rbrace :: rest) = Ok ts ->
  Parser.parse (c_rbrace :: rest) = Ok (mkDocument []).
Proof.
  intros T. unfold Parser.parse. rewrite T. cbn [bind].
  destruct (first_brace c_rbrace RBRACE rest ts (or_intror (conj eq_refl eq_refl)) T)
    as (more & ->).
  unfold Parser.run. cbn [Parser.tokens Parser.pos length].
  rewrite Nat.sub_0_r, Nat.add_1_r. reflexivity.
Qed.

Lemma leading_rbrace_empties_document_witness :
  tokenize (str "} /page A4 {") =
    Ok [mkToken RBRACE (str "}") (span 1 1 0 1 2 1);
        mkToken COMMAND (str "page") (span 1 3 2 1 8 7);
        mkToken VALUE (str "A4") (span 1 9 8 1 11 10);
        mkToken LBRACE (str "{") (span 1 12 11 1 13 12);
        mkToken EOF [] (span 1 13 12 1 13 12)] /\
  Parser.parse (str "} /page A4 {") = Ok (mkDocument []).
Proof.
  assert (P : tokenize (str "} /page A4 {") =
    Ok [mkToken RBRACE (str "}") (span 1 1 0 1 2 1);
        mkToken COMMAND (str "page") (span 1 3 2 1 8 7);
        mkToken VALUE (str "A4") (span 1 9 8 1 11 10);
        mkToken LBRACE (str "{") (span 1 12 11 1 13 12);
        mkToken EOF [] (span 1 13 12 1 13 12)])
    by (vm_compute; reflexivity).
  split; [exact P|].
  exact (leading_rbrace_empties_document (str " /page A4 {") _ P).
Defined.

(** X14: an opening brace at the start of the source has no command: when
    the source can be tokenized, parsing throws the [ParseError]
    Unexpected { without command at line 1, column 1, with the location of
    the brace. *)
Theorem leading_lbrace_is_parse_error (rest : jsstring) (ts : list Token) :
  tokenize (c_lbrace :: rest) = Ok ts ->
  Parser.parse (c_lbrace :: rest) =
    Throw (ParseError (str "Unexpected { without command at line 1, column 1")
                      (Some (span 1 1 0 1 2 1))).
Proof.
  intros T. unfold Parser.parse. rewrite T. cbn [bind].
  destruct (first_brace c_lbrace LBRACE rest ts (or_introl (conj eq_refl eq_refl)) T)
    as (more & ->).
  unfold Parser.run. cbn [Parser.tokens Parser.pos length].
  rewrite Nat.sub_0_r, Nat.add_1_r. reflexivity.
Qed.

Lemma leading_lbrace_is_parse_error_witness :
  tokenize (str "{ a }") =
    Ok [mkToken LBRACE (str "{") (span 1 1 0 1 2 1);
        mkToken CONTENT (str " a ") (span 1 2 1 1 5 4);
        mkToken RBRACE (str "}") (span 1 5 4 1 6 5);
        mkToken EOF [] (span 1 6 5 1 6 5)] /\
  Parser.parse (str "{ a }") =
    Throw (ParseError (str "Unexpected { without command at line 1, column 1")
                      (Some (span 1 1 0 1 2 1))).
Proof.
  assert (P : tokenize (str "{ a }") =
    Ok [mkToken LBRACE (str "{") (span 1 1 0 1 2 1);
        mkToken CONTENT (str " a ") (span 1 2 1 1 5 4);
        mkToken RBRACE (str "}") (span 1 5 4 1 6 5);
        mkToken EOF [] (span 1 6 5 1 6 5)])
    by (vm_compute; reflexivity).
  split; [exact P|].
  exact (leading_lbrace_is_parse_error (str " a }") _ P).
Defined.
(** *** Plain text *)

Lemma content_only_scan (src : jsstring) :
  noBraces src = true ->
  noCommandSlash true src = true ->
  exists s2,
    tokenize_loop (2 * remaining (init src) + 1) (init src) = Ok s2 /\
    map shape (tokens s2) =
      if blank src then [] else [(CONTENT, dropWhile isNewline src)].
Proof.
  intros B N.
  set (nls := takeWhile isNewline src). set (body := dropWhile isNewline src).
  assert (E : src = nls ++ body) by (symmetry; apply take_drop).
  assert (A : forallb isNewline nls = true) by apply takeWhile_all.
  destruct (skip_newlines nls (init src) body 1 A E eq_refl eq_refl)
    as (s1 & L & U1 & T1 & C1 & M1).
  assert (Bb : noBraces body = true).
  { unfold noBraces in *. rewrite E, forallb_app in B.
    apply andb_prop in B. tauto. }
  assert (Nb : noCommandSlash true body = true).
  { clear - N E A. revert N. rewrite E. clear E.
    induction nls as [|c nls IH]; cbn [app]; auto.
    cbn [forallb] in A. apply andb_prop in A. destruct A as [A1 A2].
    apply eqc_eq in A1. subst c. cbn [noCommandSlash]. chars. auto. }
  assert (Bl : blank src = blank body).
  { unfold blank in *. rewrite E, forallb_app.
    fold (blank nls). now rewrite (newline_blank nls A). }
  assert (R : exists s2,
             tokenize_loop (length nls + 1) (init src) = Ok s2 /\
             map shape (tokens s2) =
               if blank src then [] else [(CONTENT, body)]).
  { rewrite L, Bl. destruct body as [|c l] eqn:D.
    - exists s1. split; [apply tokenize_loop_done; now apply unread_nil|].
      now rewrite T1.
    - destruct (scanToken_content_only s1 c l U1
                  (dropWhile_head isNewline src c l D) C1 M1 Bb Nb)
        as (s2 & K & U2 & T2).
      exists s2. split.
      + rewrite (tokenize_loop_step _ _ _ (isAtEnd_cons U1) K).
        apply tokenize_loop_done. now apply unread_nil.
      + now rewrite T2, T1. }
  destruct R as (s2 & R & T2). exists s2. split; [|exact T2].
  apply (tokenize_loop_fuel _ _ _ R).
  unfold remaining. cbn [init source pos]. rewrite E, length_app. lia.
Qed.

(** X15: a source without braces, in which no slash is where a command
    may start, is a document of one [Content] node that holds the source
    after its leading newlines; when the source is white space only, the
    document is empty. *)
Theorem plain_text_document (src : jsstring) :
  noBraces src = true ->
  noCommandSlash true src = true ->
  exists l : Location,
    Parser.parse src =
      Ok (mkDocument (if blank src then []
                      else [Content (dropWhile isNewline src) l])).
Proof.
  intros B N. destruct (content_only_scan src B N) as (s2 & L & T).
  unfold Parser.parse, tokenize, Tokenizer.run. rewrite L. cbn [bind].
  destruct (blank src).
  - destruct (tokens s2); [|discriminate T].
    exists (currentLocation s2). reflexivity.
  - destruct (tokens s2) as [|t [|t2 ts]]; try discriminate T.
    cbn [map] in T. unfold shape in T.
    injection T as T1 T2. exists (loc t). destruct t as [ty v l].
    cbn [type value loc] in *. subst ty v. reflexivity.
Qed.

Lemma plain_text_document_witness :
  exists l : Location,
    Parser.parse (c_nl :: str "See https://example.com/a") =
      Ok (mkDocument [Content (str "See https://example.com/a") l]).
Proof.
  exact (plain_text_document (c_nl :: str "See https://example.com/a")
           eq_refl eq_refl).
Defined.
(** *** Inline code *)

Lemma takeWhile_app (p : char -> bool) (a b : jsstring) :
  forallb p a = true -> hd NUL b = c_backtick -> p c_backtick = false ->
  b <> [] -> takeWhile p (a ++ b) = a.
Proof.
  intros A H P N. induction a as [|c a IH]; cbn [app takeWhile].
  - destruct b as [|x b]; [now contradiction N|]. cbn [hd] in H. subst x.
    cbn [takeWhile]. now rewrite P.
  - cbn [forallb] in A. apply andb_prop in A. destruct A as [A1 A2].
    rewrite A1. f_equal. now apply IH.
Qed.

Lemma blank_has (l : jsstring) (c : char) :
  In c l -> isWhiteSpace c = false -> blank l = false.
Proof.
  intros I W. destruct (blank l) eqn:B; [|reflexivity].
  unfold blank in B. rewrite forallb_forall in B. apply B in I. congruence.
Qed.

(** X25: the code between two backticks of a line is content, whatever
    braces and slashes it has: a source that starts with such a span,
    with no third backtick right after it, and that has neither a brace
    nor a slash at the start of a line after the span, is one CONTENT
    token that holds the whole source. *)
Theorem inline_code_is_content (code post : jsstring) :
  forallb isCodeChar code = true ->
  eqc (hd NUL post) c_backtick = false ->
  noBraces post = true ->
  noCommandSlash false post = true ->
  let src := c_backtick :: code ++ c_backtick :: post in
  shapes (tokenize src) = Ok [(CONTENT, src); (EOF, [])].
Proof.
  intros C P B N src.
  set (s0 := init src).
  assert (U0 : unread s0 = src) by reflexivity.
  assert (F : matchCodeFence s0 = false).
  { destruct (matchCodeFence s0) eqn:M; [|reflexivity].
    apply matchCodeFence_unread in M. destruct M as (l & M).
    rewrite U0 in M. unfold src in M. injection M as M.
    destruct code as [|c code]; cbn [app] in M.
    - injection M as M. subst post. cbn [hd] in P.
      rewrite eqc_refl in P. discriminate P.
    - injection M as M _. subst c. cbn [forallb] in C. unfold isCodeChar in C.
      rewrite eqc_refl in C. discriminate C. }
  assert (U1 : unread (advanceBy 1 s0) = code ++ c_backtick :: post)
    by (rewrite unread_advanceBy, U0; reflexivity).
  assert (TW : takeWhile isCodeChar (code ++ c_backtick :: post) = code).
  { apply takeWhile_app; auto; discriminate. }
  set (s2 := advanceBy (length code) (advanceBy 1 s0)).
  assert (U2 : unread s2 = c_backtick :: post).
  { unfold s2. rewrite unread_advanceBy, U1.
    rewrite skipn_app, skipn_all, Nat.sub_diag. reflexivity. }
  set (s3 := set_canStartCommand false (advanceBy 1 s2)).
  assert (U3 : unread s3 = post).
  { change (unread (advanceBy 1 s2) = post).
    rewrite unread_advanceBy, U2. reflexivity. }
  destruct (scanContent_loop_all (length post) s3
              (([c_backtick] ++ code) ++ [c_backtick]) false)
    as (s4 & L4 & U4 & T4).
  { rewrite U3. auto. }
  { now rewrite U3. }
  { now rewrite U3. }
  rewrite U3 in L4.
  assert (K : scanContent_loop (remaining s0) s0 [] false = (src, s4)).
  { rewrite remaining_unread, U0. unfold src at 1. cbn [length].
    cbn [scanContent_loop].
    rewrite (isAtEnd_cons U0), (peek_cons U0), F, eqc_refl.
    rewrite andb_false_r. rewrite (advance_cons U0).
    change (fun c => negb (eqc c c_backtick) && negb (eqc c c_nl))
      with isCodeChar.
    rewrite (advanceWhile_spec isCodeChar (code ++ c_backtick :: post));
      [|exact U1|rewrite remaining_unread, U1; auto].
    rewrite TW. fold s2. rewrite (peek_cons U2), eqc_refl.
    rewrite (advance_cons U2). fold s3.
    rewrite (scanContent_loop_budget (length (code ++ c_backtick :: post))
               (length post) s3); [|rewrite remaining_unread, U3..].
    - cbn [app] in L4 |- *. rewrite L4. unfold src. cbn [app].
      now rewrite <- !app_assoc.
    - rewrite length_app. cbn [length]. lia.
    - lia. }
  assert (NB : trim src <> []).
  { intros Z. apply trim_blank in Z.
    rewrite (blank_has src c_backtick) in Z; [discriminate Z|now left|].
    reflexivity. }
  assert (D : scanToken s0 = Ok (addToken CONTENT src (currentPosition s0) s4)).
  { unfold scanToken. rewrite (peek_cons U0). chars.
    change (inCommandMode s0) with false. cbv iota.
    unfold scanContent. rewrite K. destruct (trim src); [now contradiction NB|].
    reflexivity. }
  unfold shapes, tokenize, Tokenizer.run. fold s0.
  rewrite Nat.add_1_r. cbn [tokenize_loop].
  rewrite (isAtEnd_cons U0), D. cbn [bind].
  rewrite tokenize_loop_done; [|now apply unread_nil]. cbn [bind].
  cbn [addToken set_tokens tokens]. rewrite T4. reflexivity.
Qed.

Lemma inline_code_is_content_witness :
  shapes (tokenize (str "`/a {b}` c/d")) =
    Ok [(CONTENT, str "`/a {b}` c/d"); (EOF, [])].
Proof.
  exact (inline_code_is_content (str "/a {b}") (str " c/d")
           eq_refl eq_refl eq_refl eq_refl).
Defined.

End Documents.

(* ================================================================== *)
(** ** What a component receives *)
(* ================================================================== *)

Module Compiling.
Import Ast Tokenizer Vocabulary Examples Streams Invariants Records Samples.
Import Compiler Lexing TokenStream ScanRules Pipeline.

(** *** dedent *)

Lemma blank_takeWhile (l : jsstring) :
  blank l = true -> takeWhile isWhiteSpace l = l.
Proof.
  induction l as [|c l IH]; cbn [blank forallb takeWhile]; [reflexivity|].
  intros H. apply andb_prop in H. destruct H as [H1 H2]. rewrite H1.
  f_equal. now apply IH.
Qed.

Lemma blank_skipn (n : nat) (l : jsstring) :
  blank l = true -> blank (skipn n l) = true.
Proof.
  revert n. induction l as [|c l IH]; intros [|n] H; cbn [skipn]; auto.
  cbn [blank forallb] in H. apply andb_prop in H. now apply IH.
Qed.

(** Taking white space off the start of a line that has more of it. *)
Lemma skipn_indent (n : nat) (l : jsstring) :
  n <= indent l ->
  blank (skipn n l) = blank l /\ indent (skipn n l) = indent l - n.
Proof.
  unfold indent. revert n. induction l as [|c l IH]; intros [|n] H;
    cbn [skipn]; try (split; [reflexivity|lia]).
  - cbn in H. lia.
  - cbn [takeWhile] in *. cbn [blank forallb].
    destruct (isWhiteSpace c); [|cbn in H; lia].
    cbn [length] in *. cbn [andb]. apply IH. lia.
Qed.

Lemma oneLine_skipn (n : nat) (l : jsstring) :
  oneLine l = true -> oneLine (skipn n l) = true.
Proof.
  revert n. induction l as [|c l IH]; intros [|n] H; cbn [skipn]; auto.
  cbn [oneLine forallb] in H. apply andb_prop in H. now apply IH.
Qed.

Lemma minIndent_some (lines : list jsstring) (m : nat) :
  exists n, minIndent lines (Some m) = Some n.
Proof.
  revert m. induction lines as [|l lines IH]; intros m; cbn [minIndent].
  - now exists m.
  - destruct (trim l); apply IH.
Qed.

(** The value of [minIndent] after the loop is below the one before it and
    below the indentation of every non-blank line, and it is one of them. *)
Lemma minIndent_least (lines : list jsstring) :
  forall (acc : option nat) (n : nat),
    minIndent lines acc = Some n ->
    (forall m, acc = Some m -> n <= m) /\
    (forall l, In l lines -> blank l = false -> n <= indent l) /\
    (acc = Some n \/ exists l, In l lines /\ blank l = false /\ indent l = n).
Proof.
  induction lines as [|l lines IH]; intros acc n H; cbn [minIndent] in H.
  - subst acc. split; [intros m E; injection E as <-; lia|].
    split; [intros l []|now left].
  - destruct (trim l) as [|c t] eqn:T.
    + apply trim_blank in T.
      destruct (IH acc n H) as (A & B & C). split; [exact A|]. split.
      * intros x [<-|X] K; [rewrite T in K; discriminate K|now apply B].
      * destruct C as [C|(x & X1 & X2)]; [now left|].
        right. exists x. split; [now right|exact X2].
    + assert (N : blank l = false).
      { destruct (blank l) eqn:K; [|reflexivity].
        apply trim_blank in K. congruence. }
      destruct (IH _ n H) as (A & B & C).
      specialize (A _ eq_refl). split; [|split].
      * intros m ->. lia.
      * intros x [<-|X] K; [|now apply B]. destruct acc; lia.
      * destruct C as [C|(x & X1 & X2)].
        -- injection C as C. destruct acc as [m|].
           ++ destruct (Nat.min_spec m (indent l)) as [[_ E]|[_ E]];
                rewrite E in C.
              ** left. now subst.
              ** right. exists l. split; [now left|]. split; [exact N|exact C].
           ++ right. exists l. split; [now left|]. split; [exact N|exact C].
        -- right. exists x. split; [now right|exact X2].
Qed.

Lemma minIndent_none (lines : list jsstring) :
  minIndent lines None = None -> forallb blank lines = true.
Proof.
  induction lines as [|l lines IH]; cbn [minIndent forallb]; [reflexivity|].
  destruct (trim l) eqn:T.
  - apply trim_blank in T. rewrite T. exact IH.
  - intros H. destruct (minIndent_some lines (indent l)) as (n & E).
    congruence.
Qed.

Lemma map_skipn_0 (lines : list jsstring) : map (skipn 0) lines = lines.
Proof.
  induction lines as [|l lines IH]; [reflexivity|].
  cbn [map]. rewrite IH. reflexivity.
Qed.

Lemma split_nl_not_nil (text : jsstring) : split_nl text <> [].
Proof. destruct (split_nl_cons text) as (l & ls & ->). discriminate. Qed.

Lemma dedent_lines (text : jsstring) :
  split_nl (dedent text) = map (skipn (commonIndent text)) (split_nl text).
Proof.
  unfold dedent, commonIndent.
  destruct (minIndent (split_nl text) None) as [[|n]|];
    try now rewrite map_skipn_0.
  apply split_join.
  - intros E. apply map_eq_nil in E. now apply split_nl_not_nil in E.
  - pose proof (split_nl_lines text) as L. rewrite forallb_forall in *.
    intros x X. apply in_map_iff in X. destruct X as (l & <- & X).
    apply oneLine_skipn. now apply L.
Qed.

Lemma blank_lines (text : jsstring) :
  forallb blank (split_nl text) = true -> blank text = true.
Proof. intros H. rewrite <- (join_split text). now apply blank_join. Qed.

Lemma dedent_spec (text : jsstring) :
  split_nl (dedent text) = map (skipn (commonIndent text)) (split_nl text) /\
  (forall l, In l (split_nl text) -> blank l = false ->
             commonIndent text <= indent l) /\
  (blank text = false ->
   exists l, In l (split_nl text) /\ blank l = false /\
             indent l = commonIndent text).
Proof.
  split; [apply dedent_lines|]. unfold commonIndent.
  destruct (minIndent (split_nl text) None) as [n|] eqn:M.
  - destruct (minIndent_least _ _ _ M) as (_ & B & C).
    split; [exact B|]. intros _. destruct C as [C|C]; [discriminate C|exact C].
  - split; [intros; lia|]. intros N.
    apply minIndent_none, blank_lines in M. congruence.
Qed.

(** X16: [dedent] takes the same number of characters off the start of
    every line: the least number of white-space characters that a
    non-blank line starts with.  No non-blank line loses anything but
    white space, and when the text is not blank, one of its non-blank lines
    is left without indentation. *)
Theorem dedent_removes_common_indent (text : jsstring) :
  split_nl (dedent text) = map (skipn (commonIndent text)) (split_nl text) /\
  (forall l, In l (split_nl text) -> blank l = false ->
             commonIndent text <= indent l) /\
  (blank text = false ->
   exists l, In l (split_nl text) /\ blank l = false /\
             indent l = commonIndent text).
Proof. exact (dedent_spec text). Qed.

Lemma dedent_fixed (text : jsstring) :
  commonIndent text = 0 -> dedent text = text.
Proof.
  unfold commonIndent, dedent.
  destruct (minIndent (split_nl text) None) as [[|n]|]; auto. discriminate.
Qed.

Lemma commonIndent_dedent (text : jsstring) :
  commonIndent (dedent text) = 0.
Proof.
  destruct (dedent_spec text) as (L & A & B).
  destruct (blank text) eqn:K.
  - unfold commonIndent.
    destruct (minIndent (split_nl (dedent text)) None) as [n|] eqn:M;
      [|reflexivity].
    destruct (minIndent_least _ _ _ M) as (_ & _ & [C|(l & C1 & C2 & _)]);
      [discriminate C|].
    rewrite L in C1. apply in_map_iff in C1. destruct C1 as (x & <- & X).
    pose proof (blank_split text K) as S. rewrite forallb_forall in S.
    rewrite (blank_skipn _ x (S x X)) in C2. discriminate C2.
  - destruct (B eq_refl) as (l & X & N & I).
    assert (Z : commonIndent text <= indent l) by lia.
    destruct (skipn_indent _ l Z) as (P & Q).
    unfold commonIndent at 1.
    destruct (minIndent (split_nl (dedent text)) None) as [n|] eqn:M;
      [|reflexivity].
    destruct (minIndent_least _ _ _ M) as (_ & C & _).
    assert (n <= indent (skipn (commonIndent text) l)).
    { apply C; [|congruence]. rewrite L. now apply in_map. }
    lia.
Qed.

(** X17: [dedent] is idempotent: a text without common indentation is
    left as it is. *)
Theorem dedent_idempotent (text : jsstring) :
  dedent (dedent text) = dedent text.
Proof. apply dedent_fixed, commonIndent_dedent. Qed.
Lemma dedent_removes_common_indent_witness :
  exists l,
    In l (split_nl (str "  a" ++ [c_nl] ++ str "    b")) /\
    blank l = false /\
    indent l = commonIndent (str "  a" ++ [c_nl] ++ str "    b").
Proof.
  exact (proj2 (proj2 (dedent_removes_common_indent
                         (str "  a" ++ [c_nl] ++ str "    b"))) eq_refl).
Defined.

(** *** The text of a raw block *)

Lemma extractRawContent_raw (opened : Position) (body : jsstring) :
  extractRawContent (rawBlockChildren opened body) =
    dedent (Tokenizer.trimBlankLines body).
Proof.
  unfold extractRawContent, rawBlockChildren.
  change Compiler.trimBlankLines with Tokenizer.trimBlankLines.
  destruct (Tokenizer.trimBlankLines body) as [|c l] eqn:T; [reflexivity|].
  cbn [filter isContent map contentValue join_nl].
  now rewrite <- T, trimBlankLines_idempotent.
Qed.

(** X18: the text that the component of a raw-block command receives: for
    the source of a command [code], [style] or [list] with a block, the
    parsed command has a block whose raw content, as [extractRawContent]
    gives it, is the text between the braces without the blank lines at
    its ends and without the indentation that its lines have in common. *)
Theorem raw_block_text (name body : jsstring) :
  In name RAW_BLOCK_COMMANDS ->
  balanced body ->
  exists (cs : list Node) (l loc : Location),
    Parser.parse (c_slash :: name ++ str " {" ++ body ++ [c_rbrace]) =
      Ok (mkDocument [Command name [] (Some (mkBlock cs l)) None loc]) /\
    extractRawContent cs = dedent (Tokenizer.trimBlankLines body).
Proof.
  intros R B. pose proof (parse_raw_block name body R B) as P.
  cbv zeta in P. eexists _, _, _. split; [exact P|].
  apply extractRawContent_raw.
Qed.

Lemma raw_block_text_witness :
  exists (cs : list Node) (l loc : Location),
    Parser.parse (str "/code {" ++ [c_nl] ++ str "    x" ++ [c_nl] ++
                  str "      y" ++ [c_nl] ++ str "}") =
      Ok (mkDocument [Command (str "code") [] (Some (mkBlock cs l)) None loc])
    /\
    extractRawContent cs =
      dedent (Tokenizer.trimBlankLines
                ([c_nl] ++ str "    x" ++ [c_nl] ++ str "      y" ++ [c_nl])).
Proof.
  refine (raw_block_text (str "code")
            ([c_nl] ++ str "    x" ++ [c_nl] ++ str "      y" ++ [c_nl])
            _ eq_refl).
  left. reflexivity.
Defined.
(** *** The record of arguments *)

Lemma streq_eq (a b : jsstring) : streq a b = true <-> a = b.
Proof.
  revert b. induction a as [|x a IH]; intros [|y b]; cbn [streq];
    try (split; [discriminate|discriminate]); [tauto|].
  split.
  - intros H. apply andb_prop in H. destruct H as [H1 H2].
    apply eqc_eq in H1. apply IH in H2. congruence.
  - intros H. injection H as -> ->. rewrite eqc_refl. now apply IH.
Qed.

Lemma streq_neq (a b : jsstring) : a <> b -> streq a b = false.
Proof.
  intros N. destruct (streq a b) eqn:E; [|reflexivity].
  apply streq_eq in E. contradiction.
Qed.

Lemma streq_refl (a : jsstring) : streq a a = true.
Proof. now apply streq_eq. Qed.

Lemma get_assign_same (key : jsstring) (v : ArgValue) (o : Args) :
  get key (assign key v o) = Some v.
Proof.
  induction o as [|[k w] o IH]; cbn [assign get].
  - now rewrite streq_refl.
  - destruct (streq k key) eqn:E; cbn [get]; now rewrite E.
Qed.

Lemma get_assign_other (key key' : jsstring) (v : ArgValue) (o : Args) :
  key' <> key -> get key (assign key' v o) = get key o.
Proof.
  intros N. induction o as [|[k w] o IH]; cbn [assign get].
  - now rewrite (streq_neq key' key N).
  - destruct (streq k key') eqn:E; cbn [get].
    + apply streq_eq in E. subst k. now rewrite (streq_neq key' key N).
    + now rewrite IH.
Qed.

Lemma get_set_same (key : jsstring) (v : ArgValue) (o : Args) :
  key <> str "__proto__" -> get key (set key v o) = Some v.
Proof.
  intros N. unfold set. rewrite (streq_neq _ _ N). apply get_assign_same.
Qed.

Lemma get_set_other (key key' : jsstring) (v : ArgValue) (o : Args) :
  key' <> key -> get key (set key' v o) = get key o.
Proof.
  intros N. unfold set. destruct (streq key' (str "__proto__"));
    [reflexivity|now apply get_assign_other].
Qed.

Lemma str_inj (a b : string) : str a = str b -> a = b.
Proof.
  unfold str. intros H.
  rewrite <- (string_of_list_ascii_of_string a),
          <- (string_of_list_ascii_of_string b).
  f_equal. revert H. generalize (list_ascii_of_string a) as x.
  generalize (list_ascii_of_string b) as y.
  intros y x. revert y. induction x as [|c x IH]; intros [|d y]; cbn [map];
    try discriminate; [reflexivity|].
  intros H. injection H as H1 H2. f_equal; [|now apply IH].
  unfold ch in H1. rewrite <- (ascii_N_embedding c), <- (ascii_N_embedding d).
  now rewrite H1.
Qed.

Lemma decimal_inj (i j : nat) : decimal i = decimal j -> i = j.
Proof.
  unfold decimal. intros H. apply str_inj in H.
  apply DecimalNat.Unsigned.to_uint_inj.
  pose proof (NilEmpty.usu (Nat.to_uint i)) as A.
  pose proof (NilEmpty.usu (Nat.to_uint j)) as B.
  rewrite H in A. congruence.
Qed.

Lemma positionalKey_inj (i j : nat) :
  positionalKey i = positionalKey j -> i = j.
Proof. unfold positionalKey. intros H. injection H as H. now apply decimal_inj. Qed.

Lemma positionalKey_proto (i : nat) : positionalKey i <> str "__proto__".
Proof.
  unfold positionalKey, decimal.
  destruct (Nat.to_uint i); cbn; discriminate.
Qed.

Lemma parseArgs_loop_app (a b : list Argument) :
  forall (result : Args) (k : nat),
    parseArgs_loop (a ++ b) result k =
      parseArgs_loop b (parseArgs_loop a result k)
                     (k + length (positionals a)).
Proof.
  induction a as [|x a IH]; intros result k; cbn [app parseArgs_loop positionals length].
  - now rewrite Nat.add_0_r.
  - destruct x as [v l|name short v l]; rewrite IH;
      cbn [positionals length]; f_equal; lia.
Qed.

(** A key that no argument of the list writes keeps its value. *)
Lemma parseArgs_loop_untouched (key : jsstring) (args : list Argument) :
  forall (result : Args) (k : nat),
    hasFlagNamed key args = false ->
    (forall j, k <= j < k + length (positionals args) ->
               key <> positionalKey j) ->
    get key (parseArgs_loop args result k) = get key result.
Proof.
  induction args as [|x args IH]; intros result k F P; [reflexivity|].
  destruct x as [v l|name short v l];
    cbn [parseArgs_loop hasFlagNamed positionals length] in *.
  - rewrite IH; [|exact F|intros j J; apply P; lia].
    apply get_set_other. intros E. apply (P k); [lia|now symmetry].
  - apply orb_false_elim in F. destruct F as [F1 F2].
    rewrite IH; [|exact F2|exact P].
    apply get_set_other. intros E. apply streq_eq in E. congruence.
Qed.

Lemma parseArgs_loop_positional (args : list Argument) :
  forall (result : Args) (k i : nat) (v : jsstring),
    nth_error (positionals args) i = Some v ->
    hasFlagNamed (positionalKey (k + i)) args = false ->
    get (positionalKey (k + i)) (parseArgs_loop args result k) =
      Some (VString v).
Proof.
  induction args as [|x args IH]; intros result k i v N F.
  - destruct i; discriminate N.
  - destruct x as [v0 l|name short v0 l];
      cbn [parseArgs_loop hasFlagNamed positionals] in *.
    + destruct i as [|i]; cbn [nth_error] in N.
      * injection N as ->. rewrite Nat.add_0_r in *.
        rewrite parseArgs_loop_untouched; [|exact F|].
        -- apply get_set_same, positionalKey_proto.
        -- intros j J E. apply positionalKey_inj in E. lia.
      * replace (k + S i) with (k + 1 + i) in * by lia. now apply IH.
    + apply orb_false_elim in F. destruct F as [F1 F2]. now apply IH.
Qed.

(** X19: the record that a component receives holds the positional
    arguments under the keys [_0], [_1] and so on, counted over the
    positional arguments only, unless a flag of that very name is
    given. *)
Theorem positional_argument_key (args : list Argument) (i : nat)
    (v : jsstring) :
  nth_error (positionals args) i = Some v ->
  hasFlagNamed (positionalKey i) args = false ->
  get (positionalKey i) (parseArgs args) = Some (VString v).
Proof.
  intros N F. exact (parseArgs_loop_positional args [] 0 i v N F).
Qed.

Lemma positional_argument_key_witness :
  get (str "_1")
      (parseArgs [PositionalArg (str "a") (span 1 1 0 1 1 0);
                  FlagArg (str "k") false (Some (str "x")) (span 1 1 0 1 1 0);
                  PositionalArg (str "b") (span 1 1 0 1 1 0)]) =
    Some (VString (str "b")).
Proof.
  exact (positional_argument_key
           [PositionalArg (str "a") (span 1 1 0 1 1 0);
            FlagArg (str "k") false (Some (str "x")) (span 1 1 0 1 1 0);
            PositionalArg (str "b") (span 1 1 0 1 1 0)]
           1 (str "b") eq_refl eq_refl).
Defined.

(** X20: of the flags of one name the last one counts: the record holds
    its value under its name, or [true] when it has no value.  The name
    is neither a key of a positional argument nor the name of the
    prototype accessor. *)
Theorem last_flag_wins (pre post : list Argument) (name : jsstring)
    (short : bool) (v : option jsstring) (l : Location) :
  hasFlagNamed name post = false ->
  notPositional name ->
  name <> str "__proto__" ->
  get name (parseArgs (pre ++ FlagArg name short v l :: post)) =
    Some (flagValue v).
Proof.
  intros F P N. unfold parseArgs. rewrite parseArgs_loop_app.
  cbn [parseArgs_loop]. rewrite parseArgs_loop_untouched;
    [|exact F|intros j _; apply P].
  now apply get_set_same.
Qed.
Lemma last_flag_wins_witness :
  get (str "size")
      (parseArgs [FlagArg (str "size") false (Some (str "1")) (span 1 1 0 1 1 0);
                  PositionalArg (str "a") (span 1 1 0 1 1 0);
                  FlagArg (str "size") false None (span 1 1 0 1 1 0);
                  FlagArg (str "b") true None (span 1 1 0 1 1 0)]) =
    Some (VBool true).
Proof.
  refine (last_flag_wins
            [FlagArg (str "size") false (Some (str "1")) (span 1 1 0 1 1 0);
             PositionalArg (str "a") (span 1 1 0 1 1 0)]
            [FlagArg (str "b") true None (span 1 1 0 1 1 0)]
            (str "size") false None (span 1 1 0 1 1 0) eq_refl _ _).
  - intros i E. discriminate E.
  - discriminate.
Defined.

(** *** Pipes *)

Lemma applyPipes_untouched (name : jsstring) (ps : list Pipe) :
  forall args : Args,
    hasPipeNamed name ps = false ->
    get name (fold_left (fun a p => set (pipe_name p) (pipeValue p) a)
                        ps args) = get name args.
Proof.
  induction ps as [|p ps IH]; intros args H; [reflexivity|].
  cbn [hasPipeNamed existsb] in H. apply orb_false_elim in H.
  destruct H as [H1 H2]. cbn [fold_left]. rewrite IH; [|exact H2].
  apply get_set_other. intros E. apply streq_eq in E. congruence.
Qed.

(** X21: a pipe is a property of the record under the name of the pipe:
    [true] when the pipe has no argument, else its arguments joined by
    spaces.  It replaces a flag of the same name, and of the pipes of one
    name the last one counts; the other properties of the record are those
    of the arguments of the command. *)
Theorem pipe_overrides_flag (args : list Argument) (pre post : list Pipe)
    (p : Pipe) :
  hasPipeNamed (pipe_name p) post = false ->
  pipe_name p <> str "__proto__" ->
  get (pipe_name p) (contextArgs args (Some (pre ++ p :: post))) =
    Some (pipeValue p) /\
  (forall name,
     hasPipeNamed name (pre ++ p :: post) = false ->
     get name (contextArgs args (Some (pre ++ p :: post))) =
       get name (parseArgs args)).
Proof.
  intros H N. unfold contextArgs, applyPipes. split.
  - rewrite fold_left_app. cbn [fold_left].
    rewrite applyPipes_untouched; [|exact H]. now apply get_set_same.
  - intros name K. now apply applyPipes_untouched.
Qed.

Lemma pipe_overrides_flag_witness :
  get (str "color")
      (contextArgs
         [FlagArg (str "color") false (Some (str "red")) (span 1 1 0 1 1 0)]
         (Some [mkPipe (str "bold") [] (span 1 1 0 1 1 0);
                mkPipe (str "color")
                  [PositionalArg (str "dark") (span 1 1 0 1 1 0);
                   PositionalArg (str "blue") (span 1 1 0 1 1 0)]
                  (span 1 1 0 1 1 0)])) =
    Some (VString (str "dark blue")).
Proof.
  refine (proj1 (pipe_overrides_flag
            [FlagArg (str "color") false (Some (str "red")) (span 1 1 0 1 1 0)]
            [mkPipe (str "bold") [] (span 1 1 0 1 1 0)] []
            (mkPipe (str "color")
               [PositionalArg (str "dark") (span 1 1 0 1 1 0);
                PositionalArg (str "blue") (span 1 1 0 1 1 0)]
               (span 1 1 0 1 1 0))
            eq_refl _)).
  discriminate.
Defined.

End Compiling.

(* ================================================================== *)
(** ** Content nodes *)
(* ================================================================== *)

Module Rendering.
Import Ast Vocabulary Examples Streams ParserInvariants Records Samples.
Import Parser Parsing ParserSafety TokenStream Lexing ScanRules Compiling.
Import Tokenizer(TokenType(..), Token, mkToken, type, value, loc, eqType,
                 typeName).

(** *** Content nodes come from CONTENT tokens *)

Section Contents.

Variable ok : jsstring -> bool.
Variable ts : list Token.
Hypothesis ts_ok :
  forall t, In t ts -> type t = CONTENT -> ok (value t) = true.

Lemma parseContent_contents (p p' : Parser) (c : Node) :
  tokens p = ts -> parseContent p = Ok (c, p') -> contentsOk ok c = true.
Proof.
  intros E. unfold parseContent. destruct (peek p) as [t|] eqn:K.
  - rewrite (consume_at _ _ _ t K).
    destruct (eqType (type t) CONTENT) eqn:Ty; [|discriminate].
    apply eqType_eq in Ty.
    rewrite (advance_at p t K) by (now rewrite Ty). cbn.
    intros H. injection H as <- _. cbn. apply ts_ok; [|exact Ty].
    rewrite <- E. unfold peek, tokenAt in K. now apply nth_error_In in K.
  - unfold consume, check. rewrite K. discriminate.
Qed.

Lemma parseContent_tokens (p p' : Parser) (c : Node) :
  parseContent p = Ok (c, p') -> tokens p' = tokens p.
Proof.
  unfold parseContent. intros H. unbind H.
  match goal with
  | M : consume _ _ _ = Ok _ |- _ =>
      apply consume_moves in M; [|discriminate]; destruct M as [M _]
  end.
  munch. assumption.
Qed.

Lemma parseCommand_contents (fuel : nat)
    (children : Parser -> result (list Node * Parser)) (p p' : Parser)
    (c : Node) :
  (forall q cs q', children q = Ok (cs, q') -> tokens q = ts ->
                   forallb (contentsOk ok) cs = true) ->
  tokens p = ts ->
  parseCommand fuel children p = Ok (c, p') ->
  contentsOk ok c = true.
Proof.
  intros C E. unfold parseCommand, parseBlock. intros H. munch;
    try reflexivity.
  cbn. 
  match goal with
  | K : children ?q = Ok _ |- _ => apply (C _ _ _ K)
  end.
  repeat match goal with
         | K : consume _ _ _ = Ok _ |- _ =>
             apply consume_moves in K; [|discriminate]; destruct K as [K _]
         | K : parseArgs _ _ = Ok _ |- _ =>
             apply parseArgs_loop_moves in K; destruct K as [K _]
         end.
  congruence.
Qed.

Lemma parseChildren_loop_contents :
  forall (fuel : nat) (p p' : Parser) (cs r : list Node),
    tokens p = ts ->
    forallb (contentsOk ok) cs = true ->
    parseChildren_loop fuel p cs = Ok (r, p') ->
    forallb (contentsOk ok) r = true.
Proof.
  induction fuel as [|fuel IH]; intros p p' cs r E C H; [discriminate H|].
  cbn [parseChildren_loop] in H. unfold throwError in H.
  munch; auto.
  - match goal with
    | K : parseCommand _ _ _ = Ok _, L : parseChildren_loop _ _ _ = Ok _ |- _ =>
        pose proof (parseCommand_contents _ _ _ _ _
                      (fun q cs' q' Q T => IH q q' [] cs' T eq_refl Q) E K)
          as X;
        apply parseCommand_moves in K;
          [|intros ? ? ? M; now apply parseChildren_loop_moves in M];
        destruct K as [K _];
        apply (IH _ _ _ _ (eq_trans K E) (forallb_snoc _ _ _ C X) L)
    end.
  - match goal with
    | K : parseContent _ = Ok _, L : parseChildren_loop _ _ _ = Ok _ |- _ =>
        pose proof (parseContent_contents _ _ _ E K) as X;
        apply parseContent_tokens in K;
        apply (IH _ _ _ _ (eq_trans K E) (forallb_snoc _ _ _ C X) L)
    end.
  - match goal with
    | K : advance _ = Ok _, L : parseChildren_loop _ _ _ = Ok _ |- _ =>
        apply advance_moves in K; destruct K as [K _];
        apply (IH _ _ _ _ (eq_trans K E) C L)
    end.
Qed.

End Contents.
Lemma contentsOk_occurs (ok : jsstring -> bool) (n : Node) (cs : list Node) :
  occurs n cs -> forallb (contentsOk ok) cs = true -> contentsOk ok n = true.
Proof.
  intros O. induction O as [cs I|name args inner l pipes loc cs I O IH];
    intros E; rewrite forallb_forall in E.
  - auto.
  - apply E in I. cbn in I. auto.
Qed.

Lemma parse_contents (src : jsstring) (doc : Document) :
  parse src = Ok doc ->
  forallb (contentsOk (fun v => negb (blank v))) (children doc) = true.
Proof.
  unfold parse. intros H. unbind H.
  match goal with
  | T : Tokenizer.tokenize _ = Ok _ |- _ =>
      destruct (tokenize_stream _ _ T) as (body & q & -> & _ & B & _)
  end.
  assert (OK : forall t, In t (body ++ [mkToken EOF [] (mkLocation q q)]) ->
               type t = CONTENT -> negb (blank (value t)) = true).
  { intros t I Ty. apply in_app_or in I.
    destruct I as [I|[<-|[]]]; [|discriminate Ty].
    rewrite Forall_forall in B. destruct (B _ I) as (T & _).
    unfold textOk in T. now rewrite Ty in T. }
  unfold run, parseChildren in H. munch. cbn [children].
  match goal with
  | L : parseChildren_loop _ _ _ = Ok _ |- _ =>
      eapply (parseChildren_loop_contents (fun v => negb (blank v)) _ OK);
        [| |exact L]; reflexivity
  end.
Qed.

(** X22: every content node of a parsed document, at any depth, has a
    text with a character that is not white space: the tokenizer emits no
    blank CONTENT token, and the parser makes content nodes from CONTENT
    tokens only. *)
Theorem content_nodes_not_blank (src : jsstring) (doc : Document)
    (v : jsstring) (l : Location) :
  parse src = Ok doc -> occurs (Content v l) (children doc) ->
  blank v = false.
Proof.
  intros P O. apply parse_contents in P.
  pose proof (contentsOk_occurs _ _ _ O P) as K. cbn in K.
  now apply negb_true_iff in K.
Qed.

Lemma content_nodes_not_blank_witness :
  parse src_block = Ok doc_block /\ blank (str " x ") = false.
Proof.
  assert (P : parse src_block = Ok doc_block) by (vm_compute; reflexivity).
  split; [exact P|].
  refine (content_nodes_not_blank src_block doc_block (str " x ")
            (span 1 5 4 1 8 7) P _).
  eapply occurs_below; [left; reflexivity|].
  apply occurs_here. left. reflexivity.
Defined.

(** *** Content nodes are rendered *)

Lemma blank_of_lines (text : jsstring) :
  blank text = forallb blank (split_nl text).
Proof.
  destruct (forallb blank (split_nl text)) eqn:E.
  - now apply blank_lines.
  - destruct (blank text) eqn:K; [|reflexivity].
    apply blank_split in K. congruence.
Qed.

Lemma blank_map_skipn (n : nat) (lines : list jsstring) :
  (forall l, In l lines -> blank l = false -> n <= Compiler.indent l) ->
  forallb blank (map (skipn n) lines) = forallb blank lines.
Proof.
  induction lines as [|l lines IH]; intros A; [reflexivity|].
  cbn [map forallb]. rewrite IH; [|intros x X; apply A; now right].
  f_equal. destruct (blank l) eqn:K.
  - now apply blank_skipn.
  - destruct (skipn_indent n l) as (P & _);
      [apply A; [now left|exact K]|]. congruence.
Qed.

Lemma dedent_blank (text : jsstring) :
  blank (Compiler.dedent text) = blank text.
Proof.
  destruct (dedent_spec text) as (L & A & _).
  rewrite (blank_of_lines (Compiler.dedent text)), (blank_of_lines text), L.
  now apply blank_map_skipn.
Qed.

(** X23: every content node of a parsed document is rendered: the text
    that is left of it after [dedent] and [trim] is not empty, so that
    [compileContent] hands it to the Markdown processor and wraps the
    result; the empty string is never the result. *)
Theorem content_is_rendered (src : jsstring) (doc : Document)
    (v : jsstring) (l : Location) (renderMarkdown : jsstring -> jsstring) :
  parse src = Ok doc -> occurs (Content v l) (children doc) ->
  exists text,
    trim (Compiler.dedent v) = text /\ text <> [] /\
    Compiler.compileContent renderMarkdown v =
      str "<div class=" ++ [c_dquote] ++ str "poly-content" ++ [c_dquote] ++
      str ">" ++ renderMarkdown text ++ str "</div>".
Proof.
  intros P O. apply parse_contents in P.
  pose proof (contentsOk_occurs _ _ _ O P) as K. cbn in K.
  apply negb_true_iff in K. rewrite <- dedent_blank in K.
  unfold Compiler.compileContent.
  destruct (trim (Compiler.dedent v)) as [|c t] eqn:T.
  - apply trim_blank in T. congruence.
  - exists (c :: t). split; [reflexivity|]. split; [discriminate|reflexivity].
Qed.

Lemma content_is_rendered_witness :
  parse src_block = Ok doc_block /\
  exists text,
    trim (Compiler.dedent (str " x ")) = text /\ text <> [] /\
    Compiler.compileContent (fun t => t) (str " x ") =
      str "<div class=" ++ [c_dquote] ++ str "poly-content" ++ [c_dquote] ++
      str ">" ++ text ++ str "</div>".
Proof.
  assert (P : parse src_block = Ok doc_block) by (vm_compute; reflexivity).
  split; [exact P|].
  refine (content_is_rendered src_block doc_block (str " x ")
            (span 1 5 4 1 8 7) (fun t => t) P _).
  eapply occurs_below; [left; reflexivity|].
  apply occurs_here. left. reflexivity.
Defined.

End Rendering.

(* ================================================================== *)
(** ** The positions of the tokens *)
(* ================================================================== *)

Module Positions.
Import Ast Tokenizer Vocabulary Examples Streams Invariants Samples Lexing.
Import TokenStream.

#[local] Arguments isAtEnd : simpl never.
#[local] Arguments peek : simpl never.
#[local] Arguments peekNext : simpl never.
#[local] Arguments advance : simpl never.
#[local] Arguments remaining : simpl never.
#[local] Arguments unread : simpl never.
#[local] Arguments advanceBy : simpl never.
#[local] Arguments moveOver : simpl never.

(** *** The line and the column of the cursor *)

Lemma firstn_succ (src : jsstring) (i : nat) :
  i < length src -> firstn (i + 1) src = firstn i src ++ [nth i src NUL].
Proof.
  revert i. induction src as [|c src IH]; intros i L; [cbn in L; lia|].
  destruct i as [|i]; [reflexivity|].
  cbn [firstn Nat.add nth app]. f_equal. apply IH. cbn in L. lia.
Qed.

Lemma positionAt_succ (src : jsstring) (i : nat) :
  i < length src ->
  positionAt src (i + 1) = stepPosition (positionAt src i) (nth i src NUL).
Proof.
  intros L. unfold positionAt, positionAfter.
  now rewrite (firstn_succ src i L), fold_left_app.
Qed.

Lemma tracked_plain (s : Scanner) :
  tracked s -> isAtEnd s = false -> eqc (peek s) c_nl = false ->
  tracked (snd (advance s)).
Proof.
  unfold tracked, advance, peek. intros T E N. apply isAtEnd_false in E.
  cbn [snd source pos]. rewrite (positionAt_succ _ _ E), <- T.
  unfold stepPosition. rewrite N. reflexivity.
Qed.

Lemma tracked_newline (s : Scanner) :
  tracked s -> isAtEnd s = false -> eqc (peek s) c_nl = true ->
  tracked (nextLine (snd (advance s))).
Proof.
  unfold tracked, advance, peek. intros T E N. apply isAtEnd_false in E.
  cbn [snd source pos nextLine set_line set_column].
  rewrite (positionAt_succ _ _ E), <- T.
  unfold stepPosition. rewrite N. reflexivity.
Qed.

Lemma tracked_canStartCommand (b : bool) (s : Scanner) :
  tracked s -> tracked (set_canStartCommand b s).
Proof. exact (fun T => T). Qed.

Lemma tracked_inCommandMode (b : bool) (s : Scanner) :
  tracked s -> tracked (set_inCommandMode b s).
Proof. exact (fun T => T). Qed.

Lemma tracked_currentCommand (name : jsstring) (s : Scanner) :
  tracked s -> tracked (set_currentCommand name s).
Proof. exact (fun T => T). Qed.

Lemma tracked_addToken (ty : TokenType) (v : jsstring) (start : Position)
    (s : Scanner) :
  tracked s -> tracked (addToken ty v start s).
Proof. exact (fun T => T). Qed.

(** A character that is known is not a newline. *)
Lemma is_not_newline (c k : char) :
  eqc c k = true -> eqc k c_nl = false -> eqc c c_nl = false.
Proof. intros E%eqc_eq N. now subst. Qed.

Lemma advanceWhile_tracked (p : char -> bool) :
  (forall c, p c = true -> eqc c c_nl = false) ->
  forall (fuel : nat) (s : Scanner) (acc : jsstring),
    tracked s -> tracked (snd (advanceWhile p fuel s acc)).
Proof.
  intros P. induction fuel as [|fuel IH]; intros s acc T;
    cbn [advanceWhile]; [exact T|].
  destruct (isAtEnd s) eqn:E; cbn [negb andb]; [exact T|].
  destruct (p (peek s)) eqn:K; [|exact T].
  pose proof (tracked_plain s T E (P _ K)) as T1.
  destruct (advance s) as [c s1]. now apply IH.
Qed.
Lemma noEscapedNewline_at (src : jsstring) (i : nat) :
  noEscapedNewline src = true ->
  eqc (nth i src NUL) c_backslash = true ->
  eqc (nth (i + 1) src NUL) c_nl = false.
Proof.
  revert i. induction src as [|c src IH]; intros i H B.
  - now destruct i.
  - cbn [noEscapedNewline] in H. apply andb_prop in H. destruct H as [H1 H2].
    destruct i as [|i]; cbn [nth Nat.add] in *.
    + rewrite B in H1. cbn [andb] in H1. apply negb_true_iff in H1.
      now destruct src.
    + now apply IH.
Qed.

(** The same, when only the first [n] characters of the source are known
    to have no backslash right before a newline. *)
Lemma nth_firstn_before (src : jsstring) (n i : nat) :
  i < n -> nth i (firstn n src) NUL = nth i src NUL.
Proof.
  revert n i. induction src as [|c src IH]; intros n i L.
  - now rewrite firstn_nil.
  - destruct n as [|n]; [lia|]. destruct i as [|i]; [reflexivity|].
    cbn [firstn nth]. apply IH. lia.
Qed.

Lemma noEscapedNewline_before (src : jsstring) (n i : nat) :
  noEscapedNewline (firstn n src) = true -> i + 1 < n ->
  eqc (nth i src NUL) c_backslash = true ->
  eqc (nth (i + 1) src NUL) c_nl = false.
Proof.
  intros N L B.
  rewrite <- (nth_firstn_before src n (i + 1)) by lia.
  apply noEscapedNewline_at; [exact N|].
  rewrite nth_firstn_before by lia. exact B.
Qed.

Lemma scanString_loop_tracked :
  forall (fuel : nat) (quote : char) (s : Scanner) (v : jsstring) (n : nat),
    noEscapedNewline (firstn n (source s)) = true ->
    pos (snd (scanString_loop fuel quote s v)) <= n ->
    tracked s ->
    tracked (snd (scanString_loop fuel quote s v)).
Proof.
  induction fuel as [|fuel IH]; intros quote s v n N;
    cbn [scanString_loop]; [auto|].
  destruct (isAtEnd s) eqn:E; cbn [negb andb]; [auto|].
  destruct (eqc (peek s) quote); cbn [negb]; [auto|].
  destruct (eqc (peek s) c_backslash) eqn:B.
  - unfold advance at 1 3. cbv beta iota.
    match goal with
    | |- context [if negb (isAtEnd ?x) then _ else _] =>
        destruct (isAtEnd x) eqn:E1
    end; cbn [negb]; intros P T;
      pose proof (tracked_plain s T E (is_not_newline _ _ B eq_refl)) as T1.
    + apply IH with n; [exact N|exact P|exact T1].
    + unfold advance in P |- *. cbv beta iota in P |- *.
      match type of P with
      | pos (snd (scanString_loop ?f ?q ?x ?a)) <= _ =>
          pose proof (scanString_loop_steady f q x a) as (_ & _ & M & _)
      end.
      assert (K : eqc (nth (pos s + 1) (source s) NUL) c_nl = false).
      { apply noEscapedNewline_before with n; [exact N| |exact B].
        apply Nat.lt_le_trans with (2 := P).
        eapply Nat.lt_le_trans; [|exact M]. cbn. lia. }
      apply IH with n; [exact N|exact P|].
      exact (tracked_plain _ T1 E1 K).
  - unfold advance. cbv beta iota. destruct (eqc (peek s) c_nl) eqn:L;
      intros P T.
    + apply IH with n; [exact N|exact P|]. exact (tracked_newline s T E L).
    + apply IH with n; [exact N|exact P|]. exact (tracked_plain s T E L).
Qed.

Lemma scanString_loop_stops :
  forall (fuel : nat) (quote : char) (s : Scanner) (v : jsstring),
    remaining s <= fuel ->
    isAtEnd (snd (scanString_loop fuel quote s v)) = true \/
    eqc (peek (snd (scanString_loop fuel quote s v))) quote = true.
Proof.
  induction fuel as [|fuel IH]; intros quote s v R; cbn [scanString_loop].
  - left. now apply remaining_0.
  - destruct (isAtEnd s) eqn:E; cbn [negb andb]; [now left|].
    destruct (eqc (peek s) quote) eqn:Q; cbn [negb]; [now right|].
    pose proof (remaining_advance s fuel R) as R1.
    unfold advance in *. cbn [snd] in R1. cbv beta iota.
    destruct (eqc (peek s) c_backslash).
    + match goal with
      | |- context [if negb (isAtEnd ?x) then _ else _] =>
          destruct (isAtEnd x) eqn:E1
      end; cbn [negb]; apply IH; [exact R1|].
      unfold remaining in *. cbn [source pos] in *. lia.
    + destruct (eqc (peek s) c_nl); apply IH; exact R1.
Qed.

Lemma scanRawBlock_loop_tracked :
  forall (fuel : nat) (s : Scanner) (depth : nat) (content : jsstring),
    tracked s -> tracked (snd (scanRawBlock_loop fuel s depth content)).
Proof.
  induction fuel as [|fuel IH]; intros s depth content T;
    cbn [scanRawBlock_loop]; [exact T|].
  destruct (isAtEnd s) eqn:E; cbn [negb andb]; [exact T|].
  destruct (0 <? depth); [|exact T].
  unfold advance. cbv beta iota.
  destruct (eqc (peek s) c_lbrace) eqn:B1.
  { apply IH. exact (tracked_plain s T E (is_not_newline _ _ B1 eq_refl)). }
  destruct (eqc (peek s) c_rbrace) eqn:B2.
  { destruct (0 <? depth - 1); [|now apply IH].
    apply IH. exact (tracked_plain s T E (is_not_newline _ _ B2 eq_refl)). }
  destruct (eqc (peek s) c_nl) eqn:L.
  - apply IH. exact (tracked_newline s T E L).
  - apply IH. exact (tracked_plain s T E L).
Qed.

Lemma nth_error_nth (src : jsstring) (i : nat) (c : char) :
  nth_error src i = Some c -> i < length src /\ nth i src NUL = c.
Proof.
  intros H. split; [apply nth_error_Some; congruence|].
  now apply nth_error_nth.
Qed.

Lemma consumeCodeFence_tracked (s : Scanner) :
  matchCodeFence s = true -> tracked s -> tracked (snd (consumeCodeFence s)).
Proof.
  unfold matchCodeFence. intros M T.
  destruct (nth_error (source s) (pos s)) as [a|] eqn:A; [|discriminate].
  destruct (nth_error (source s) (pos s + 1)) as [b|] eqn:B; [|discriminate].
  destruct (nth_error (source s) (pos s + 2)) as [c|] eqn:C; [|discriminate].
  apply andb_prop in M. destruct M as [M M3].
  apply andb_prop in M. destruct M as [M1 M2].
  apply nth_error_nth in A, B, C.
  destruct A as [A1 A2], B as [B1 B2], C as [C1 C2]. subst a b c.
  assert (E0 : isAtEnd s = false) by (apply Nat.leb_gt; exact A1).
  pose proof (tracked_plain s T E0 (is_not_newline _ _ M1 eq_refl)) as T1.
  assert (E1 : isAtEnd (snd (advance s)) = false)
    by (apply Nat.leb_gt; exact B1).
  pose proof (tracked_plain _ T1 E1 (is_not_newline _ _ M2 eq_refl)) as T2.
  assert (E2 : isAtEnd (snd (advance (snd (advance s)))) = false).
  { apply Nat.leb_gt. cbn [snd advance pos source].
    unfold advance. cbn. lia. }
  assert (K : eqc (peek (snd (advance (snd (advance s))))) c_nl = false).
  { apply (is_not_newline _ c_backtick); [|reflexivity].
    unfold peek, advance. cbn [snd pos source].
    now rewrite <- Nat.add_assoc. }
  pose proof (tracked_plain _ T2 E2 K) as T3.
  unfold consumeCodeFence. unfold advance. cbv beta iota.
  apply advanceWhile_tracked; [|exact T3].
  intros x X. now apply negb_true_iff in X.
Qed.

Lemma scanContent_loop_tracked :
  forall (fuel : nat) (s : Scanner) (content : jsstring) (fence : bool),
    tracked s -> tracked (snd (scanContent_loop fuel s content fence)).
Proof.
  induction fuel as [|fuel IH]; intros s content fence T;
    cbn [scanContent_loop]; [exact T|].
  destruct (isAtEnd s) eqn:E; [exact T|].
  destruct (eqc (peek s) c_backtick && canStartCommand s && matchCodeFence s)
    eqn:F.
  { apply andb_prop in F. destruct F as [_ F].
    pose proof (consumeCodeFence_tracked s F T) as C.
    destruct (consumeCodeFence s) as [fence' s1]. cbn [snd] in C.
    now apply IH. }
  destruct fence.
  { unfold advance. cbv beta iota. destruct (eqc (peek s) c_nl) eqn:L.
    - apply IH. exact (tracked_newline s T E L).
    - apply IH. exact (tracked_plain s T E L). }
  destruct (eqc (peek s) c_backtick) eqn:B.
  { pose proof (tracked_plain s T E (is_not_newline _ _ B eq_refl)) as T1.
    unfold advance at 1. cbv beta iota.
    match goal with
    | |- context [advanceWhile ?p ?n ?x ?a] =>
        assert (A : tracked (snd (advanceWhile p n x a)));
        [apply advanceWhile_tracked; [|exact T1]|];
        [|destruct (advanceWhile p n x a) as [code s2]]
    end.
    { intros x X. apply andb_prop in X. destruct X as [_ X].
      now apply negb_true_iff in X. }
    cbn [snd] in A.
    destruct (eqc (peek s2) c_backtick) eqn:K.
    - pose proof (peek_is s2 c_backtick K) as E2.
      unfold advance. cbv beta iota. apply IH.
      refine (tracked_plain s2 A (E2 _) (is_not_newline _ _ K eq_refl)).
      discriminate.
    - now apply IH. }
  destruct (eqc (peek s) c_lbrace || eqc (peek s) c_rbrace); [exact T|].
  destruct (eqc (peek s) c_slash && canStartCommand s); [exact T|].
  unfold advance. cbv beta iota.
  destruct (eqc (peek s) c_nl) eqn:L.
  { apply IH. exact (tracked_newline s T E L). }
  destruct ((eqc (peek s) c_space || eqc (peek s) c_tab) && canStartCommand s);
    apply IH; exact (tracked_plain s T E L).
Qed.
(** *** The positions of the tokens *)

Lemma walks_none (s s' : Scanner) :
  steady s s' -> tracked s' -> walks s s' [].
Proof.
  intros (A & B & _) T. unfold walks. rewrite app_nil_r.
  split; [exact A|]. split; [exact B|]. split; [constructor|exact T].
Qed.

Lemma walks_addToken (ty : TokenType) (v : jsstring) (s s2 : Scanner) :
  tracked s -> steady s s2 -> tracked s2 ->
  walks s (addToken ty v (currentPosition s) s2)
    [mkToken ty v (mkLocation (currentPosition s) (currentPosition s2))].
Proof.
  intros T (A & B & _) T2. unfold walks. cbn. rewrite A.
  split; [reflexivity|]. split; [exact B|]. split; [|exact T2].
  constructor; [|constructor]. unfold placed, tracked in *. cbn.
  split; [exact T|]. now rewrite <- B.
Qed.

Lemma walks_canStartCommand (b : bool) (s s' : Scanner) (new : list Token) :
  walks s s' new -> walks s (set_canStartCommand b s') new.
Proof. exact (fun W => W). Qed.

Lemma walks_inCommandMode (b : bool) (s s' : Scanner) (new : list Token) :
  walks s s' new -> walks s (set_inCommandMode b s') new.
Proof. exact (fun W => W). Qed.

Lemma walks_currentCommand (name : jsstring) (s s' : Scanner)
    (new : list Token) :
  walks s s' new -> walks s (set_currentCommand name s') new.
Proof. exact (fun W => W). Qed.

Lemma walks_trans (s1 s2 s3 : Scanner) (xs ys : list Token) :
  walks s1 s2 xs -> walks s2 s3 ys -> walks s1 s3 (xs ++ ys).
Proof.
  unfold walks. intros (A & B & C & D) (E & F & G & H).
  split; [now rewrite E, A, app_assoc|]. split; [congruence|].
  split; [|exact H]. apply Forall_app. split; [exact C|]. now rewrite <- B.
Qed.

Lemma not_newline (p : char -> bool) (c : char) :
  p c_nl = false -> p c = true -> eqc c c_nl = false.
Proof.
  intros N P. destruct (eqc c c_nl) eqn:E; [|reflexivity].
  apply eqc_eq in E. subst c. congruence.
Qed.

Lemma isIdentifierChar_line (c : char) :
  isIdentifierChar c = true -> eqc c c_nl = false.
Proof. apply not_newline. vm_compute. reflexivity. Qed.

Lemma isValueChar_line (c : char) :
  isValueChar c = true -> eqc c c_nl = false.
Proof. apply not_newline. vm_compute. reflexivity. Qed.

Lemma isLetter_line (c : char) : isLetter c = true -> eqc c c_nl = false.
Proof. apply not_newline. vm_compute. reflexivity. Qed.

Lemma scanCommand_walks (s s' : Scanner) :
  tracked s -> isAtEnd s = false -> eqc (peek s) c_slash = true ->
  scanCommand (currentPosition s) s = Ok s' ->
  exists new, walks s s' new.
Proof.
  intros T E C.
  pose proof (tracked_plain s T E (is_not_newline _ _ C eq_refl)) as T1.
  pose proof (steady_advance s E) as S1.
  unfold scanCommand. unfold advance in *. cbn [snd] in *. cbv beta iota.
  match goal with
  | |- context [advanceWhile ?p ?n ?x ?a] =>
      destruct (advanceWhile_steady p n x a) as (A & _);
      pose proof (advanceWhile_tracked p isIdentifierChar_line n x a T1)
        as T2;
      destruct (advanceWhile p n x a) as [name s2]
  end.
  cbn [snd] in *. destruct name; [discriminate|].
  intros H. injection H as <-. eexists.
  apply walks_currentCommand, walks_inCommandMode, walks_canStartCommand,
    walks_addToken; [exact T| |exact T2].
  now apply steady_trans with (2 := A).
Qed.

Lemma scanString_walks (k : nat) (s s' : Scanner) :
  tracked s -> noEscapedNewline (firstn k (source s)) = true ->
  pos s' <= k -> isAtEnd s = false ->
  eqc (peek s) c_dquote || eqc (peek s) c_squote = true ->
  scanString (currentPosition s) s = Ok s' ->
  exists new, walks s s' new.
Proof.
  intros T N P E Q.
  assert (Q1 : eqc (peek s) c_nl = false).
  { apply orb_prop in Q. destruct Q as [Q|Q];
      exact (is_not_newline _ _ Q eq_refl). }
  pose proof (tracked_plain s T E Q1) as T1.
  pose proof (steady_advance s E) as S1.
  unfold scanString. unfold advance at 1. unfold advance in T1, S1.
  cbn [snd] in *. cbv beta iota.
  match goal with
  | |- context [scanString_loop ?n ?q ?x ?a] =>
      pose proof (scanString_loop_steady n q x a) as A;
      pose proof (scanString_loop_tracked n q x a k N) as T2;
      pose proof (scanString_loop_stops n q x a (Nat.le_refl _)) as K;
      destruct (scanString_loop n q x a) as [v s2]
  end.
  cbn [snd] in *. destruct (isAtEnd s2) eqn:E2; [discriminate|].
  destruct K as [K|K]; [discriminate K|].
  assert (K1 : eqc (peek s2) c_nl = false).
  { apply eqc_eq in K. fold (peek s) in K. rewrite K. exact Q1. }
  pose proof (steady_advance s2 E2) as S3.
  intros H. injection H as <-.
  assert (P2 : pos s2 <= k) by (unfold advance in P; cbn in P; lia).
  specialize (T2 P2 T1).
  pose proof (tracked_plain s2 T2 E2 K1) as T3.
  unfold advance in *. cbn [snd] in *.
  eexists. apply walks_addToken; [exact T| |exact T3].
  apply steady_trans with (1 := S1). now apply steady_trans with (1 := A).
Qed.

Lemma scanCommandPart_walks (k : nat) (s s' : Scanner) :
  tracked s -> noEscapedNewline (firstn k (source s)) = true ->
  pos s' <= k -> isAtEnd s = false ->
  scanCommandPart (currentPosition s) s = Ok s' ->
  exists new, walks s s' new.
Proof.
  intros T N P E. unfold scanCommandPart. cbv zeta.
  destruct (eqc (peek s) c_pipe) eqn:PI.
  { pose proof (tracked_plain s T E (is_not_newline _ _ PI eq_refl)) as T1.
    pose proof (steady_advance s E) as S1.
    unfold advance in *. cbn [snd] in *. intros H. injection H as <-.
    eexists.
    match goal with
    | |- walks s (addToken ?ty ?v ?st ?x) _ =>
        apply (walks_addToken ty v s x); assumption
    end. }
  destruct (eqc (peek s) c_dash && eqc (peekNext s) c_dash) eqn:LF.
  { apply andb_prop in LF. destruct LF as [L1 L2].
    pose proof (tracked_plain s T E (is_not_newline _ _ L1 eq_refl)) as T1.
    pose proof (steady_advance s E) as S1.
    assert (E1 : isAtEnd (snd (advance s)) = false).
    { apply Nat.leb_gt. change (pos s + 1 < length (source s)).
      apply peekNext_inside. apply eqc_eq in L2.
      rewrite L2. discriminate. }
    pose proof (tracked_plain _ T1 E1 (is_not_newline _ _ L2 eq_refl)) as T2.
    pose proof (steady_advance _ E1) as S2.
    unfold advance in *. cbn [snd] in *. cbv beta iota.
    match goal with
    | |- context [advanceWhile ?p ?n ?x ?a] =>
        destruct (advanceWhile_steady p n x a) as (A & _);
        pose proof (advanceWhile_tracked p isIdentifierChar_line n x a T2)
          as T3;
        destruct (advanceWhile p n x a) as [name s3]
    end.
    cbn [snd] in *. destruct name; [discriminate|].
    intros H. injection H as <-. eexists.
    apply walks_addToken; [exact T| |exact T3].
    apply steady_trans with (1 := S1). now apply steady_trans with (1 := S2). }
  destruct (eqc (peek s) c_dash && isLetter (peekNext s)) eqn:SF.
  { apply andb_prop in SF. destruct SF as [L1 L2].
    pose proof (tracked_plain s T E (is_not_newline _ _ L1 eq_refl)) as T1.
    pose proof (steady_advance s E) as S1.
    assert (E1 : isAtEnd (snd (advance s)) = false).
    { apply Nat.leb_gt. change (pos s + 1 < length (source s)).
      apply peekNext_inside. intros Z. rewrite Z in L2.
      discriminate L2. }
    pose proof (tracked_plain _ T1 E1 (isLetter_line _ L2))
      as T2.
    pose proof (steady_advance _ E1) as S2.
    unfold advance in *. cbn [snd] in *. intros H. injection H as <-.
    eexists.
    match goal with
    | |- walks s (addToken ?ty ?v ?st ?x) _ =>
        apply (walks_addToken ty v s x); [exact T| |exact T2]
    end.
    now apply steady_trans with (1 := S1). }
  destruct (eqc (peek s) c_dquote || eqc (peek s) c_squote) eqn:Q.
  { now apply (scanString_walks k). }
  destruct (eqc (peek s) c_lbrace).
  { intros H. injection H as <-. eexists.
    apply walks_canStartCommand, walks_inCommandMode, walks_none;
      [apply steady_refl|exact T]. }
  destruct (isValueChar (peek s)); [|discriminate].
  destruct (advanceWhile_steady isValueChar (remaining s) s []) as (A & _).
  pose proof (advanceWhile_tracked isValueChar
                isValueChar_line (remaining s) s [] T) as T1.
  destruct (advanceWhile isValueChar (remaining s) s []) as [v s1].
  cbn [snd] in *. intros H. injection H as <-. eexists.
  now apply walks_addToken.
Qed.
Lemma scanRawBlock_walks (s : Scanner) :
  tracked s -> isAtEnd s = false -> eqc (peek s) c_lbrace = true ->
  exists new, walks s (scanRawBlock (currentPosition s) s) new.
Proof.
  intros T E B.
  pose proof (tracked_plain s T E (is_not_newline _ _ B eq_refl)) as T1.
  pose proof (steady_advance s E) as S1.
  unfold scanRawBlock. unfold advance at 1. unfold advance in T1, S1.
  cbn [snd] in *. cbv beta iota zeta.
  match goal with
  | |- context [scanRawBlock_loop ?n (addToken ?ty ?v ?st ?x) ?d ?a] =>
      pose proof (walks_addToken ty v s x T S1 T1) as W1;
      set (s2 := addToken ty v st x) in *
  end.
  assert (T2 : tracked s2) by apply W1.
  match goal with
  | |- context [scanRawBlock_loop ?n ?x ?d ?a] =>
      pose proof (scanRawBlock_loop_steady n x d a) as A;
      pose proof (scanRawBlock_loop_tracked n x d a T2) as T3;
      destruct (scanRawBlock_loop n x d a) as [content s3]
  end.
  cbn [snd] in *.
  assert (W : exists mid s4,
             walks s s4 mid /\
             s4 = match trimBlankLines content with
                  | [] => s3
                  | _ :: _ =>
                      addToken CONTENT (trimBlankLines content)
                               (currentPosition s2) s3
                  end).
  { destruct (trimBlankLines content) as [|c l].
    - eexists _, s3. split; [|reflexivity].
      eapply walks_trans; [exact W1|]. now apply walks_none.
    - eexists _, _. split; [|reflexivity].
      eapply walks_trans; [exact W1|]. now apply walks_addToken. }
  destruct W as (mid & s4 & W & ->).
  match goal with
  | |- context [if negb (isAtEnd ?x) && _ then _ else _] =>
      set (s4 := x) in *
  end.
  assert (T4 : tracked s4) by apply W.
  destruct (isAtEnd s4) eqn:E4; cbn [negb andb].
  { eexists. apply walks_currentCommand, walks_inCommandMode,
      walks_canStartCommand. exact W. }
  destruct (eqc (peek s4) c_rbrace) eqn:R.
  - pose proof (tracked_plain s4 T4 E4 (is_not_newline _ _ R eq_refl)) as T5.
    pose proof (steady_advance s4 E4) as S5.
    unfold advance in *. cbn [snd] in *. eexists.
    apply walks_currentCommand, walks_inCommandMode, walks_canStartCommand.
    eapply walks_trans; [exact W|].
    match goal with
    | |- walks s4 (addToken ?ty ?v ?st ?x) _ =>
        apply (walks_addToken ty v s4 x); assumption
    end.
  - eexists. apply walks_currentCommand, walks_inCommandMode,
      walks_canStartCommand. exact W.
Qed.

Lemma scanContent_walks (s : Scanner) :
  tracked s -> exists new, walks s (scanContent (currentPosition s) s) new.
Proof.
  intros T. unfold scanContent.
  pose proof (scanContent_loop_steady (remaining s) s [] false) as A.
  pose proof (scanContent_loop_tracked (remaining s) s [] false T) as T1.
  destruct (scanContent_loop (remaining s) s [] false) as [content s1].
  cbn [snd] in *. destruct (trim content).
  - eexists. now apply walks_none.
  - eexists. now apply walks_addToken.
Qed.

Lemma scanToken_walks (k : nat) (s s' : Scanner) :
  tracked s -> noEscapedNewline (firstn k (source s)) = true ->
  pos s' <= k -> isAtEnd s = false ->
  scanToken s = Ok s' ->
  exists new, walks s s' new.
Proof.
  intros T N P E. unfold scanToken. cbv zeta.
  destruct ((eqc (peek s) c_space || eqc (peek s) c_tab || eqc (peek s) c_cr) &&
            (inCommandMode s || negb (canStartCommand s))) eqn:W.
  { apply andb_prop in W. destruct W as [W _].
    assert (L : eqc (peek s) c_nl = false).
    { apply orb_prop in W. destruct W as [W|W];
        [apply orb_prop in W; destruct W as [W|W]|];
        exact (is_not_newline _ _ W eq_refl). }
    intros H. injection H as <-. eexists.
    apply walks_none; [now apply steady_advance|now apply tracked_plain]. }
  destruct (eqc (peek s) c_nl) eqn:L.
  { intros H. injection H as <-. eexists.
    apply walks_inCommandMode, walks_canStartCommand, walks_none.
    - eapply steady_trans; [now apply steady_advance|apply steady_nextLine].
    - now apply tracked_newline. }
  destruct (eqc (peek s) c_lbrace) eqn:B1.
  { destruct (isRawBlockCommand (currentCommand s)).
    - intros H. injection H as <-. now apply scanRawBlock_walks.
    - intros H. injection H as <-. eexists.
      apply walks_inCommandMode, walks_canStartCommand.
      match goal with
      | |- walks s (addToken ?ty ?v ?st ?x) _ =>
          apply (walks_addToken ty v s x);
            [exact T|now apply steady_advance|now apply tracked_plain]
      end. }
  destruct (eqc (peek s) c_rbrace) eqn:B2.
  { intros H. injection H as <-. eexists.
    apply walks_inCommandMode, walks_canStartCommand.
    match goal with
    | |- walks s (addToken ?ty ?v ?st ?x) _ =>
        apply (walks_addToken ty v s x);
          [exact T|now apply steady_advance|now apply tracked_plain]
    end. }
  destruct (eqc (peek s) c_slash && canStartCommand s) eqn:C.
  { apply andb_prop in C. destruct C as [C _]. now apply scanCommand_walks. }
  destruct (inCommandMode s).
  { now apply (scanCommandPart_walks k). }
  intros H. injection H as <-. now apply scanContent_walks.
Qed.

Lemma tokenize_loop_walks :
  forall (fuel : nat) (s s' : Scanner),
    tracked s -> inside s -> noEscapedNewline (source s) = true ->
    tokenize_loop fuel s = Ok s' ->
    exists new, walks s s' new.
Proof.
  induction fuel as [|fuel IH]; intros s s' T I N; cbn [tokenize_loop];
    destruct (isAtEnd s) eqn:E; try discriminate.
  - intros H. injection H as <-. exists [].
    apply walks_none; [apply steady_refl|exact T].
  - intros H. injection H as <-. exists [].
    apply walks_none; [apply steady_refl|exact T].
  - destruct (scanToken s) as [s1| |] eqn:K; cbn [bind]; try discriminate.
    intros H.
    destruct (scanToken_emits s s1 E I K) as (new & _ & B & _ & _ & I1).
    assert (N1 : noEscapedNewline (firstn (length (source s)) (source s)) =
                 true) by now rewrite firstn_all.
    assert (P : pos s1 <= length (source s))
      by (destruct I1 as [I1 _]; now rewrite B in I1).
    destruct (scanToken_walks _ s s1 T N1 P E K) as (xs & X).
    pose proof X as (_ & _ & _ & T1). rewrite <- B in N.
    destruct (IH s1 s' T1 I1 N H) as (ys & Y).
    exists (xs ++ ys). now apply walks_trans with s1.
Qed.

(** X24: when no backslash of the source has a newline right after it,
    every position of a token is the position of its offset in the source:
    its line is one more than the number of newlines before the offset,
    and its column is one more than the number of characters since the
    last of them. *)
Theorem token_positions_exact (src : jsstring) (ts : list Token)
    (t : Token) :
  noEscapedNewline src = true ->
  tokenize src = Ok ts -> In t ts ->
  start (loc t) = positionAt src (offset (start (loc t))) /\
  end_ (loc t) = positionAt src (offset (end_ (loc t))).
Proof.
  intros N. unfold tokenize, Tokenizer.run.
  destruct (tokenize_loop (2 * remaining (init src) + 1) (init src))
    as [s1| |] eqn:L; cbn [bind]; try discriminate.
  intros H I. injection H as <-.
  assert (T0 : tracked (init src)) by reflexivity.
  assert (I0 : inside (init src)) by (unfold inside; cbn; lia).
  destruct (tokenize_loop_walks _ _ _ T0 I0 N L) as (new & A & B & C & D).
  cbn [init tokens source app] in A, B, C. rewrite A in I.
  apply in_app_or in I. destruct I as [I|[<-|[]]].
  - rewrite Forall_forall in C. now apply C.
  - unfold tracked in D. rewrite B in D. cbn. auto.
Qed.

Lemma token_positions_exact_witness :
  tokenize src_two_lines = Ok tokens_two_lines /\
  mkPosition 2 1 2 = positionAt src_two_lines 2 /\
  mkPosition 2 3 4 = positionAt src_two_lines 4.
Proof.
  assert (P : tokenize src_two_lines = Ok tokens_two_lines)
    by (vm_compute; reflexivity).
  split; [exact P|].
  refine (token_positions_exact src_two_lines tokens_two_lines
            (mkToken COMMAND (str "b") (span 2 1 2 2 3 4)) eq_refl P _).
  right; left; reflexivity.
Defined.

(** *** The position of a lexical error

    The scanner after some turns of the loop of [tokenize]: it reads the
    same source, and the loop comes to it. *)








End Positions.
